(** * DocsRAG: chunker, incremental vector index and query workflow

    A shallow embedding of the core of the DocsRAG API
    ([documentProcessor.ts], [customVectorStore.ts], [gemini.ts],
    [utils] and [pocketFlowRAG.ts]) together with the properties its
    design document states about it.

    Conventions of the embedding:
    - JavaScript strings are [string] (sequences of bytes); [length]
      therefore counts bytes, which agrees with the source for ASCII
      text.  The character classes [\s], [a-z0-9] and [toLowerCase]
      are modelled on ASCII.
    - JavaScript numbers that are real-valued (similarities,
      confidences, vector coordinates) are IEEE-754 binary64 values,
      Rocq's primitive [float]; counters and indices are [nat].
    - [Map<string, V>] objects are [gmap string V]; the order in which
      a [Map] is iterated (its insertion order) is not represented, and
      no statement below depends on it.
    - Remote calls and file-system writes are oracles indexed by the
      number of calls made so far, so that a retry may see a different
      outcome than the first attempt.
    - A value that is thrown is an [Error] with its message,
      [undefined], [null], or another value without a [message]; the
      program itself throws [Error]s only, a remote call may reject
      with any of them. *)

From Stdlib Require Import Ascii String PrimFloat.
From stdpp Require Import gmap strings list fin_maps pretty.

Open Scope string_scope.
Open Scope list_scope.
Open Scope nat_scope.

(* ===================================================================== *)
(** * JavaScript string and loop helpers *)
(* ===================================================================== *)

Module Js.

(** [for (let i = start; i < n; i += step) s = body(i, s)].  The fuel
    bounds the number of iterations; [n] is always enough when
    [step > 0] (see [for_step_unroll]). *)
Fixpoint for_step {St : Type} (fuel i n step : nat)
    (body : nat → St → St) (s : St) : St :=
  match fuel with
  | O => s
  | S fuel' =>
      if i <? n then for_step fuel' (i + step) n step body (body i s)
      else s
  end.

(** [arr.slice(i, j)] for [0 <= i <= j]. *)
Definition slice {A : Type} (i j : nat) (l : list A) : list A :=
  take (j - i) (drop i l).

(** The class [\s] restricted to ASCII: TAB, LF, VT, FF, CR, SPACE. *)
Definition is_ws (c : ascii) : bool :=
  let n := nat_of_ascii c in
  ((9 <=? n) && (n <=? 13)) || (n =? 32).

(** [s.split(/\s+/)]: a leading or trailing run of white space yields
    an empty first or last piece, and the empty string yields [[""]]. *)
Fixpoint split_ws_aux (cur : string) (in_ws : bool) (s : string)
    : list string :=
  match s with
  | EmptyString => [cur]
  | String c s' =>
      if is_ws c then
        if in_ws then split_ws_aux cur true s'
        else cur :: split_ws_aux "" true s'
      else split_ws_aux (cur +:+ String c "") false s'
  end.

Definition split_ws (s : string) : list string := split_ws_aux "" false s.

(** [arr.join(sep)]. *)
Fixpoint join (sep : string) (l : list string) : string :=
  match l with
  | [] => ""
  | [w] => w
  | w :: rest => w +:+ sep +:+ join sep rest
  end.

(** [s.trim().length > 0], i.e. some character is not white space. *)
Fixpoint non_blank (s : string) : bool :=
  match s with
  | EmptyString => false
  | String c s' => negb (is_ws c) || non_blank s'
  end.

Definition lower (c : ascii) : ascii :=
  let n := nat_of_ascii c in
  if (65 <=? n) && (n <=? 90) then ascii_of_nat (n + 32) else c.

Fixpoint toLowerCase (s : string) : string :=
  match s with
  | EmptyString => ""
  | String c s' => String (lower c) (toLowerCase s')
  end.

(** Membership in the class [[a-z0-9]]. *)
Definition is_lower_alnum (c : ascii) : bool :=
  let n := nat_of_ascii c in
  ((97 <=? n) && (n <=? 122)) || ((48 <=? n) && (n <=? 57)).

Definition dash : ascii := "-"%char.
Definition hash : ascii := "#"%char.

(** [s.replace(/[^a-z0-9]+/g, '-')]. *)
Fixpoint dash_runs (in_run : bool) (s : string) : string :=
  match s with
  | EmptyString => ""
  | String c s' =>
      if is_lower_alnum c then String c (dash_runs false s')
      else if in_run then dash_runs true s'
      else String dash (dash_runs true s')
  end.

(** [s.replace(/^-|-$/g, '')]: one leading and one trailing dash. *)
Definition strip_lead (s : string) : string :=
  match s with
  | String c s' => if Ascii.eqb c dash then s' else s
  | EmptyString => ""
  end.

Fixpoint strip_trail (s : string) : string :=
  match s with
  | EmptyString => ""
  | String c EmptyString => if Ascii.eqb c dash then "" else s
  | String c s' => String c (strip_trail s')
  end.

(** JavaScript truthiness of a string: [""] is falsy. *)
Definition truthy (s : string) : bool :=
  match s with EmptyString => false | _ => true end.

(** [a || b] on strings. *)
Definition or_else (a b : string) : string := if truthy a then a else b.

(** Does the character occur in the string? *)
Fixpoint occurs (c : ascii) (s : string) : bool :=
  match s with
  | EmptyString => false
  | String d s' => Ascii.eqb c d || occurs c s'
  end.

(** [s.split(sep)] for a one-character separator. *)
Fixpoint split_on_aux (sep : ascii) (cur : string) (s : string)
    : list string :=
  match s with
  | EmptyString => [cur]
  | String c s' =>
      if Ascii.eqb c sep then cur :: split_on_aux sep "" s'
      else split_on_aux sep (cur +:+ String c "") s'
  end.

Definition split_on (sep : ascii) (s : string) : list string :=
  split_on_aux sep "" s.

(** [s.trim()]. *)
Fixpoint trim_start (s : string) : string :=
  match s with
  | String c s' => if is_ws c then trim_start s' else s
  | EmptyString => ""
  end.

Fixpoint trim_end (s : string) : string :=
  match s with
  | EmptyString => ""
  | String c s' =>
      match trim_end s' with
      | EmptyString => if is_ws c then "" else String c ""
      | t => String c t
      end
  end.

Definition trim (s : string) : string := trim_end (trim_start s).

(** The longest prefix of characters satisfying [p], and the rest. *)
Fixpoint span (p : ascii → bool) (s : string) : string * string :=
  match s with
  | String c s' =>
      if p c then let '(a, b) := span p s' in (String c a, b)
      else ("", s)
  | EmptyString => ("", "")
  end.

(** The class [.]: any character but a line terminator. *)
Definition is_dot (c : ascii) : bool :=
  let n := nat_of_ascii c in negb ((n =? 10) || (n =? 13)).

Fixpoint all_chars (p : ascii → bool) (s : string) : bool :=
  match s with
  | EmptyString => true
  | String c s' => p c && all_chars p s'
  end.

Fixpoint last_char (s : string) : option ascii :=
  match s with
  | EmptyString => None
  | String c EmptyString => Some c
  | String _ s' => last_char s'
  end.

(** [s.startsWith(p)] and [s.includes(sub)]. *)
Definition startsWith (s p : string) : bool := String.prefix p s.

Fixpoint includes (s sub : string) : bool :=
  String.prefix sub s
  || match s with
     | String _ s' => includes s' sub
     | EmptyString => false
     end.

(** The string without its first [n] characters. *)
Fixpoint skip (n : nat) (s : string) : string :=
  match n, s with
  | S n', String _ s' => skip n' s'
  | _, _ => s
  end.

(** What follows the first occurrence of [marker], if there is one. *)
Fixpoint after_first (marker s : string) : option string :=
  if String.prefix marker s then Some (skip (String.length marker) s)
  else match s with
       | String _ s' => after_first marker s'
       | EmptyString => None
       end.

Definition LF : ascii := ascii_of_nat 10.
Definition CR : ascii := ascii_of_nat 13.

(** [s.replace(/\r\n/g, '\n')]. *)
Fixpoint replace_crlf (s : string) : string :=
  match s with
  | EmptyString => ""
  | String c rest =>
      match rest with
      | String d s' =>
          if Ascii.eqb c CR && Ascii.eqb d LF then String LF (replace_crlf s')
          else String c (replace_crlf rest)
      | EmptyString => String c ""
      end
  end.

(** [s.replace(/\n{3,}/g, '\n\n')]: of a run of line feeds the first
    two are kept; [run] counts the line feeds just passed. *)
Fixpoint collapse_newlines (run : nat) (s : string) : string :=
  match s with
  | EmptyString => ""
  | String c s' =>
      if Ascii.eqb c LF then
        if run <? 2 then String LF (collapse_newlines (S run) s')
        else collapse_newlines run s'
      else String c (collapse_newlines 0 s')
  end.

End Js.

(* ===================================================================== *)
(** * Shared types ([types/index.ts]) *)
(* ===================================================================== *)

Inductive ChunkType := full_document | section | subsection.

#[global] Instance ChunkType_eq_dec : EqDecision ChunkType.
Proof. solve_decision. Defined.

(** [EnhancedDocumentMetadata].  The fields that the chunker copies
    unchanged from the base metadata and that no modelled operation
    reads (sidebar data, tags, authors, link lists, code languages,
    URLs) are gathered in [carried]. *)
Record EnhancedDocumentMetadata := {
  file_path : string;
  file_name : string;
  file_hash : string;
  title : string;
  word_count : nat;
  heading_structure : list string;
  md_section : option string;
  chunk_index : option nat;
  chunk_type : ChunkType;
  carried : list (string * string)
}.

Record DocumentChunk := {
  id : string;
  text : string;
  metadata : EnhancedDocumentMetadata
}.

Record MarkdownSection := {
  heading : string;
  level : nat;
  content : string;
  startLine : Z;
  endLine : Z
}.

#[global] Instance EnhancedDocumentMetadata_eq_dec :
  EqDecision EnhancedDocumentMetadata.
Proof. solve_decision. Defined.

#[global] Instance DocumentChunk_eq_dec : EqDecision DocumentChunk.
Proof. solve_decision. Defined.

(* ===================================================================== *)
(** * The chunker ([documentProcessor.ts]) *)
(* ===================================================================== *)

Module DocumentProcessor.

Definition maxChunkSize : nat := 1000.
Definition chunkOverlap : nat := 200.

(** [Math.floor(this.maxChunkSize / 6)] and
    [Math.floor(this.chunkOverlap / 6)]. *)
Definition wordsPerChunk : nat := maxChunkSize / 6.
Definition overlapWords : nat := chunkOverlap / 6.

Definition sanitizeId (text : string) : string :=
  Js.strip_trail (Js.strip_lead (Js.dash_runs false (Js.toLowerCase text))).

(** The loop of [slidingWindowChunk] over an array of words, for a
    window of [w] words advanced by [step] words. *)
Definition windows (w step : nat) (words : list string) : list string :=
  Js.for_step (length words) 0 (length words) step
    (λ i chunks, chunks ++ [Js.join " " (Js.slice i (i + w) words)]) [].

Definition slidingWindowChunk (content : string) : list string :=
  windows wordsPerChunk (wordsPerChunk - overlapWords) (Js.split_ws content).

Definition nl : string := String (ascii_of_nat 10) "".

(** [line.match(/^(#{1,6})\s+(.+)$/)]: the level and the heading.
    The white space after the marks is consumed greedily; when
    nothing follows it, the last white-space character is given back
    to the heading group. *)
Definition headerMatch (line : string) : option (nat * string) :=
  let '(marks, rest) := Js.span (λ c, Ascii.eqb c Js.hash) line in
  let n := String.length marks in
  if (1 <=? n) && (n <=? 6) then
    let '(w, t) := Js.span Js.is_ws rest in
    match w, t with
    | EmptyString, _ => None
    | _, String _ _ => if Js.all_chars Js.is_dot t then Some (n, t) else None
    | _, EmptyString =>
        match Js.last_char w with
        | Some c =>
            if (2 <=? String.length w) && Js.is_dot c
            then Some (n, String c "") else None
        | None => None
        end
    end
  else None.

(** The section that starts at line [start] and ends before line
    [stop]: [lines.slice(startLine + 1, endLine + 1).join('\n').trim()]
    with [endLine = stop - 1]. *)
Definition closeSection (lines : list string) (start lvl : nat)
    (h : string) (stop : nat) : MarkdownSection :=
  {| heading := h; level := lvl;
     content := Js.trim (Js.join nl (Js.slice (start + 1) stop lines));
     startLine := Z.of_nat start; endLine := Z.of_nat stop - 1 |}.

Definition extractSections (content : string) : list MarkdownSection :=
  let lines := Js.split_on (ascii_of_nat 10) content in
  let '(sections, currentSection) :=
    Js.for_step (length lines) 0 (length lines) 1
      (λ i '(sections, currentSection),
         match headerMatch (default "" (lines !! i)) with
         | Some (lvl, h) =>
             (match currentSection with
              | Some (start, lvl0, h0) =>
                  sections ++ [closeSection lines start lvl0 h0 i]
              | None => sections
              end,
              Some (i, lvl, h))
         | None => (sections, currentSection)
         end)
      ([], None) in
  match currentSection with
  | Some (start, lvl0, h0) =>
      sections ++ [closeSection lines start lvl0 h0 (length lines)]
  | None => sections
  end.

(** [`# ${section.heading}\n\n${section.content}`] *)
Definition sectionContent (s : MarkdownSection) : string :=
  "# " +:+ heading s +:+ nl +:+ nl +:+ content s.

Definition with_chunk (base : EnhancedDocumentMetadata)
    (sec : option string) (idx : option nat) (ty : ChunkType)
    : EnhancedDocumentMetadata :=
  {| file_path := file_path base; file_name := file_name base;
     file_hash := file_hash base; title := title base;
     word_count := word_count base;
     heading_structure := heading_structure base;
     md_section := sec; chunk_index := idx; chunk_type := ty;
     carried := carried base |}.

(** The chunks pushed for one section (the body of the [for] loop of
    [createChunks]). *)
Definition sectionChunks (base : EnhancedDocumentMetadata)
    (s : MarkdownSection) : list DocumentChunk :=
  let sc := sectionContent s in
  if String.length sc <=? maxChunkSize then
    [ {| id := file_path base +:+ "#" +:+ sanitizeId (heading s);
         text := sc;
         metadata := with_chunk base (Some (heading s)) None
                       (if level s =? 1 then section else subsection) |} ]
  else
    imap (λ index chunk,
            {| id := file_path base +:+ "#" +:+ sanitizeId (heading s)
                       +:+ "#" +:+ pretty index;
               text := chunk;
               metadata := with_chunk base (Some (heading s)) (Some index)
                             subsection |})
         (slidingWindowChunk sc).

Definition createChunks (content : string) (sections : list MarkdownSection)
    (baseMetadata : EnhancedDocumentMetadata) : list DocumentChunk :=
  if String.length content <=? maxChunkSize then
    [ {| id := file_path baseMetadata;
         text := content;
         metadata := with_chunk baseMetadata (md_section baseMetadata)
                       (chunk_index baseMetadata) full_document |} ]
  else
    flat_map (sectionChunks baseMetadata) sections.

(** The last steps of [processMarkdownFile], on the processed
    content. *)
Definition chunkDocument (processedContent : string)
    (baseMetadata : EnhancedDocumentMetadata) : list DocumentChunk :=
  createChunks processedContent (extractSections processedContent)
    baseMetadata.

(** [cleanMarkdown]: line endings, runs of blank lines, outer white
    space. *)
Definition cleanMarkdown (content : string) : string :=
  Js.trim (Js.collapse_newlines 0 (Js.replace_crlf content)).

(** [content.replace(/^---\n[\s\S]*?\n---\n?/, '')]: the block from an
    opening [---] line to the first following line that starts with
    [---], with the line feed after it when there is one. *)
Definition removeFrontmatter (content : string) : string :=
  if Js.startsWith content ("---" +:+ nl) then
    match Js.after_first (nl +:+ "---") (Js.skip 4 content) with
    | Some tail =>
        if Js.startsWith tail nl then Js.skip 1 tail else tail
    | None => content
    end
  else content.

(** [countWords] *)
Definition countWords (content : string) : nat :=
  length (filter (λ word, Js.truthy word = true) (Js.split_ws content)).

(** The directory names [inferCategory] leaves out. *)
Definition structuralParts : list string :=
  ["apps"; "docs"; "data"; "tutorial-basics"; "tutorial-extras"].

(** [inferCategory], with [path.sep] the POSIX separator. *)
Definition inferCategory (filePath : string) : string :=
  let pathParts := Js.split_on "/"%char filePath in
  let relevantParts := filter (λ part, part ∉ structuralParts) pathParts in
  if 1 <? length relevantParts
  then default "" (relevantParts !! (length relevantParts - 2))
  else "general".

Definition isInternalLink (link : string) : bool :=
  Js.startsWith link "./" || Js.startsWith link "/" || Js.startsWith link "../".

Definition isExternalLink (link : string) : bool :=
  Js.startsWith link "http://" || Js.startsWith link "https://".

End DocumentProcessor.

(* ===================================================================== *)
(** * Effects: state that survives an exception *)
(* ===================================================================== *)

(** What a [catch] clause can observe of the value it caught.  The
    program itself throws [Error] objects, identified by their
    message, and a string stands for the [Error] with that message; a
    remote call may reject with any value: an object with a [message],
    [undefined], [null], or another value, whose [message] member is
    [undefined]. *)
Inductive Thrown :=
  | Error (message : string)
  | Undefined
  | Null
  | OtherValue.

Coercion Error : string >-> Thrown.

#[global] Instance Thrown_eq_dec : EqDecision Thrown.
Proof. solve_decision. Defined.

(** [error?.message] *)
Definition optional_message (error : Thrown) : option string :=
  match error with
  | Error message => Some message
  | _ => None
  end.

(** A computation over a mutable state [St] either returns a value or
    throws.  In both cases the mutations made so far persist, as they
    do for a JavaScript object that is shared by reference. *)
Inductive Outcome (St A : Type) : Type :=
  | Returns (a : A) (s : St)
  | Throws (error : Thrown) (s : St).
Arguments Returns {St A} a s.
Arguments Throws {St A} error s.

Definition M (St A : Type) : Type := St → Outcome St A.

#[global] Instance M_ret {St} : MRet (M St) := λ A a s, Returns a s.

#[global] Instance M_bind {St} : MBind (M St) := λ A B f c s,
  match c s with
  | Returns a s' => f a s'
  | Throws e s' => Throws e s'
  end.

Module Eff.

Definition throw {St A} (e : Thrown) : M St A := λ s, Throws e s.

(** [try { c } catch (error) { handler(error) }] *)
Definition try_catch {St A} (c : M St A) (handler : Thrown → M St A)
    : M St A := λ s,
  match c s with
  | Returns a s' => Returns a s'
  | Throws e s' => handler e s'
  end.

Definition get {St} : M St St := λ s, Returns s s.
Definition gets {St A} (f : St → A) : M St A := λ s, Returns (f s) s.
Definition modify {St} (f : St → St) : M St unit := λ s, Returns tt (f s).

(** [for (let i = start; i < n; i += step) { body(i) }] with effects. *)
Fixpoint for_step {St} (fuel i n step : nat) (body : nat → M St unit)
    : M St unit :=
  match fuel with
  | O => mret tt
  | S fuel' =>
      if i <? n then body i ≫= λ _, for_step fuel' (i + step) n step body
      else mret tt
  end.

(** [for (const x of xs) { body(x) }] *)
Fixpoint for_of {St A} (xs : list A) (body : A → M St unit) : M St unit :=
  match xs with
  | [] => mret tt
  | x :: rest => body x ≫= λ _, for_of rest body
  end.

Definition state_of {St A} (o : Outcome St A) : St :=
  match o with Returns _ s => s | Throws _ s => s end.

End Eff.

(* ===================================================================== *)
(** * The embedding client ([gemini.ts]) *)
(* ===================================================================== *)

Abbreviation vector := (list float).

(** The value found under [type] in the reply of [classifyQueryIntent]:
    a category name, or a member that the lookup table inherits from
    [Object.prototype] (which is not a string). *)
Inductive IntentType :=
  | Category (name : string)
  | Inherited (key : string).

Module GeminiService.

Section Embedding.
(** The remote [embedContent] call: the [n]-th remote call, on the
    given text, yields a vector, or [None] when the call throws or
    the reply carries no values. *)
Context {St : Type}.
Variable embedContent : nat → string → option vector.
Variable calls : St → nat.
Variable set_calls : nat → St → St.

Definition maxLength : nat := 10 * 1000.

Definition getTextEmbedding (text : string) : M St vector :=
  if negb (Js.non_blank text) then
    Eff.throw "Text cannot be empty for embedding"
  else
    let truncatedText :=
      if maxLength <? String.length text
      then String.substring 0 maxLength text +:+ "..." else text in
    n ← Eff.gets calls;
    Eff.modify (set_calls (S n));;
    match embedContent n truncatedText with
    | Some values => mret values
    | None => Eff.throw "Failed to get embedding from Gemini API"
    end.

(** The source walks [validTexts] in slices of 50 with a pause
    between slices; the pause has no effect on the result, so the
    two nested loops are one pass over [validTexts]. *)
Definition getTextEmbeddings (texts : list string) : M St (list vector) :=
  let validTexts := filter (λ t, Js.non_blank t = true) texts in
  match validTexts with
  | [] => mret []
  | _ =>
      foldl (λ (acc : M St (list vector)) text,
               embeddings ← acc;
               Eff.try_catch
                 (embedding ← getTextEmbedding text;
                  mret (embeddings ++ [embedding]))
                 (λ _, mret embeddings))
            (mret []) validTexts
  end.
End Embedding.

Section Generation.
(** The remote [generateContent] call: the [n]-th remote call, on the
    given prompt, throws ([inl]), or replies with a text or with no
    text at all ([inr]). *)
Context {St : Type}.
Variable generateContent : nat → string → Thrown + option string.
Variable calls : St → nat.
Variable set_calls : nat → St → St.

Definition dquote : string := String (ascii_of_nat 34) "".
Definition nl : string := String (ascii_of_nat 10) "".

Definition generateText (prompt : string) : M St string :=
  n ← Eff.gets calls;
  Eff.modify (set_calls (S n));;
  match generateContent n prompt with
  | inr (Some ((String _ _) as text)) => mret text
  | inr _ => Eff.throw "No text generated from Gemini API"
  | inl e => Eff.throw e
  end.

Definition classifyPrompt (query : string) : string :=
  "Classify the intent of this documentation search query. Return only the category name." +:+ nl +:+ nl +:+
  "Query: " +:+ dquote +:+ query +:+ dquote +:+ nl +:+ nl +:+
  "Categories:" +:+ nl +:+
  "- how-to: Questions asking how to do something (starts with " +:+ dquote +:+ "how" +:+ dquote +:+ ", asks for steps/instructions)" +:+ nl +:+
  "- concept: Questions asking what something is or how it works conceptually" +:+ nl +:+
  "- reference: Questions asking for specific API details, parameters, or technical specifications" +:+ nl +:+
  "- troubleshooting: Questions about errors, problems, or debugging" +:+ nl +:+
  "- example: Questions asking for code examples or sample implementations" +:+ nl +:+
  "- general: General questions that don't fit other categories" +:+ nl +:+ nl +:+
  "Category:".

(** [intentMap[intent]]: the seven own keys of the literal, and the
    two lower-case members every object literal inherits. *)
Definition intentMap (intent : string) : option IntentType :=
  if String.eqb intent "how-to" then Some (Category "how-to")
  else if String.eqb intent "howto" then Some (Category "how-to")
  else if String.eqb intent "concept" then Some (Category "concept")
  else if String.eqb intent "reference" then Some (Category "reference")
  else if String.eqb intent "troubleshooting" then Some (Category "troubleshooting")
  else if String.eqb intent "example" then Some (Category "example")
  else if String.eqb intent "general" then Some (Category "general")
  else if String.eqb intent "constructor" || String.eqb intent "__proto__"
  then Some (Inherited intent)
  else None.

(** The confidences [0.8] and [0.5] as binary64 values. *)
Definition classifyQueryIntent (query : string)
    : M St (IntentType * float) :=
  Eff.try_catch
    (response ← generateText (classifyPrompt query);
     let intent := Js.toLowerCase (Js.trim response) in
     mret (default (Category "general") (intentMap intent),
           0x1.999999999999ap-1%float))
    (λ _, mret (Category "general", 0.5%float)).

Definition expandPrompt (query : string) : string :=
  "Generate 2-3 alternative phrasings for this documentation search query. Each phrasing should maintain the same meaning but use different words. Return each alternative on a new line." +:+ nl +:+ nl +:+
  "Original query: " +:+ dquote +:+ query +:+ dquote +:+ nl +:+ nl +:+
  "Alternatives:".

Definition expandQuery (query : string) : M St (list string) :=
  Eff.try_catch
    (response ← generateText (expandPrompt query);
     mret (Js.slice 0 3
             (filter (λ line, 0 < String.length line ∧ line ≠ query)
                (Js.trim <$> Js.split_on (ascii_of_nat 10) response))))
    (λ _, mret []).

End Generation.

End GeminiService.

(* ===================================================================== *)
(** * The vector store ([customVectorStore.ts], [utils]) *)
(* ===================================================================== *)

(** [StoredDocument] has the fields of [DocumentChunk]. *)
Abbreviation StoredDocument := DocumentChunk.

(** The three artifacts of the persisted snapshot; [None] is a file
    that does not exist.  [documents.json] is the array of stored
    documents, [embeddings.json] and [file_hashes.json] are objects.
    A file is represented by the value that was handed to
    [JSON.stringify]; what the text written gives back to
    [JSON.parse] is worked out where the file is read. *)
Record Disk := {
  documentsFile : option (list StoredDocument);
  embeddingsFile : option (gmap string vector);
  fileHashesFile : option (gmap string string)
}.

(** The store object together with the world it acts on.  A value
    [None] in [embeddings] is a key whose value is [undefined]. *)
Record Store := {
  documents : gmap string StoredDocument;
  embeddings : gmap string (option vector);
  disk : Disk;
  api_calls : nat;
  fs_writes : nat
}.

Module CustomVectorStore.

Definition set_documents f (st : Store) : Store :=
  {| documents := f (documents st); embeddings := embeddings st;
     disk := disk st; api_calls := api_calls st; fs_writes := fs_writes st |}.
Definition set_embeddings f (st : Store) : Store :=
  {| documents := documents st; embeddings := f (embeddings st);
     disk := disk st; api_calls := api_calls st; fs_writes := fs_writes st |}.
Definition set_disk f (st : Store) : Store :=
  {| documents := documents st; embeddings := embeddings st;
     disk := f (disk st); api_calls := api_calls st;
     fs_writes := fs_writes st |}.
Definition set_api_calls (n : nat) (st : Store) : Store :=
  {| documents := documents st; embeddings := embeddings st;
     disk := disk st; api_calls := n; fs_writes := fs_writes st |}.
Definition set_fs_writes (n : nat) (st : Store) : Store :=
  {| documents := documents st; embeddings := embeddings st;
     disk := disk st; api_calls := api_calls st; fs_writes := n |}.

(** [Array.from(this.documents.values())] *)
Definition values (m : gmap string StoredDocument) : list StoredDocument :=
  (map_to_list m).*2.

(** [new Set(xs)] as the list of its elements in insertion order. *)
Definition new_Set (xs : list string) : list string :=
  foldl (λ acc x, if decide (x ∈ acc) then acc else acc ++ [x]) [] xs.

(** [JSON.stringify] of the embeddings object drops the keys whose
    value is [undefined]. *)
Definition embeddingsObject (m : gmap string (option vector))
    : gmap string vector := omap (λ e, e) m.

Definition with_documents (docs : list StoredDocument) (d : Disk) : Disk :=
  {| documentsFile := Some docs; embeddingsFile := embeddingsFile d;
     fileHashesFile := fileHashesFile d |}.
Definition with_embeddings (e : gmap string vector) (d : Disk) : Disk :=
  {| documentsFile := documentsFile d; embeddingsFile := Some e;
     fileHashesFile := fileHashesFile d |}.
Definition with_hashes (h : gmap string string) (d : Disk) : Disk :=
  {| documentsFile := documentsFile d; embeddingsFile := embeddingsFile d;
     fileHashesFile := Some h |}.

Section Ingestion.
(** The remote embedding call and the file system: the [n]-th
    [writeFileSync] either replaces the file or throws and leaves
    it as it was. *)
Variable embedContent : nat → string → option vector.
Variable writeFails : nat → bool.

Definition writeFileSync (put : Disk → Disk) : M Store unit :=
  n ← Eff.gets fs_writes;
  Eff.modify (set_fs_writes (S n));;
  if writeFails n then Eff.throw "EIO: write failed"
  else Eff.modify (set_disk put).

Definition getTextEmbeddings : list string → M Store (list vector) :=
  GeminiService.getTextEmbeddings embedContent api_calls set_api_calls.

(** [loadStoredFileHashes]: an absent file is the empty map. *)
Definition loadStoredFileHashes : M Store (gmap string string) :=
  Eff.gets (λ st, default ∅ (fileHashesFile (disk st))).

(** [saveStoredFileHashes]: a failed write is logged, not thrown. *)
Definition saveStoredFileHashes (fileHashes : gmap string string)
    : M Store unit :=
  Eff.try_catch (writeFileSync (with_hashes fileHashes)) (λ _, mret tt).

Definition saveIndex : M Store unit :=
  documentsArray ← Eff.gets (λ st, values (documents st));
  writeFileSync (with_documents documentsArray);;
  embeddingsObj ← Eff.gets (λ st, embeddingsObject (embeddings st));
  writeFileSync (with_embeddings embeddingsObj).

(** [JSON.parse(JSON.stringify(x))] for a number [x]; [None] is
    [null].  A finite number is written with the digits that read back
    as the same number, except that [-0] is written as [0]; [NaN] and
    the infinities are written as [null]. *)
Definition JSON_number (x : float) : option float :=
  if is_finite x
  then Some (if is_zero x && get_sign x then 0%float else x)
  else None.

(** An embedding as it is read back.  A coordinate that is [null]
    counts as [0] in the products of [cosineSimilarity], the only
    place where a coordinate is read, and is rendered as [0]. *)
Definition parsedEmbedding (embedding : vector) : vector :=
  (λ x, default 0%float (JSON_number x)) <$> embedding.

(** [tryLoadExistingIndex]: [false] when either file is missing.  The
    strings, the counters and the structure of a stored document are
    read back as they were written. *)
Definition tryLoadExistingIndex : M Store bool :=
  d ← Eff.gets disk;
  match documentsFile d, embeddingsFile d with
  | Some storedDocuments, Some storedEmbeddings =>
      Eff.modify (set_documents (λ _,
        foldl (λ m doc, <[id doc := doc]> m) ∅ storedDocuments));;
      Eff.modify (set_embeddings (λ _,
        (λ embedding, Some (parsedEmbedding embedding))
          <$> storedEmbeddings));;
      mret true
  | _, _ => mret false
  end.

Definition batchSize : nat := 10.

(** The inner loop of [buildIndexFromScratch]: only documents that
    got a non-empty embedding are stored. *)
Definition storeBatch (batch : list DocumentChunk)
    (embs : list vector) : M Store unit :=
  Eff.for_step (length batch `min` length embs) 0
    (length batch `min` length embs) 1
    (λ j,
       match batch !! j with
       | None => Eff.throw "TypeError: doc is undefined"
       | Some doc =>
           match embs !! j with
           | Some ((_ :: _) as embedding) =>
               Eff.modify (set_documents (insert (id doc) doc));;
               Eff.modify (set_embeddings (insert (id doc) (Some embedding)))
           | _ => mret tt
           end
       end).

Definition buildIndexFromScratch (currentDocuments : list DocumentChunk)
    (currentFileHashes : gmap string string) : M Store unit :=
  Eff.modify (set_documents (λ _, ∅));;
  Eff.modify (set_embeddings (λ _, ∅));;
  let validDocuments :=
    filter (λ doc, Js.non_blank (text doc) = true) currentDocuments in
  Eff.for_step (length validDocuments) 0 (length validDocuments) batchSize
    (λ i,
       let batch := Js.slice i (i + batchSize) validDocuments in
       Eff.try_catch
         (embs ← getTextEmbeddings (text <$> batch);
          storeBatch batch embs)
         (λ _, mret tt));;
  saveIndex;;
  saveStoredFileHashes currentFileHashes.

(** The insert and delete sets computed by [performIncrementalUpdate]. *)
Definition idsOfFile (docs : gmap string StoredDocument) (filePath : string)
    : list string :=
  id <$> filter (λ d, file_path (metadata d) = filePath) (values docs).

Definition chunksOfFile (currentDocuments : list DocumentChunk)
    (filePath : string) : list DocumentChunk :=
  filter (λ d, file_path (metadata d) = filePath) currentDocuments.

Definition deletedFiles (docs : gmap string StoredDocument)
    (currentFilesPaths : list string) : list string :=
  let storedFilePaths := new_Set ((λ d, file_path (metadata d)) <$> values docs) in
  flat_map (λ storedFilePath,
              if decide (storedFilePath ∈ currentFilesPaths) then []
              else idsOfFile docs storedFilePath) storedFilePaths.

Definition reconcile (docs : gmap string StoredDocument)
    (storedFileHashes : gmap string string)
    (currentDocuments : list DocumentChunk)
    (currentFileHashes : gmap string string)
    : list DocumentChunk * list string :=
  let currentFilesPaths :=
    new_Set ((λ d, file_path (metadata d)) <$> currentDocuments) in
  foldl (λ '(documentsToInsert, documentIdsToDelete) filePath,
           match storedFileHashes !! filePath with
           | Some ((String _ _) as storedHash) =>
               if decide (currentFileHashes !! filePath = Some storedHash)
               then (documentsToInsert, documentIdsToDelete)
               else (documentsToInsert ++ chunksOfFile currentDocuments filePath,
                     documentIdsToDelete ++ idsOfFile docs filePath)
           | _ =>
               (documentsToInsert ++ chunksOfFile currentDocuments filePath,
                documentIdsToDelete)
           end)
        ([], deletedFiles docs currentFilesPaths) currentFilesPaths.

Definition performIncrementalUpdate (currentDocuments : list DocumentChunk)
    (currentFileHashes : gmap string string) : M Store unit :=
  storedFileHashes ← loadStoredFileHashes;
  docs ← Eff.gets documents;
  let '(documentsToInsert, documentIdsToDelete) :=
    reconcile docs storedFileHashes currentDocuments currentFileHashes in
  if bool_decide (documentsToInsert = []) && bool_decide (documentIdsToDelete = [])
  then mret tt
  else
    Eff.for_of documentIdsToDelete (λ docId,
      Eff.modify (set_documents (delete docId));;
      Eff.modify (set_embeddings (delete docId)));;
    (match documentsToInsert with
     | [] => mret tt
     | _ =>
         embs ← getTextEmbeddings (text <$> documentsToInsert);
         Eff.for_step (length documentsToInsert) 0
           (length documentsToInsert) 1
           (λ i,
              match documentsToInsert !! i with
              | None => Eff.throw "TypeError: doc is undefined"
              | Some doc =>
                  Eff.modify (set_documents (insert (id doc) doc));;
                  Eff.modify (set_embeddings (insert (id doc) (embs !! i)))
              end)
     end);;
    saveIndex;;
    saveStoredFileHashes currentFileHashes.

(** The second half of [initialize], after the scan of the tree. *)
Definition initialize (currentDocuments : list DocumentChunk)
    (currentFileHashes : gmap string string) : M Store unit :=
  loaded ← tryLoadExistingIndex;
  if loaded : bool then performIncrementalUpdate currentDocuments currentFileHashes
  else buildIndexFromScratch currentDocuments currentFileHashes.

End Ingestion.

(** [cosineSimilarity]: one loop accumulates the dot product and the
    two squared norms. *)
Definition coord (v : vector) (i : nat) : float := default nan (v !! i).

Definition cosineSimilarity (a b : vector) : string + float :=
  if negb (length a =? length b) then inl "Vector dimensions must match"
  else
    let '(dotProduct, normA, normB) :=
      Js.for_step (length a) 0 (length a) 1
        (λ i '(dotProduct, normA, normB),
           ((dotProduct + coord a i * coord b i)%float,
            (normA + coord a i * coord a i)%float,
            (normB + coord b i * coord b i)%float))
        (0%float, 0%float, 0%float) in
    inr (dotProduct / (sqrt normA * sqrt normB))%float.

End CustomVectorStore.

(* ===================================================================== *)
(** * The workflow runtime (package [pocketflow]) *)
(* ===================================================================== *)

(** The package is a dependency of the repository, not part of it.  Its
    classes [Node] and [Flow] are rendered after the package's own
    code: the retry loop of [Node._exec] with the default
    [execFallback], the successor tables filled by [next] and [on], the
    lookup of [getNextNode] and the loop of [Flow._orchestrate].  The
    pauses between attempts have no effect on the result and are left
    out. *)

(** The eight stages built by [buildRAGFlow], named as its locals. *)
Inductive NodeId :=
  | intentNode | expansionNode | searchNode | contextNode
  | responseNode | fallbackNode | metadataNode | errorNode.

#[global] Instance NodeId_eq_dec : EqDecision NodeId.
Proof. solve_decision. Defined.

Module PocketFlow.

(** A [Node]: [prep] reads the shared object, [exec] works on the
    value prepared, [post] writes the shared object and returns the
    action that selects the successor. *)
Record Node (St : Type) := {
  PrepT : Type;
  ExecT : Type;
  maxRetries : nat;
  prep : M St PrepT;
  exec : PrepT → M St ExecT;
  post : PrepT → ExecT → M St string
}.
Arguments PrepT {St} _.
Arguments ExecT {St} _.
Arguments maxRetries {St} _.
Arguments prep {St} _.
Arguments exec {St} _.
Arguments post {St} _.

(** [Node._exec]: up to [maxRetries] attempts; the default
    [execFallback] rethrows the error of the last attempt.  (With no
    attempt at all the package returns [undefined]; every node of
    this program is built with at least one attempt.) *)
Fixpoint _exec {St A} (maxRetries : nat) (attempt : M St A) : M St A :=
  match maxRetries with
  | 0 => Eff.throw "TypeError: undefined exec result"
  | 1 => attempt
  | S n => Eff.try_catch attempt (λ _, _exec n attempt)
  end.

(** [BaseNode._run]; [visit] records the stage in the run's trace. *)
Definition _run {St} (visit : M St unit) (node : Node St) : M St string :=
  visit;;
  prepRes ← prep node;
  execRes ← _exec (maxRetries node) (exec node prepRes);
  post node prepRes execRes.

(** The successor tables filled by [next] and [on]. *)
Definition Successors := NodeId → string → option NodeId.

Definition no_successors : Successors := λ _ _, None.

Definition on (node : NodeId) (action : string) (target : NodeId)
    (g : Successors) : Successors :=
  λ n a, if decide (n = node ∧ a = action) then Some target else g n a.

Definition next (node target : NodeId) (g : Successors) : Successors :=
  on node "default" target g.

Definition getNextNode (g : Successors) (node : NodeId) (action : string)
    : option NodeId :=
  g node (Js.or_else action "default").

Record Flow := { start : NodeId; successors : Successors }.

(** [Flow._orchestrate]: [Some tt] when the walk ends at a stage
    without successor for the action returned, [None] when the fuel
    is used up before that. *)
Fixpoint _orchestrate {St} (visit : NodeId → M St unit)
    (nodes : NodeId → Node St) (g : Successors) (fuel : nat)
    (current : NodeId) : M St (option unit) :=
  match fuel with
  | 0 => mret None
  | S fuel' =>
      action ← _run (visit current) (nodes current);
      match getNextNode g current action with
      | Some nxt => _orchestrate visit nodes g fuel' nxt
      | None => mret (Some tt)
      end
  end.

Definition run {St} (visit : NodeId → M St unit)
    (nodes : NodeId → Node St) (flow : Flow) (fuel : nat)
    : M St (option unit) :=
  _orchestrate visit nodes (successors flow) fuel (start flow).

End PocketFlow.

(* ===================================================================== *)
(** * The query workflow ([pocketFlowRAG.ts]) *)
(* ===================================================================== *)

Record Intent := { type : string; confidence : float }.

Record QueryResult := { document : StoredDocument; similarity : float }.

(** The query side of the vector store ([customVectorStore.ts]). *)
Module CustomVectorStoreSearch.
Import CustomVectorStore.

Section Search.
(** The remote embedding call, and [Array.prototype.sort]: for a
    comparator that is not a consistent order (a similarity may be
    [NaN]) the language leaves the resulting order to the engine, so
    the sort is a parameter. *)
Variable embedContent : nat → string → option vector.
Variable sort : (QueryResult → QueryResult → float) →
                list QueryResult → list QueryResult.

(** One iteration of the loop of [vectorSearch], and the loop over
    the stored documents. *)
Definition score (queryEmbedding : vector)
    (embs : gmap string (option vector))
    (acc : M Store (list QueryResult)) (doc : StoredDocument)
    : M Store (list QueryResult) :=
  results ← acc;
  match embs !! id doc with
  | Some (Some docEmbedding) =>
      match cosineSimilarity queryEmbedding docEmbedding with
      | inr similarity =>
          mret (results ++ [ {| document := doc; similarity := similarity |} ])
      | inl e => Eff.throw e
      end
  | _ => mret results
  end.

Definition scoreAll (queryEmbedding : vector)
    (docs : list StoredDocument) (embs : gmap string (option vector))
    : M Store (list QueryResult) :=
  foldl (score queryEmbedding embs) (mret []) docs.

Definition vectorSearch (queryText : string) (topK : nat)
    : M Store (list QueryResult) :=
  queryEmbedding ← GeminiService.getTextEmbedding embedContent api_calls
                     set_api_calls queryText;
  docs ← Eff.gets (λ st, values (documents st));
  embs ← Eff.gets embeddings;
  results ← scoreAll queryEmbedding docs embs;
  mret (Js.slice 0 topK
          (sort (λ a b, (similarity b - similarity a)%float) results)).

Definition searchDocuments (queryText : string) (topK : nat)
    : M Store (list QueryResult) :=
  n ← Eff.gets (λ st, size (documents st));
  if n =? 0 then Eff.throw "Vector store not initialized or empty"
  else vectorSearch queryText topK.

End Search.
End CustomVectorStoreSearch.

Record EnhancedQuery := {
  original : string;
  eq_intent : Intent;
  expanded : list string
}.

(** The object written by the Metadata Enhancement stage. *)
Record Analytics := {
  qa_intent : string;
  qa_confidence : float;
  qa_expansions : nat;
  documentsFound : nat;
  topRelevance : float;
  responseLength : nat;
  timestamp : string
}.

(** [metadata] is either that object or the marker
    [{ error: true, message }] built by [query], whose [message] is
    a string or [undefined]. *)
Inductive Metadata :=
  | Enhanced (a : Analytics)
  | ErrorFlag (message : string)
  | ErrorFlagUndefined.

Record RAGSharedData := {
  query : option string;
  intent : option Intent;
  expandedQueries : option (list string);
  searchResults : option (list QueryResult);
  queryResults : option (list QueryResult);
  context : option string;
  response : option string;
  sd_metadata : option Metadata;
  error : option Thrown
}.

(** One run: the shared object, the number of calls made to the
    collaborators so far, and the stages run so far (the trace is not
    part of the program; it records the path for the statements
    below). *)
Record Run := {
  shared : RAGSharedData;
  calls : nat;
  trace : list NodeId
}.

Record QueryResponse := {
  qr_response : string;
  qr_metadata : option Metadata
}.

(** The collaborators of the workflow.  Every method takes the number
    of calls made before it and either returns ([inr]) or throws
    ([inl], with the value thrown).  [vectorSearch],
    [generateLLMFallbackResponse] and [generateResponseWithSources] are
    the members of the vector store that the adapter looks up by name;
    [None] is a member that does not exist. *)
Record Collaborators := {
  classifyQueryIntent : nat → string → Thrown + Intent;
  expandQuery : nat → string → Thrown + list string;
  generateText : nat → string → Thrown + string;
  buildPrompt : string → string → Intent → string;
  vectorSearch : option (nat → string → nat → Thrown + list QueryResult);
  generateLLMFallbackResponse : option (nat → EnhancedQuery → Thrown + string);
  generateResponseWithSources :
    option (nat → string → list QueryResult → option Intent → Thrown + string);
  now : nat → string
}.

Module PocketFlowRAG.
Import PocketFlow.

Definition set_shared (f : RAGSharedData → RAGSharedData) (r : Run) : Run :=
  {| shared := f (shared r); calls := calls r; trace := trace r |}.

Definition visit (n : NodeId) : M Run unit :=
  Eff.modify (λ r, {| shared := shared r; calls := calls r;
                      trace := trace r ++ [n] |}).

(** A call to a collaborator. *)
Definition call {A} (method : nat → Thrown + A) : M Run A :=
  n ← Eff.gets calls;
  Eff.modify (λ r, {| shared := shared r; calls := S n; trace := trace r |});;
  match method n with
  | inr a => mret a
  | inl e => Eff.throw e
  end.

Definition dquote : string := String (ascii_of_nat 34) "".
Definition nl : string := String (ascii_of_nat 10) "".

(** [x || d] on numbers: [0], [-0] and [NaN] are falsy. *)
Definition num_or (x d : float) : float :=
  if is_zero x || is_nan x then d else x.

Definition general : Intent := {| type := "general"; confidence := 0.5%float |}.

Section Workflow.
Variable W : Collaborators.

(** ** [CustomVectorStoreAdapter] *)

Definition searchDocuments (q : string) (topK : nat)
    : M Run (list QueryResult) :=
  Eff.try_catch
    (match vectorSearch W with
     | Some searchMethod => call (λ n, searchMethod n q topK)
     | None => Eff.throw "Search method not available"
     end)
    (λ _, mret []).

Definition notFoundText (q : EnhancedQuery) : string :=
  "## ⚠️ Information Not Found" +:+ nl +:+ nl +:+
  "I couldn't find specific information about " +:+ dquote +:+
  original q +:+ dquote +:+ " in the available documentation." +:+ nl +:+ nl +:+
  "**What you can try:**" +:+ nl +:+
  "- Check if your question relates to topics covered in our docs" +:+ nl +:+
  "- Rephrase your question using different keywords" +:+ nl +:+
  "- Browse the documentation categories for related topics" +:+ nl +:+ nl +:+
  "*Note: This response uses general knowledge as no specific documentation was found.*".

Definition generateLLMFallback (q : EnhancedQuery) : M Run string :=
  Eff.try_catch
    (match generateLLMFallbackResponse W with
     | Some fallbackMethod => call (λ n, fallbackMethod n q)
     | None => Eff.throw "LLM fallback method not available"
     end)
    (λ _, mret (notFoundText q)).

Definition sourcesErrorText : string :=
  "## Error generating response" +:+ nl +:+ nl +:+
  "I encountered an error while generating a response with sources. Please try again.".

Definition adapterResponseWithSources (queryText : string)
    (results : list QueryResult) (i : option Intent) : M Run string :=
  Eff.try_catch
    (match generateResponseWithSources W with
     | Some responseMethod => call (λ n, responseMethod n queryText results i)
     | None => Eff.throw "Response with sources method not available"
     end)
    (λ _, mret sourcesErrorText).

(** ** The stages *)

Definition QueryIntentNode : Node Run := {|
  maxRetries := 3;
  prep := (q ← Eff.gets (λ r, query (shared r));
           match q with
           | Some ((String _ _) as q) => mret q
           | _ => Eff.throw "Query is required"
           end);
  exec := λ q,
    Eff.try_catch (call (λ n, classifyQueryIntent W n q))
                  (λ _, mret general);
  post := λ _ execRes,
    Eff.modify (set_shared (λ s,
      {| query := query s; intent := Some execRes;
         expandedQueries := expandedQueries s;
         searchResults := searchResults s; queryResults := queryResults s;
         context := context s; response := response s;
         sd_metadata := sd_metadata s; error := error s |}));;
    mret (if String.eqb (type execRes) "troubleshooting" then "troubleshooting"
          else if String.eqb (type execRes) "example" then "example"
          else "default")
|}.

Definition QueryExpansionNode : Node Run := {|
  maxRetries := 2;
  prep := Eff.gets (λ r, default "" (query (shared r)));
  exec := λ q,
    Eff.try_catch (call (λ n, expandQuery W n q)) (λ _, mret []);
  post := λ _ execRes,
    Eff.modify (set_shared (λ s,
      {| query := query s; intent := intent s;
         expandedQueries := Some execRes;
         searchResults := searchResults s; queryResults := queryResults s;
         context := context s; response := response s;
         sd_metadata := sd_metadata s; error := error s |}));;
    mret "default"
|}.

(** [self.findIndex(p)], with [None] for [-1]. *)
Fixpoint findIndex {A} (p : A → bool) (l : list A) : option nat :=
  match l with
  | [] => None
  | x :: rest => if p x then Some 0 else S <$> findIndex p rest
  end.

Definition docId (r : QueryResult) : string := id (document r).

(** [results.filter((result, index, self) =>
      index === self.findIndex(r => r.document.id === result.document.id))] *)
Definition uniqueResults (results : list QueryResult) : list QueryResult :=
  (filter (λ '(index, result),
             findIndex (λ r, String.eqb (docId r) (docId result)) results
             = Some index)
          (imap (λ index result, (index, result)) results)).*2.

(** The loop of [VectorSearchNode.exec] over [allQueries]. *)
Definition searchAll (allQueries : list string)
    : M Run (list QueryResult) :=
  foldl (λ (acc : M Run (list QueryResult)) q,
           results ← acc;
           Eff.try_catch
             (queryResults ← searchDocuments q 5;
              mret (results ++ queryResults))
             (λ _, mret results))
        (mret []) allQueries.

Definition VectorSearchNode_exec (input : string * list string)
    : M Run (list QueryResult) :=
  let allQueries := input.1 :: input.2 in
  results ← searchAll allQueries;
  mret (take 5 (uniqueResults results)).

Definition VectorSearchNode : Node Run := {|
  maxRetries := 1;
  prep := Eff.gets (λ r, (default "" (query (shared r)),
                          default [] (expandedQueries (shared r))));
  exec := VectorSearchNode_exec;
  post := λ _ execRes,
    Eff.modify (set_shared (λ s,
      {| query := query s; intent := intent s;
         expandedQueries := expandedQueries s;
         searchResults := Some execRes; queryResults := Some execRes;
         context := context s; response := response s;
         sd_metadata := sd_metadata s; error := error s |}));;
    mret (if length execRes =? 0 then "no_results"
          else if 3 <=? length execRes then "high_confidence"
          else "low_confidence")
|}.

Definition describe (index : nat) (result : QueryResult) : string :=
  let doc := document result in
  let sec := match md_section (metadata doc) with
             | Some ((String _ _) as s) => " (" +:+ s +:+ ")"
             | _ => ""
             end in
  "Document " +:+ pretty (index + 1) +:+ ": " +:+ file_name (metadata doc)
    +:+ sec +:+ nl +:+ String.substring 0 500 (text doc) +:+ "...".

Definition ContextBuildingNode : Node Run := {|
  maxRetries := 1;
  prep := Eff.gets (λ r, default [] (searchResults (shared r)));
  exec := λ results,
    mret (match results with
          | [] => ""
          | _ => Js.join (nl +:+ nl) (imap describe results)
          end);
  post := λ _ execRes,
    Eff.modify (set_shared (λ s,
      {| query := query s; intent := intent s;
         expandedQueries := expandedQueries s;
         searchResults := searchResults s; queryResults := queryResults s;
         context := Some execRes; response := response s;
         sd_metadata := sd_metadata s; error := error s |}));;
    mret "default"
|}.

Definition set_response (text : string) : M Run unit :=
  Eff.modify (set_shared (λ s,
    {| query := query s; intent := intent s;
       expandedQueries := expandedQueries s;
       searchResults := searchResults s; queryResults := queryResults s;
       context := context s; response := Some text;
       sd_metadata := sd_metadata s; error := error s |})).

Definition ResponseGenerationNode : Node Run := {|
  maxRetries := 3;
  prep := Eff.gets (λ r, (default "" (query (shared r)),
                          default "" (context (shared r)),
                          default general (intent (shared r))));
  exec := λ '(q, ctx, i),
    if negb (Js.truthy ctx) then
      Eff.throw "No context available for response generation"
    else call (λ n, generateText W n (buildPrompt W q ctx i));
  post := λ _ execRes,
    s ← Eff.gets shared;
    match queryResults s with
    | Some ((_ :: _) as results) =>
        responseWithSources ←
          adapterResponseWithSources (default "" (query s)) results (intent s);
        set_response responseWithSources
    | _ => set_response execRes
    end;;
    mret "default"
|}.

Definition LLMFallbackNode : Node Run := {|
  maxRetries := 2;
  prep := Eff.gets (λ r, (default "" (query (shared r)),
                          default general (intent (shared r))));
  exec := λ '(q, i),
    generateLLMFallback {| original := q; eq_intent := i; expanded := [] |};
  post := λ _ execRes, set_response execRes;; mret "default"
|}.

Definition MetadataEnhancementNode : Node Run := {|
  maxRetries := 1;
  prep := Eff.gets shared;
  exec := λ input,
    stamp ← call (λ n, inr (now W n));
    mret {| qa_intent :=
              Js.or_else (default "" (type <$> intent input)) "unknown";
            qa_confidence :=
              num_or (default 0%float (confidence <$> intent input)) 0;
            qa_expansions := default 0 (length <$> expandedQueries input);
            documentsFound := default 0 (length <$> searchResults input);
            topRelevance :=
              num_or (default 0%float
                        (similarity <$> (searchResults input ≫= head))) 0;
            responseLength := default 0 (String.length <$> response input);
            timestamp := stamp |};
  post := λ _ execRes,
    Eff.modify (set_shared (λ s,
      {| query := query s; intent := intent s;
         expandedQueries := expandedQueries s;
         searchResults := searchResults s; queryResults := queryResults s;
         context := context s; response := response s;
         sd_metadata := Some (Enhanced execRes); error := error s |}));;
    mret "default"
|}.

(** The text built by [ErrorHandlingNode.exec]; [err] is the value of
    [input.error?.message]. *)
Definition systemErrorText (q : option string) (err : option string)
    : string :=
  let errorMessage :=
    Js.or_else (default "" err) "Unknown error occurred" in
  "## ⚠️ System Error" +:+ nl +:+ nl +:+
  "I encountered an issue while processing your query: " +:+ dquote +:+
  default "undefined" q +:+ dquote +:+ nl +:+ nl +:+
  "**Error Details:** " +:+ errorMessage +:+ nl +:+ nl +:+
  "**What you can try:**" +:+ nl +:+
  "- Rephrase your question using different keywords" +:+ nl +:+
  "- Check if your query is related to the available documentation" +:+ nl +:+
  "- Try a simpler, more specific question" +:+ nl +:+ nl +:+
  "If this error persists, please contact support.".

Definition ErrorHandlingNode : Node Run := {|
  maxRetries := 1;
  prep := Eff.gets (λ r, (query (shared r), error (shared r)));
  exec := λ '(q, err), mret (systemErrorText q (err ≫= optional_message));
  post := λ _ execRes, set_response execRes;; mret "default"
|}.

Definition nodes (n : NodeId) : Node Run :=
  match n with
  | intentNode => QueryIntentNode
  | expansionNode => QueryExpansionNode
  | searchNode => VectorSearchNode
  | contextNode => ContextBuildingNode
  | responseNode => ResponseGenerationNode
  | fallbackNode => LLMFallbackNode
  | metadataNode => MetadataEnhancementNode
  | errorNode => ErrorHandlingNode
  end.

(** ** [PocketFlowRAGService.buildRAGFlow] *)

Definition buildRAGFlow : Flow :=
  let g := no_successors in
  let g := next intentNode expansionNode g in
  let g := next expansionNode searchNode g in
  let g := on searchNode "no_results" fallbackNode g in
  let g := on searchNode "high_confidence" contextNode g in
  let g := on searchNode "low_confidence" contextNode g in
  let g := next contextNode responseNode g in
  let g := next responseNode metadataNode g in
  let g := next fallbackNode metadataNode g in
  let g := on intentNode "troubleshooting" expansionNode g in
  let g := on intentNode "example" expansionNode g in
  let g := on responseNode "error" errorNode g in
  let g := on fallbackNode "error" errorNode g in
  {| start := intentNode; successors := g |}.

End Workflow.

Module PocketFlowRAGService.

Record t := { ragFlow : option Flow }.

(** The constructor. *)
Definition new : t := {| ragFlow := Some buildRAGFlow |}.

Definition fresh (q : string) : RAGSharedData :=
  {| query := Some q; intent := None; expandedQueries := None;
     searchResults := None; queryResults := None; context := None;
     response := None; sd_metadata := None; error := None |}.

(** The [TypeError] of [error.message] on a value that is [undefined]
    or [null]. *)
Definition typeErrorReading (value : string) : Thrown :=
  Error ("Cannot read properties of " +:+ value +:+ " (reading 'message')").

(** The body of [query] on the run it has created; [None] is a
    walk that ran out of fuel.  The handler reads [error.message]
    after the Error Handling stage has run. *)
Definition run_query (W : Collaborators) (svc : t) (fuel : nat)
    : M Run (option QueryResponse) :=
  match ragFlow svc with
  | None => Eff.throw "RAG Flow not initialized"
  | Some flow =>
      Eff.try_catch
        (done ← run visit (nodes W) flow fuel;
         s ← Eff.gets shared;
         mret (match done with
               | None => None
               | Some _ =>
                   Some {| qr_response :=
                             Js.or_else (default "" (response s))
                                        "No response generated";
                           qr_metadata := sd_metadata s |}
               end))
        (λ e,
           Eff.modify (set_shared (λ s,
             {| query := query s; intent := intent s;
                expandedQueries := expandedQueries s;
                searchResults := searchResults s;
                queryResults := queryResults s;
                context := context s; response := response s;
                sd_metadata := sd_metadata s; error := Some e |}));;
           _run (visit errorNode) ErrorHandlingNode;;
           s ← Eff.gets shared;
           let response := Js.or_else (default "" (response s))
                                      "System error occurred" in
           match e with
           | Error message =>
               mret (Some {| qr_response := response;
                             qr_metadata := Some (ErrorFlag message) |})
           | OtherValue =>
               mret (Some {| qr_response := response;
                             qr_metadata := Some ErrorFlagUndefined |})
           | Undefined => Eff.throw (typeErrorReading "undefined")
           | Null => Eff.throw (typeErrorReading "null")
           end)
  end.

Definition start_of (q : string) (calls0 : nat) : Run :=
  {| shared := fresh q; calls := calls0; trace := [] |}.

Definition query (W : Collaborators) (svc : t) (fuel : nat) (q : string)
    (calls0 : nat) : Outcome Run (option QueryResponse) :=
  run_query W svc fuel (start_of q calls0).

End PocketFlowRAGService.

End PocketFlowRAG.

(* ===================================================================== *)
(** * Statements of the design document, and sample inputs *)
(* ===================================================================== *)

(** [⌈a / b⌉] *)
Definition ceil_div (a b : nat) : nat := (a + b - 1) / b.

(** The words of the [k]-th window. *)
Definition window_words (w step k : nat) (words : list string) : list string :=
  Js.slice (k * step) (k * step + w) words.

(** The sliding-window property as the design document words it:
    [⌈(len − overlapWords) / (windowWords − overlapWords)⌉] chunks, each
    consecutive pair sharing exactly [overlapWords] words. *)
Definition sliding_window_as_specified (base : EnhancedDocumentMetadata)
    (s : MarkdownSection) : Prop :=
  let words := Js.split_ws (DocumentProcessor.sectionContent s) in
  let step := DocumentProcessor.wordsPerChunk - DocumentProcessor.overlapWords in
  let chunks := DocumentProcessor.sectionChunks base s in
  length chunks = ceil_div (length words - DocumentProcessor.overlapWords) step
  ∧ ∀ k, S k < length chunks →
      drop step (window_words DocumentProcessor.wordsPerChunk step k words)
      = take DocumentProcessor.overlapWords
          (window_words DocumentProcessor.wordsPerChunk step (S k) words)
      ∧ length (take DocumentProcessor.overlapWords
          (window_words DocumentProcessor.wordsPerChunk step (S k) words))
        = DocumentProcessor.overlapWords.

(** The part of a string before its first [#]. *)
Definition before_hash (s : string) : string :=
  (Js.span (λ c, negb (Ascii.eqb c Js.hash)) s).1.

(** The characters [sanitizeId] can produce. *)
Definition id_char (c : ascii) : bool :=
  Js.is_lower_alnum c || Ascii.eqb c Js.dash.

Definition sectionKey (s : MarkdownSection) : string :=
  DocumentProcessor.sanitizeId (heading s).

(** The ids of the chunks of one section, as the design states them:
    [path#heading] for a section that fits in one chunk,
    [path#heading#index] for each window of an oversized one. *)
Definition sectionIds (base : EnhancedDocumentMetadata) (s : MarkdownSection)
    : list string :=
  if String.length (DocumentProcessor.sectionContent s)
     <=? DocumentProcessor.maxChunkSize
  then [file_path base +:+ "#" +:+ sectionKey s]
  else (λ index, file_path base +:+ "#" +:+ sectionKey s +:+ "#" +:+ pretty index)
         <$> seq 0 (length (DocumentProcessor.slidingWindowChunk
                              (DocumentProcessor.sectionContent s))).

(** What the ids of a section depend on besides the path: the
    sanitized heading and whether the section is cut into windows;
    [None] for a section that gives no chunk. *)
Definition idClass (s : MarkdownSection) : option (string * bool) :=
  if String.length (DocumentProcessor.sectionContent s)
     <=? DocumentProcessor.maxChunkSize
  then Some (sectionKey s, false)
  else match DocumentProcessor.slidingWindowChunk
               (DocumentProcessor.sectionContent s) with
       | [] => None
       | _ :: _ => Some (sectionKey s, true)
       end.

Definition base0 : EnhancedDocumentMetadata :=
  {| file_path := "docs/guide.md"; file_name := "guide.md";
     file_hash := "9f2c"; title := "Guide"; word_count := 0;
     heading_structure := []; md_section := None; chunk_index := None;
     chunk_type := full_document; carried := [] |}.

Definition filler (n : nat) : string := Js.join " " (replicate n "lorem77").

(** A section of 140 words and 1108 characters. *)
Definition long_section : MarkdownSection :=
  {| heading := "H"; level := 2; content := filler 138;
     startLine := 0; endLine := 139 |}.

(** A document whose two second-level sections have the same heading. *)
Definition dup_doc : string :=
  "# Guide" +:+ DocumentProcessor.nl +:+ DocumentProcessor.nl +:+
  "## Setup" +:+ DocumentProcessor.nl +:+ filler 70 +:+
  DocumentProcessor.nl +:+ DocumentProcessor.nl +:+
  "## Setup" +:+ DocumentProcessor.nl +:+ filler 70.

(** A document with a short and an oversized section of the same
    heading. *)
Definition mixed_doc : string :=
  "# Guide" +:+ DocumentProcessor.nl +:+ DocumentProcessor.nl +:+
  "## Setup" +:+ DocumentProcessor.nl +:+ filler 70 +:+
  DocumentProcessor.nl +:+ DocumentProcessor.nl +:+
  "## Setup" +:+ DocumentProcessor.nl +:+ filler 170.

Definition plain_doc : string :=
  "# Guide" +:+ DocumentProcessor.nl +:+ DocumentProcessor.nl +:+
  "## Install" +:+ DocumentProcessor.nl +:+ filler 70 +:+
  DocumentProcessor.nl +:+ DocumentProcessor.nl +:+
  "## Usage" +:+ DocumentProcessor.nl +:+ filler 170.

(** [dot(a, b)], summed from the left as the loop does. *)
Definition dot (a b : vector) : float :=
  foldl (λ acc '(x, y), (acc + x * y)%float) 0%float (zip a b).

(** One iteration of the loop of [cosineSimilarity]. *)
Definition accumulate (x y : float) (s : float * float * float)
    : float * float * float :=
  let '(d, na, nb) := s in
  ((d + x * y)%float, (na + x * x)%float, (nb + y * y)%float).

Definition pathOf (d : DocumentChunk) : string := file_path (metadata d).

(** [c] keeps the state inside [P], whether it returns or throws. *)
Definition preserves {St A} (P : St → Prop) (c : M St A) : Prop :=
  ∀ s, P s → P (Eff.state_of (c s)).

(** Every stored chunk is filed under its own id and has a non-empty
    embedding under that id. *)
Definition embedded (st : Store) : Prop :=
  ∀ i d, documents st !! i = Some d →
    id d = i ∧ ∃ v, embeddings st !! i = Some (Some v) ∧ v ≠ [].

(** Predicates that look at the two maps of the store only. *)
Definition store_only (P : Store → Prop) : Prop :=
  ∀ s s', documents s = documents s' → embeddings s = embeddings s' → P s → P s'.

(** The persisted counterpart of [embedded]. *)
Definition snapshot_embedded (d : Disk) : Prop :=
  ∃ docs embs, documentsFile d = Some docs ∧ embeddingsFile d = Some embs
    ∧ ∀ doc, doc ∈ docs → ∃ v, embs !! id doc = Some v ∧ v ≠ [].

Definition meta_of (path name hash : string) : EnhancedDocumentMetadata :=
  {| file_path := path; file_name := name; file_hash := hash;
     title := ""; word_count := 2; heading_structure := [];
     md_section := None; chunk_index := None; chunk_type := full_document;
     carried := [] |}.

Definition docA : DocumentChunk :=
  {| id := "docs/a.md"; text := "Alpha guide";
     metadata := meta_of "docs/a.md" "a.md" "aa11" |}.

Definition docB : DocumentChunk :=
  {| id := "docs/b.md"; text := "Beta guide";
     metadata := meta_of "docs/b.md" "b.md" "bb22" |}.

Definition hashes_a : gmap string string := {[ "docs/a.md" := "aa11" ]}.
Definition hashes_ab : gmap string string :=
  <[ "docs/b.md" := "bb22" ]> hashes_a.

(** A snapshot that holds [docA] only, and the store object before
    [initialize] has loaded it. *)
Definition disk_a : Disk :=
  {| documentsFile := Some [docA];
     embeddingsFile := Some {[ "docs/a.md" := [0.5; 0.25]%float ]};
     fileHashesFile := Some hashes_a |}.

Definition st_boot : Store :=
  {| documents := ∅; embeddings := ∅; disk := disk_a;
     api_calls := 0; fs_writes := 0 |}.

(** The store after both files were indexed and persisted. *)
Definition st_ab : Store :=
  {| documents := <[ "docs/b.md" := docB ]> {[ "docs/a.md" := docA ]};
     embeddings := <[ "docs/b.md" := Some [0.5; 0.5]%float ]>
                     {[ "docs/a.md" := Some [0.5; 0.25]%float ]};
     disk := {| documentsFile := Some [docA; docB];
                embeddingsFile :=
                  Some (<[ "docs/b.md" := [0.5; 0.5]%float ]>
                          {[ "docs/a.md" := [0.5; 0.25]%float ]});
                fileHashesFile := Some hashes_ab |};
     api_calls := 1; fs_writes := 3 |}.

(** The embedding service is down; it answers; every write succeeds;
    the second write of the pass fails. *)
Definition embed_down : nat → string → option vector := λ _ _, None.
Definition embed_ok : nat → string → option vector :=
  λ _ _, Some [0.5; 0.5]%float.
Definition writes_ok : nat → bool := λ _, false.
Definition second_write_fails : nat → bool := λ n, n =? 1.

(** [results] paired with their positions, and the test of the filter
    of [uniqueResults]. *)
Definition indexed (results : list QueryResult) : list (nat * QueryResult) :=
  imap (λ index result, (index, result)) results.

Definition firstOfId (results : list QueryResult) (p : nat * QueryResult)
    : Prop :=
  PocketFlowRAG.findIndex
    (λ r, String.eqb (PocketFlowRAG.docId r) (PocketFlowRAG.docId p.2)) results
  = Some p.1.

#[global] Instance firstOfId_dec results p : Decision (firstOfId results p).
Proof. unfold firstOfId. apply _. Defined.

(** What each query of [allQueries] contributed, in order: the list
    returned by the adapter, or nothing when the search threw. *)
Definition searchEach (W : Collaborators) (allQueries : list string)
    : M Run (list (list QueryResult)) :=
  foldl (λ (acc : M Run (list (list QueryResult))) q,
           perQuery ← acc;
           Eff.try_catch
             (queryResults ← PocketFlowRAG.searchDocuments W q 5;
              mret (perQuery ++ [queryResults]))
             (λ _, mret (perQuery ++ [[]])))
        (mret []) allQueries.

(** [acc] returns the concatenation of what [accL] returns. *)
Definition merges (acc : M Run (list QueryResult))
    (accL : M Run (list (list QueryResult))) (n : nat) : Prop :=
  ∀ s, ∃ pq s', accL s = Returns pq s' ∧ length pq = n
                ∧ acc s = Returns (concat pq) s'.

(** The results in order, without those whose document id occurred
    earlier in the list. *)
Fixpoint keepFirst (results : list QueryResult) : list QueryResult :=
  match results with
  | [] => []
  | r :: rest =>
      r :: filter (λ x, PocketFlowRAG.docId x ≠ PocketFlowRAG.docId r)
             (keepFirst rest)
  end.

(** What the adapter hands back for the query [q] when [n] calls were
    made before: the results of the store's search, and none when the
    search throws or the store has no such method. *)
Definition retrieved (W : Collaborators) (n : nat) (q : string)
    : list QueryResult :=
  match vectorSearch W with
  | Some searchMethod =>
      match searchMethod n q 5 with
      | inr results => results
      | inl _ => []
      end
  | None => []
  end.

Definition graph : PocketFlow.Successors :=
  PocketFlow.successors PocketFlowRAG.buildRAGFlow.

Definition with_calls (c : nat) (s : Run) : Run :=
  {| shared := shared s; calls := c; trace := trace s |}.

(** Every search of the vector store throws (or the method is missing
    altogether). *)
Definition search_fails (W : Collaborators) : Prop :=
  match vectorSearch W with
  | Some searchMethod => ∀ n q topK, ∃ e, searchMethod n q topK = inl e
  | None => True
  end.

(** The query text of the run is never overwritten. *)
Definition keeps_query (q : string) (s : Run) : Prop :=
  query (shared s) = Some q.

(** A walk that returns has gone through Metadata Enhancement. *)
Definition annotated (o : Outcome Run (option unit)) : Prop :=
  match o with
  | Returns done s =>
      done = Some tt ∧ ∃ an, sd_metadata (shared s) = Some (Enhanced an)
  | Throws _ _ => True
  end.

(** A world in which the embedding of the query cannot be obtained, so
    that every vector search throws, and in which the store has no
    fallback or sources method. *)
Definition W_search_down : Collaborators :=
  {| classifyQueryIntent :=
       λ _ _, inr {| type := "how-to"; confidence := 0.5%float |};
     expandQuery := λ _ _, inr ["deployment steps"];
     generateText := λ _ _, inr "answer";
     buildPrompt := λ q c _, q +:+ c;
     vectorSearch :=
       Some (λ _ _ _, inl (Error "Failed to get embedding from Gemini API"));
     generateLLMFallbackResponse := None;
     generateResponseWithSources := None;
     now := λ _, "2025-01-01T00:00:00.000Z" |}.

(** A world in which two queries retrieve overlapping documents. *)
Definition hit (d : DocumentChunk) (sim : float) : QueryResult :=
  {| document := d; similarity := sim |}.

Definition W_overlap : Collaborators :=
  {| classifyQueryIntent := λ _ _, inr PocketFlowRAG.general;
     expandQuery := λ _ _, inr ["alpha beta"];
     generateText := λ _ _, inr "answer";
     buildPrompt := λ q c _, q +:+ c;
     vectorSearch :=
       Some (λ _ q _, if String.eqb q "alpha"
                      then inr [hit docA 0.75; hit docB 0.5]
                      else inr [hit docB 0.875; hit docA 0.25]);
     generateLLMFallbackResponse := None;
     generateResponseWithSources := None;
     now := λ _, "2025-01-01T00:00:00.000Z" |}.

(** ** Statements about the rest of the code, and sample inputs *)

(** The level and heading of the section a line opens. *)
Definition opened (sec : MarkdownSection) : nat * string := (level sec, heading sec).

(** The state of the loop of [extractSections]: the sections closed so
    far and the section that is open, with its first line. *)
Definition step_state : Type :=
  list MarkdownSection * option (nat * nat * string).

(** The body of that loop. *)
Definition scan (lines : list string) (i : nat) (st : step_state) : step_state :=
  let '(sections, currentSection) := st in
  match DocumentProcessor.headerMatch (default "" (lines !! i)) with
  | Some (lvl, h) =>
      (match currentSection with
       | Some (start, lvl0, h0) =>
           sections ++ [DocumentProcessor.closeSection lines start lvl0 h0 i]
       | None => sections
       end,
       Some (i, lvl, h))
  | None => (sections, currentSection)
  end.

(** The levels and headings met so far. *)
Definition seen (st : step_state) : list (nat * string) :=
  (opened <$> st.1)
  ++ match st.2 with Some (_, lvl, h) => [(lvl, h)] | None => [] end.

(** No dash follows a dash; with [after_dash], none comes first. *)
Fixpoint dash_separated (after_dash : bool) (s : string) : bool :=
  match s with
  | EmptyString => true
  | String c s' =>
      if Ascii.eqb c Js.dash then negb after_dash && dash_separated true s'
      else dash_separated false s'
  end.

(** No run of line feeds brings the count of consecutive line feeds,
    [run] so far, above two. *)
Fixpoint short_runs (run : nat) (s : string) : bool :=
  match s with
  | EmptyString => true
  | String c s' =>
      if Ascii.eqb c Js.LF then (run <? 2) && short_runs (S run) s'
      else short_runs 0 s'
  end.

(** The line that closes a front-matter block. *)
Definition fence : string := DocumentProcessor.nl +:+ "---".

(** The chunk of the section [Install] of [plain_doc]. *)
Definition install_chunk : DocumentChunk :=
  {| id := "docs/guide.md#install";
     text := "# Install" +:+ DocumentProcessor.nl +:+ DocumentProcessor.nl +:+ filler 70;
     metadata := DocumentProcessor.with_chunk base0 (Some "Install") None subsection |}.

(** The six categories of the classifier. *)
Definition categories : list string :=
  ["how-to"; "concept"; "reference"; "troubleshooting"; "example"; "general"].

(** The inherited members that a lower-case key can name. *)
Definition inheritedKeys : list string := ["constructor"; "__proto__"].

(** The text [getTextEmbedding] sends for [text]. *)
Definition truncatedText (text : string) : string :=
  if GeminiService.maxLength <? String.length text
  then String.substring 0 GeminiService.maxLength text +:+ "..." else text.

(** The vectors the service returns for [texts], the first of them
    being asked in the [n]-th call; a text whose call fails
    contributes nothing. *)
Fixpoint answers (embedContent : nat → string → option vector)
    (n : nat) (texts : list string) : list vector :=
  match texts with
  | [] => []
  | text :: rest =>
      match embedContent n (truncatedText text) with
      | Some values => [values]
      | None => []
      end ++ answers embedContent (S n) rest
  end.

(** The file has a non-empty fingerprint in the stored table. *)
Definition tracked (stored : gmap string string) (filePath : string) : Prop :=
  ∃ h, h ≠ "" ∧ stored !! filePath = Some h.

(** The file has the same non-empty fingerprint in both tables. *)
Definition unchanged (stored current : gmap string string)
    (filePath : string) : Prop :=
  ∃ h, h ≠ "" ∧ stored !! filePath = Some h ∧ current !! filePath = Some h.

(** Every chunk is filed under its own id. *)
Definition keyed (docs : gmap string StoredDocument) : Prop :=
  map_Forall (λ i d, id d = i) docs.

(** No key of the embeddings has the value [undefined]. *)
Definition defined (embs : gmap string (option vector)) : Prop :=
  map_Forall (λ _ e, e ≠ None) embs.

(** A number that is read back from a file as it was written: it is
    finite and it is not [-0]. *)
Definition exactNumber (x : float) : bool :=
  is_finite x && negb (is_zero x && get_sign x).

(** Every coordinate of every embedding is such a number. *)
Definition jsonExact (embs : gmap string (option vector)) : Prop :=
  map_Forall (λ _ e, forallb exactNumber (default [] e) = true) embs.

(** Every stored chunk belongs to one of the files of [scan]. *)
Definition within (scan : list DocumentChunk) (st : Store) : Prop :=
  ∀ i d, documents st !! i = Some d → pathOf d ∈ pathOf <$> scan.

(** The embedding service answers every call with a non-empty vector. *)
Definition answering (embedContent : nat → string → option vector) : Prop :=
  ∀ n text, ∃ v, embedContent n text = Some v ∧ v ≠ [].

(** A stored chunk whose embedding has not the dimension of [v]. *)
Definition mismatched (st : Store) (v : vector) : Prop :=
  ∃ k d e, documents st !! k = Some d
           ∧ embeddings st !! id d = Some (Some e)
           ∧ length e ≠ length v.

(** The engine's sort returns its input in some order. *)
Definition permutes
    (sort : (QueryResult → QueryResult → float) →
            list QueryResult → list QueryResult) : Prop :=
  ∀ cmp l, sort cmp l ≡ₚ l.

(** A store that holds [docA] with an embedding of dimension 2, and a
    service that answers with vectors of dimension 3. *)
Definition st_a : Store :=
  {| documents := {[ "docs/a.md" := docA ]};
     embeddings := {[ "docs/a.md" := Some [0.5; 0.25]%float ]};
     disk := disk_a; api_calls := 0; fs_writes := 0 |}.

Definition embed3 : nat → string → option vector :=
  λ _ _, Some [0.5; 0.5; 0.5]%float.

(** The shared object and the trace are [sh] and [t]. *)
Definition framed (sh : RAGSharedData) (t : list NodeId) (r : Run) : Prop :=
  shared r = sh ∧ trace r = t.

(** The three paths of a run. *)
Definition fallbackPath : list NodeId :=
  [intentNode; expansionNode; searchNode; fallbackNode; metadataNode].
Definition groundedPath : list NodeId :=
  [intentNode; expansionNode; searchNode; contextNode; responseNode;
   metadataNode].
Definition failedPath : list NodeId :=
  [intentNode; expansionNode; searchNode; contextNode; responseNode;
   errorNode].

(** The same collaborators with another text generator. *)
Definition with_generateText (g : nat → string → Thrown + string)
    (W : Collaborators) : Collaborators :=
  {| classifyQueryIntent := classifyQueryIntent W;
     expandQuery := expandQuery W;
     generateText := g;
     buildPrompt := buildPrompt W;
     vectorSearch := vectorSearch W;
     generateLLMFallbackResponse := generateLLMFallbackResponse W;
     generateResponseWithSources := generateResponseWithSources W;
     now := now W |}.

(** A world in which the search finds [docA] and every text generation
    rejects with [undefined]. *)
Definition W_rejects_undefined : Collaborators :=
  {| classifyQueryIntent := λ _ _, inr PocketFlowRAG.general;
     expandQuery := λ _ _, inr [];
     generateText := λ _ _, inl Undefined;
     buildPrompt := λ q c _, q +:+ c;
     vectorSearch := Some (λ _ _ _, inr [hit docA 0.75]);
     generateLLMFallbackResponse := None;
     generateResponseWithSources := None;
     now := λ _, "2025-01-01T00:00:00.000Z" |}.

(** The run after the handler of [query] has caught [e]: the value is
    recorded, and the Error Handling stage has run and stored its
    text. *)
Definition handled (e : Thrown) (s : Run) : Run :=
  {| shared :=
       {| query := query (shared s); intent := intent (shared s);
          expandedQueries := expandedQueries (shared s);
          searchResults := searchResults (shared s);
          queryResults := queryResults (shared s);
          context := context (shared s);
          response :=
            Some (PocketFlowRAG.systemErrorText (query (shared s))
                    (optional_message e));
          sd_metadata := sd_metadata (shared s); error := Some e |};
     calls := calls s; trace := trace s ++ [errorNode] |}.

(** A run that has retrieved [docA] and built its context. *)
Definition grounded_run : Run :=
  {| shared :=
       {| query := Some "alpha"; intent := None; expandedQueries := Some [];
          searchResults := Some [hit docA 0.75];
          queryResults := Some [hit docA 0.75];
          context := Some "Document 1"; response := None;
          sd_metadata := None; error := None |};
     calls := 3; trace := [] |}.

(* ===================================================================== *)
(** * Properties *)
(* ===================================================================== *)

Section Loops.
Context {St : Type}.

Lemma ceil_div_0 b : 0 < b → ceil_div 0 b = 0.
Proof. intros Hb. unfold ceil_div. apply Nat.div_small. lia. Qed.

Lemma ceil_div_step a b : 0 < b → 0 < a → ceil_div a b = S (ceil_div (a - b) b).
Proof.
  intros Hb Ha. unfold ceil_div.
  destruct (decide (b ≤ a)) as [Hle|Hlt].
  - replace (a + b - 1) with ((a - b + b - 1) + 1 * b) by lia.
    rewrite Nat.div_add by lia. lia.
  - replace (a - b) with 0 by lia. rewrite (Nat.div_small (0 + b - 1)) by lia.
    symmetry. apply (Nat.div_unique _ _ 1 (a - 1)); lia.
Qed.

Lemma ceil_div_spec a b : 0 < b → a ≤ ceil_div a b * b ∧ ceil_div a b * b < a + b.
Proof.
  intros Hb. unfold ceil_div.
  pose proof (Nat.div_mod (a + b - 1) b ltac:(lia)) as H.
  pose proof (Nat.mod_upper_bound (a + b - 1) b ltac:(lia)) as H'.
  nia.
Qed.

Lemma foldl_ext {B} (f g : St → B → St) (l : list B) (s : St) :
  (∀ s' x, f s' x = g s' x) → foldl f s l = foldl g s l.
Proof. intros E. revert s. induction l as [|x l IH]; intros s; simpl; [done|]. by rewrite E, IH. Qed.

Lemma for_step_unroll (body : nat → St → St) step n :
  0 < step → ∀ fuel i s, n - i ≤ fuel →
  Js.for_step fuel i n step body s
  = foldl (λ s k, body (i + k * step) s) s (seq 0 (ceil_div (n - i) step)).
Proof.
  intros Hstep. induction fuel as [|fuel IH]; intros i s Hfuel; simpl.
  - replace (n - i) with 0 by lia. by rewrite ceil_div_0.
  - destruct (Nat.ltb_spec i n) as [Hlt|Hge].
    + rewrite IH by lia.
      rewrite (ceil_div_step (n - i)) by lia.
      rewrite <- cons_seq, <- fmap_S_seq. simpl.
      rewrite foldl_fmap. replace (i + 0) with i by lia.
      replace (n - i - step) with (n - (i + step)) by lia.
      apply foldl_ext. intros s' k. f_equal. lia.
    + replace (n - i) with 0 by lia. by rewrite ceil_div_0.
Qed.
End Loops.

Section Windows.
Import DocumentProcessor.

Lemma foldl_snoc_fmap {A B} (g : B → A) (l : list B) (acc : list A) :
  foldl (λ acc k, acc ++ [g k]) acc l = acc ++ (g <$> l).
Proof.
  revert acc. induction l as [|x l IH]; intros acc; simpl.
  - by rewrite app_nil_r.
  - rewrite IH. by rewrite <- app_assoc.
Qed.


Lemma windows_unroll w step words : 0 < step →
  windows w step words
  = (λ k, Js.join " " (window_words w step k words))
      <$> seq 0 (ceil_div (length words) step).
Proof.
  intros Hstep. unfold windows.
  rewrite for_step_unroll by lia.
  rewrite Nat.sub_0_r.
  rewrite (foldl_ext _ (λ acc k, acc ++ [Js.join " " (window_words w step k words)])).
  - by rewrite foldl_snoc_fmap.
  - intros s' k. unfold window_words. simpl. done.
Qed.

Lemma window_words_take w step k (words : list string) :
  window_words w step k words = take w (drop (k * step) words).
Proof. unfold window_words, Js.slice. f_equal. lia. Qed.

Lemma window_overlap w step k (words : list string) :
  step ≤ w →
  let shared := (w - step) `min` (length words - S k * step) in
  drop step (window_words w step k words)
  = take shared (window_words w step (S k) words)
  ∧ length (take shared (window_words w step (S k) words)) = shared.
Proof.
  intros Hle shared. rewrite !window_words_take.
  rewrite skipn_firstn_comm, drop_drop.
  replace (k * step + step) with (S k * step) by lia.
  rewrite take_take.
  split.
  - assert (length (drop (S k * step) words) = length words - S k * step) as Hlen
      by apply length_drop.
    unfold shared.
    destruct (decide (w - step ≤ length words - S k * step)).
    + rewrite Nat.min_l by lia. f_equal. lia.
    + rewrite (take_ge _ (w - step)) by lia.
      rewrite take_ge; [done|]. lia.
  - rewrite length_take, length_drop. unfold shared. lia.
Qed.
End Windows.

Section ChunkerFacts.
Import DocumentProcessor.

Lemma fmap_imap_const {A B C} (f : B → C) (g : nat → A → B) (h : nat → C) (l : list A) :
  (∀ i x, f (g i x) = h i) → ∀ n,
  f <$> imap (λ i, g (n + i)) l = h <$> seq n (length l).
Proof.
  intros E. induction l as [|x l IH]; intros n; [done|].
  rewrite imap_cons, fmap_cons, E. cbn [length]. rewrite <- cons_seq, fmap_cons.
  f_equal; [f_equal; lia|].
  rewrite <- (IH (S n)). f_equal. apply imap_ext. intros i y _. simpl. f_equal. lia.
Qed.

Lemma fmap_imap_proj {A B} (f : B → A) (g : nat → A → B) (l : list A) :
  (∀ i x, f (g i x) = x) → f <$> imap g l = l.
Proof.
  intros E. revert g E. induction l as [|x l IH]; intros g E; [done|]. simpl.
  rewrite E. f_equal. apply IH. intros i y. apply E.
Qed.

Lemma section_texts base s :
  maxChunkSize < String.length (sectionContent s) →
  text <$> sectionChunks base s = slidingWindowChunk (sectionContent s).
Proof.
  intros Hbig. unfold sectionChunks.
  destruct (Nat.leb_spec (String.length (sectionContent s)) maxChunkSize); [lia|].
  by apply fmap_imap_proj.
Qed.

Lemma step_positive : 0 < wordsPerChunk - overlapWords.
Proof. vm_compute. lia. Qed.

Lemma overlap_is_difference : wordsPerChunk - (wordsPerChunk - overlapWords) = overlapWords.
Proof. reflexivity. Qed.

(** C6, as the code has it: a section whose content exceeds the size threshold
    is cut into exactly [⌈len / (windowWords − overlapWords)⌉] windows,
    [len] being its number of white-space separated words; window [k]
    holds the words from position [k · 133] up to [k · 133 + 166]; and
    the last [min(overlapWords, len − (k+1) · 133)] words of window [k]
    are the first words of window [k + 1], which is the configured
    overlap of 33 words unless fewer words remain. *)
Theorem sliding_window_chunks (base : EnhancedDocumentMetadata) (s : MarkdownSection) :
  maxChunkSize < String.length (sectionContent s) →
  let words := Js.split_ws (sectionContent s) in
  let step := wordsPerChunk - overlapWords in
  let count := ceil_div (length words) step in
  text <$> sectionChunks base s
    = (λ k, Js.join " " (window_words wordsPerChunk step k words)) <$> seq 0 count
  ∧ length (sectionChunks base s) = count
  ∧ ∀ k, S k < count →
      let shared := overlapWords `min` (length words - S k * step) in
      0 < shared
      ∧ drop step (window_words wordsPerChunk step k words)
        = take shared (window_words wordsPerChunk step (S k) words)
      ∧ length (take shared (window_words wordsPerChunk step (S k) words)) = shared.
Proof.
  intros Hbig words step count.
  pose proof step_positive as Hstep.
  assert (text <$> sectionChunks base s
          = (λ k, Js.join " " (window_words wordsPerChunk step k words)) <$> seq 0 count) as Htexts.
  { rewrite section_texts by done. unfold slidingWindowChunk.
    by rewrite windows_unroll. }
  split; [done|]. split.
  - rewrite <- (length_fmap text), Htexts, length_fmap. apply length_seq.
  - intros k Hk shared.
    destruct (ceil_div_spec (length words) step Hstep) as [_ Hup].
    fold count in Hup.
    assert (S k * step < length words) as Hlt by nia.
    destruct (window_overlap wordsPerChunk step k words
                ltac:(unfold step; lia)) as [Hdrop Hlen].
    replace (wordsPerChunk - step) with overlapWords in Hdrop, Hlen
      by reflexivity.
    split; [|done].
    unfold shared. assert (0 < overlapWords) by (vm_compute; lia). lia.
Qed.
End ChunkerFacts.


Section ChunkerExamples.
Import DocumentProcessor.

Lemma long_section_exceeds : maxChunkSize < String.length (sectionContent long_section).
Proof. apply Nat.ltb_lt. vm_compute. reflexivity. Qed.

(** C6, counterexample: for a section of 140 words the loop yields two
    windows, the second of 7 words, where the formula of the design
    document, [⌈(140 − 33) / 133⌉], gives one. *)
Lemma sliding_window_spec_fails :
  maxChunkSize < String.length (sectionContent long_section)
  ∧ ¬ sliding_window_as_specified base0 long_section.
Proof.
  split; [apply long_section_exceeds|].
  intros [Hcount _]. vm_compute in Hcount. discriminate.
Qed.

(** C6, witness: the theorem applied to the 140-word section. *)
Lemma sliding_window_chunks_witness :
  maxChunkSize < String.length (sectionContent long_section)
  ∧ length (sectionChunks base0 long_section) = 2.
Proof.
  split.
  - apply Nat.ltb_lt. vm_compute. reflexivity.
  - destruct (sliding_window_chunks base0 long_section) as (_ & Hlen & _).
    + apply Nat.ltb_lt. vm_compute. reflexivity.
    + rewrite Hlen. vm_compute. reflexivity.
Defined.

Example long_section_last_window :
  length (Js.split_ws (sectionContent long_section)) = 140
  ∧ length (window_words wordsPerChunk (wordsPerChunk - overlapWords) 1
              (Js.split_ws (sectionContent long_section))) = 7.
Proof. split; vm_compute; reflexivity. Qed.

(** C7, as the code has it: a document whose processed content is empty yields
    exactly one chunk, of kind [full_document], whose id is the file
    path and whose text is empty. *)
Theorem empty_document_one_chunk (base : EnhancedDocumentMetadata) :
  chunkDocument "" base
  = [ {| id := file_path base; text := "";
         metadata := with_chunk base (md_section base) (chunk_index base)
                       full_document |} ].
Proof. reflexivity. Qed.

(** C7, counterexample: the chunks of the empty document are not the
    empty sequence. *)
Lemma empty_document_not_zero_chunks : chunkDocument "" base0 ≠ [].
Proof. vm_compute. discriminate. Qed.
End ChunkerExamples.

Section StringFacts.
Local Arguments Ascii.eqb : simpl never.
Local Arguments Js.is_lower_alnum : simpl never.
Local Arguments Js.hash : simpl never.
Local Arguments Js.dash : simpl never.

Lemma append_inj_l (p a b : string) : p +:+ a = p +:+ b → a = b.
Proof. induction p as [|c p IH]; simpl; intros H; [done|]. injection H. auto. Qed.


Lemma before_hash_fresh (k : string) :
  Js.occurs Js.hash k = false → before_hash k = k.
Proof.
  unfold before_hash. induction k as [|c k IH]; simpl; [done|].
  intros H. apply orb_false_iff in H as [Hc Hk].
  rewrite Ascii.eqb_sym, Hc. simpl.
  specialize (IH Hk). destruct (Js.span _ k) as [a b]. simpl in *. by rewrite IH.
Qed.

Lemma before_hash_app (k r : string) :
  Js.occurs Js.hash k = false → before_hash (k +:+ String Js.hash r) = k.
Proof.
  unfold before_hash. induction k as [|c k IH]; simpl.
  - done.
  - intros H. apply orb_false_iff in H as [Hc Hk].
    rewrite Ascii.eqb_sym, Hc. simpl.
    specialize (IH Hk). destruct (Js.span _ (k +:+ _)) as [a b]. simpl in *.
    by rewrite IH.
Qed.


Lemma id_char_not_hash c : id_char c = true → Ascii.eqb Js.hash c = false.
Proof.
  intros H. destruct (Ascii.eqb_spec Js.hash c) as [<-|]; [|done].
  vm_compute in H. discriminate.
Qed.

Lemma all_id_chars_no_hash s :
  Js.all_chars id_char s = true → Js.occurs Js.hash s = false.
Proof.
  induction s as [|c s IH]; simpl; [done|].
  intros H. apply andb_true_iff in H as [Hc Hs].
  by rewrite (id_char_not_hash c Hc), IH.
Qed.

Lemma dash_runs_id_chars b s : Js.all_chars id_char (Js.dash_runs b s) = true.
Proof.
  revert b. induction s as [|c s IH]; intros b; simpl; [done|].
  destruct (Js.is_lower_alnum c) eqn:Hc; simpl.
  - unfold id_char at 1. rewrite Hc. simpl. apply IH.
  - destruct b; simpl; [apply IH|]. rewrite IH. done.
Qed.

Lemma strip_lead_id_chars s :
  Js.all_chars id_char s = true → Js.all_chars id_char (Js.strip_lead s) = true.
Proof.
  destruct s as [|c s]; simpl; [done|].
  intros H. destruct (Ascii.eqb c Js.dash); [|done].
  by apply andb_true_iff in H as [_ ?].
Qed.

Lemma strip_trail_id_chars s :
  Js.all_chars id_char s = true → Js.all_chars id_char (Js.strip_trail s) = true.
Proof.
  induction s as [|c s IH]; [done|].
  intros H. simpl in H. apply andb_true_iff in H as [Hc Hs].
  destruct s as [|d s].
  - simpl. destruct (Ascii.eqb c Js.dash); simpl; [done|]. by rewrite Hc.
  - change (Js.strip_trail (String c (String d s)))
      with (String c (Js.strip_trail (String d s))).
    simpl Js.all_chars at 1. rewrite Hc. simpl. by apply IH.
Qed.

Lemma sanitizeId_no_hash t :
  Js.occurs Js.hash (DocumentProcessor.sanitizeId t) = false.
Proof.
  apply all_id_chars_no_hash. unfold DocumentProcessor.sanitizeId.
  apply strip_trail_id_chars, strip_lead_id_chars, dash_runs_id_chars.
Qed.
End StringFacts.

Section ChunkIds.
Import DocumentProcessor.
Local Arguments String.append : simpl never.


Lemma window_ids base s (l : list string) :
  id <$> imap (λ index chunk,
           {| id := file_path base +:+ "#" +:+ sanitizeId (heading s)
                      +:+ "#" +:+ pretty index;
              text := chunk;
              metadata := with_chunk base (Some (heading s)) (Some index)
                            subsection |}) l
  = (λ i, file_path base +:+ "#" +:+ sectionKey s +:+ "#" +:+ pretty i)
      <$> seq 0 (length l).
Proof.
  apply (fmap_imap_const id
           (λ index (chunk : string),
              {| id := file_path base +:+ "#" +:+ sanitizeId (heading s)
                         +:+ "#" +:+ pretty index;
                 text := chunk;
                 metadata := with_chunk base (Some (heading s)) (Some index)
                               subsection |})
           (λ i, file_path base +:+ "#" +:+ sectionKey s +:+ "#" +:+ pretty i)
           l (λ _ _, eq_refl) 0).
Qed.

Lemma section_ids_shape base s x :
  x ∈ id <$> sectionChunks base s →
  x = file_path base +:+ "#" +:+ sectionKey s
  ∨ ∃ i : nat, x = file_path base +:+ "#" +:+ sectionKey s +:+ "#" +:+ pretty i.
Proof.
  unfold sectionChunks.
  destruct (String.length (sectionContent s) <=? maxChunkSize).
  - rewrite fmap_cons. intros ->%list_elem_of_singleton. by left.
  - intros Hin. right.
    rewrite window_ids in Hin.
    apply list_elem_of_fmap in Hin as (i & -> & _). by exists i.
Qed.

Lemma section_ids_key base s s' x :
  x ∈ id <$> sectionChunks base s → x ∈ id <$> sectionChunks base s' →
  sectionKey s = sectionKey s'.
Proof.
  intros Hs Hs'.
  pose proof (sanitizeId_no_hash (heading s)) as Hk.
  pose proof (sanitizeId_no_hash (heading s')) as Hk'.
  fold (sectionKey s) in Hk. fold (sectionKey s') in Hk'.
  apply section_ids_shape in Hs as [->|[i ->]];
    apply section_ids_shape in Hs' as [E|[j E]];
    do 2 apply append_inj_l in E;
    apply (f_equal before_hash) in E;
    change ("#" +:+ ?r) with (String Js.hash r) in E;
    rewrite ?before_hash_app, ?before_hash_fresh in E by done; done.
Qed.

Lemma section_ids_NoDup base s : NoDup (id <$> sectionChunks base s).
Proof.
  unfold sectionChunks.
  destruct (String.length (sectionContent s) <=? maxChunkSize).
  - apply NoDup_singleton.
  - rewrite window_ids.
    apply NoDup_fmap_2_strong; [|apply NoDup_seq].
    intros i j _ _ E. do 4 apply append_inj_l in E. by apply (inj pretty).
Qed.

Lemma sectionChunks_ids base s :
  id <$> sectionChunks base s = sectionIds base s.
Proof.
  unfold sectionChunks, sectionIds.
  destruct (String.length (sectionContent s) <=? maxChunkSize); [done|].
  apply window_ids.
Qed.

Lemma key_not_windowed (k k' r : string) :
  Js.occurs Js.hash k = false → Js.occurs Js.hash k' = false →
  k ≠ k' +:+ "#" +:+ r.
Proof.
  intros Hk Hk' E.
  pose proof (f_equal before_hash E) as E'.
  change ("#" +:+ r) with (String Js.hash r) in E'.
  rewrite before_hash_app in E' by done.
  rewrite before_hash_fresh in E'; [|done].
  subst k'. clear Hk'. induction k as [|c k IH]; [done|].
  change (String c k +:+ "#" +:+ r) with (String c (k +:+ "#" +:+ r)) in E.
  injection E as E. apply IH; [|done].
  cbn [Js.occurs] in Hk. by apply orb_false_elim in Hk as [_ Hk].
Qed.

Lemma sectionIds_nil base s : sectionIds base s = [] ↔ idClass s = None.
Proof.
  unfold sectionIds, idClass.
  destruct (String.length (sectionContent s) <=? maxChunkSize); [done|].
  destruct (slidingWindowChunk (sectionContent s)); [done|].
  cbn [length seq fmap list_fmap]. done.
Qed.

Lemma sectionIds_meet base s s' t :
  idClass s = Some t →
  (∃ x, x ∈ sectionIds base s ∧ x ∈ sectionIds base s') ↔ idClass s' = Some t.
Proof.
  pose proof (sanitizeId_no_hash (heading s)) as Hk.
  pose proof (sanitizeId_no_hash (heading s')) as Hk'.
  fold (sectionKey s) in Hk. fold (sectionKey s') in Hk'.
  unfold sectionIds, idClass.
  destruct (String.length (sectionContent s) <=? maxChunkSize);
    destruct (String.length (sectionContent s') <=? maxChunkSize).
  - intros [= <-]. split.
    + intros (x & ->%list_elem_of_singleton & E%list_elem_of_singleton).
      do 2 apply append_inj_l in E. by rewrite E.
    + intros [= ->]. eexists. split; apply list_elem_of_singleton; reflexivity.
  - intros [= <-]. split.
    + intros (x & ->%list_elem_of_singleton & (i & E & _)%list_elem_of_fmap).
      do 2 apply append_inj_l in E. by apply key_not_windowed in E.
    + by destruct (slidingWindowChunk (sectionContent s')).
  - destruct (slidingWindowChunk (sectionContent s)) as [|w ws]; [done|].
    intros [= <-]. split; [|done].
    intros (x & (i & -> & _)%list_elem_of_fmap & E%list_elem_of_singleton).
    do 2 apply append_inj_l in E. symmetry in E. by apply key_not_windowed in E.
  - destruct (slidingWindowChunk (sectionContent s)) as [|w ws]; [done|].
    intros [= <-]. split.
    + intros (x & (i & -> & _)%list_elem_of_fmap & (j & E & Hj)%list_elem_of_fmap).
      do 2 apply append_inj_l in E.
      apply (f_equal before_hash) in E.
      change ("#" +:+ ?r) with (String Js.hash r) in E.
      rewrite !before_hash_app in E by done.
      destruct (slidingWindowChunk (sectionContent s')) as [|w' ws'].
      * by apply elem_of_nil in Hj.
      * by rewrite E.
    + destruct (slidingWindowChunk (sectionContent s')) as [|w' ws']; [done|].
      intros [= ->]. eexists. cbn [length seq fmap list_fmap].
      split; left.
Qed.

Lemma sectionIds_NoDup base s : NoDup (sectionIds base s).
Proof. rewrite <- sectionChunks_ids. apply section_ids_NoDup. Qed.

Lemma flat_map_ids base sections :
  id <$> flat_map (sectionChunks base) sections
  = flat_map (sectionIds base) sections.
Proof.
  induction sections as [|s rest IH]; [done|].
  cbn [flat_map]. by rewrite fmap_app, IH, sectionChunks_ids.
Qed.

Lemma sectionIds_NoDup_iff base sections :
  NoDup (flat_map (sectionIds base) sections) ↔ NoDup (omap idClass sections).
Proof.
  induction sections as [|s rest IH].
  { cbn. split; intros _; apply NoDup_nil_2. }
  cbn [flat_map omap list_omap]. rewrite NoDup_app.
  destruct (idClass s) as [t|] eqn:Ht.
  - rewrite NoDup_cons, <- IH.
    assert ((∀ x, x ∈ sectionIds base s → x ∉ flat_map (sectionIds base) rest)
            ↔ t ∉ omap idClass rest) as ->.
    { split.
      - intros H (s' & Hs' & Ht')%list_elem_of_omap.
        apply (sectionIds_meet base s s' t Ht) in Ht' as (x & Hx & Hx').
        apply (H x Hx). apply list_elem_of_In, in_flat_map.
        exists s'. split; by apply list_elem_of_In.
      - intros H x Hx (s' & Hs' & Hx')%list_elem_of_In%in_flat_map.
        apply H. apply list_elem_of_omap. exists s'.
        split; [by apply list_elem_of_In|].
        apply (sectionIds_meet base s s' t Ht). exists x.
        split; [done|by apply list_elem_of_In]. }
    pose proof (sectionIds_NoDup base s). tauto.
  - apply (sectionIds_nil base) in Ht. rewrite Ht, <- IH.
    split; [tauto|]. intros H. split; [apply NoDup_nil_2|].
    split; [|done]. by intros x ?%elem_of_nil.
Qed.

(** C8, as the code has it: chunk ids are [path#heading], or
    [path#heading#window] for the windows of an oversized section,
    [heading] being the sanitized heading text; no sequence index tells
    apart two sections with the same heading.  The ids produced for
    one document are pairwise distinct whenever the sanitized headings
    of its sections are.  For a document over the size threshold they
    are pairwise distinct exactly when no two sections that give
    chunks have the same sanitized heading and are both within the
    threshold or both cut into windows. *)
Theorem chunk_ids_distinct (content : string) (sections : list MarkdownSection)
    (base : EnhancedDocumentMetadata) :
  (NoDup (sectionKey <$> sections) →
   NoDup (id <$> createChunks content sections base))
  ∧ (maxChunkSize < String.length content →
     id <$> createChunks content sections base
     = flat_map (sectionIds base) sections
     ∧ (NoDup (id <$> createChunks content sections base)
        ↔ NoDup (omap idClass sections))).
Proof.
  split.
  - unfold createChunks.
    destruct (String.length content <=? maxChunkSize); [intros _; apply NoDup_singleton|].
    induction sections as [|s rest IH]; [intros _; apply NoDup_nil_2|].
    rewrite fmap_cons. intros [Hfresh Hrest]%NoDup_cons.
    cbn [flat_map]. rewrite fmap_app. apply NoDup_app. split; [apply section_ids_NoDup|].
    split; [|by apply IH].
    intros x Hx Hx'. apply Hfresh.
    apply list_elem_of_fmap in Hx' as (c & -> & Hc).
    apply list_elem_of_In, in_flat_map in Hc as (s' & Hs' & Hc).
    apply list_elem_of_fmap. exists s'. split; [|by apply list_elem_of_In].
    apply (section_ids_key base s s' (id c)); [done|].
    apply list_elem_of_fmap. exists c. split; [done|by apply list_elem_of_In].
  - intros Hlong. unfold createChunks.
    apply Nat.leb_gt in Hlong. rewrite Hlong.
    rewrite flat_map_ids. split; [done|]. apply sectionIds_NoDup_iff.
Qed.
End ChunkIds.


Section ChunkIdExamples.
Import DocumentProcessor.

(** C8, counterexample: the two [Setup] sections of [dup_doc] get the
    same chunk id. *)
Lemma duplicate_headings_share_id :
  maxChunkSize < String.length dup_doc
  ∧ heading <$> extractSections dup_doc = ["Guide"; "Setup"; "Setup"]
  ∧ ¬ NoDup (id <$> chunkDocument dup_doc base0).
Proof.
  split; [apply Nat.ltb_lt; vm_compute; reflexivity|].
  split; [vm_compute; reflexivity|].
  assert (id <$> chunkDocument dup_doc base0
          = ["docs/guide.md#guide"; "docs/guide.md#setup"; "docs/guide.md#setup"]) as ->
    by (vm_compute; reflexivity).
  intros H. apply NoDup_cons in H as [_ H]. apply NoDup_cons in H as [Hn _].
  apply Hn. left.
Qed.

(** C8, witness: the theorem applied to [plain_doc]. *)
Lemma chunk_ids_distinct_witness :
  NoDup (sectionKey <$> extractSections plain_doc)
  ∧ NoDup (id <$> chunkDocument plain_doc base0).
Proof.
  assert (NoDup (sectionKey <$> extractSections plain_doc)) as H.
  { apply (bool_decide_unpack _). vm_compute. exact I. }
  split; [exact H|].
  exact (proj1 (chunk_ids_distinct plain_doc (extractSections plain_doc) base0)
           H).
Defined.

(** A short and an oversized section of the same heading do not
    collide. *)
Example mixed_doc_ids :
  id <$> chunkDocument mixed_doc base0
  = ["docs/guide.md#guide"; "docs/guide.md#setup";
     "docs/guide.md#setup#0"; "docs/guide.md#setup#1"]
  ∧ omap idClass (extractSections mixed_doc)
    = [("guide", false); ("setup", false); ("setup", true)].
Proof. split; vm_compute; reflexivity. Qed.

Example plain_doc_ids :
  id <$> chunkDocument plain_doc base0
  = ["docs/guide.md#guide"; "docs/guide.md#install";
     "docs/guide.md#usage#0"; "docs/guide.md#usage#1"].
Proof. vm_compute. reflexivity. Qed.
End ChunkIdExamples.

Section Cosine.
Import CustomVectorStore.

Lemma ceil_div_1 n : ceil_div n 1 = n.
Proof. unfold ceil_div. rewrite Nat.div_1_r. lia. Qed.


Lemma foldl_coords (a b : vector) :
  length a = length b → ∀ s,
  foldl (λ s k, accumulate (coord a k) (coord b k) s) s (seq 0 (length a))
  = foldl (λ s '(x, y), accumulate x y s) s (zip a b).
Proof.
  revert b. induction a as [|x a IH]; intros [|y b] Hlen s; try done.
  cbn [length]. rewrite <- cons_seq, <- fmap_S_seq. cbn [foldl zip zip_with].
  rewrite foldl_fmap. injection Hlen as Hlen.
  rewrite <- (IH b Hlen). done.
Qed.

Lemma foldl_accumulate (a b : vector) :
  length a = length b → ∀ d na nb,
  foldl (λ s '(x, y), accumulate x y s) (d, na, nb) (zip a b)
  = (foldl (λ acc '(x, y), (acc + x * y)%float) d (zip a b),
     foldl (λ acc '(x, y), (acc + x * y)%float) na (zip a a),
     foldl (λ acc '(x, y), (acc + x * y)%float) nb (zip b b)).
Proof.
  revert b. induction a as [|x a IH]; intros [|y b] Hlen d na nb; try done.
  injection Hlen as Hlen. cbn. by rewrite IH.
Qed.

(** For vectors of equal length the value computed is
    [dot(a,b) / (sqrt(dot(a,a)) * sqrt(dot(b,b)))] in binary64
    arithmetic. *)
Lemma cosineSimilarity_formula (a b : vector) :
  length a = length b →
  cosineSimilarity a b
  = inr (dot a b / (sqrt (dot a a) * sqrt (dot b b)))%float.
Proof.
  intros Hlen. unfold cosineSimilarity.
  rewrite (proj2 (Nat.eqb_eq _ _) Hlen). cbn [negb].
  rewrite for_step_unroll by lia.
  rewrite Nat.sub_0_r, ceil_div_1.
  rewrite (foldl_ext _ (λ s k, accumulate (coord a k) (coord b k) s)).
  2:{ intros [[d na] nb] k. cbn. by rewrite Nat.mul_1_r. }
  rewrite (foldl_coords a b Hlen), (foldl_accumulate a b Hlen).
  done.
Qed.

(** C5, failing input: for a vector of norm 0 the function returns
    [NaN] (the quotient [0 / 0]), not [0]. *)
Theorem cosineSimilarity_zero_norm :
  ∃ r, cosineSimilarity [0; 0]%float [3; 4]%float = inr r
       ∧ is_nan r = true ∧ r ≠ 0%float.
Proof. exists nan. split; [vm_compute; reflexivity|]. split; [reflexivity|discriminate]. Qed.
End Cosine.

Section Reconcile.
Import CustomVectorStore.

Lemma elem_of_new_Set_acc (xs acc : list string) x :
  x ∈ foldl (λ acc x, if decide (x ∈ acc) then acc else acc ++ [x]) acc xs
  ↔ x ∈ acc ∨ x ∈ xs.
Proof.
  revert acc. induction xs as [|y xs IH]; intros acc; simpl.
  - rewrite elem_of_nil. tauto.
  - rewrite IH, elem_of_cons. destruct (decide (y ∈ acc)) as [Hy|Hy].
    + split; [tauto|]. intros [?|[->|?]]; tauto.
    + rewrite elem_of_app, list_elem_of_singleton. tauto.
Qed.

Lemma elem_of_new_Set (xs : list string) x : x ∈ new_Set xs ↔ x ∈ xs.
Proof. unfold new_Set. rewrite elem_of_new_Set_acc, elem_of_nil. tauto. Qed.


Lemma deletedFiles_nil (docs : gmap string StoredDocument) (paths : list string) :
  (∀ d, d ∈ values docs → pathOf d ∈ paths) →
  deletedFiles docs paths = [].
Proof.
  intros Hall. unfold deletedFiles.
  assert (∀ l : list string, (∀ p, p ∈ l → p ∈ paths) →
            flat_map (λ p, if decide (p ∈ paths) then [] else idsOfFile docs p) l = []) as Hflat.
  { induction l as [|p l IH]; intros Hl; [done|]. simpl.
    rewrite decide_True by (apply Hl; left). apply IH. intros q Hq. apply Hl. by right. }
  apply Hflat. intros p Hp. rewrite elem_of_new_Set in Hp.
  apply list_elem_of_fmap in Hp as (d & -> & Hd). by apply Hall.
Qed.

Lemma reconcile_unchanged (docs : gmap string StoredDocument)
    (hashes : gmap string string) (currentDocuments : list DocumentChunk) :
  (∀ d, d ∈ currentDocuments →
        ∃ h, hashes !! pathOf d = Some h ∧ h ≠ "") →
  (∀ d, d ∈ values docs → pathOf d ∈ pathOf <$> currentDocuments) →
  reconcile docs hashes currentDocuments hashes = ([], []).
Proof.
  intros Hhash Hstored. unfold reconcile.
  rewrite deletedFiles_nil.
  2:{ intros d Hd. apply elem_of_new_Set. by apply Hstored. }
  assert (∀ l : list string, (∀ p, p ∈ l → ∃ h, hashes !! p = Some h ∧ h ≠ "") →
    foldl (λ '(documentsToInsert, documentIdsToDelete) filePath,
             match hashes !! filePath with
             | Some ((String _ _) as storedHash) =>
                 if decide (hashes !! filePath = Some storedHash)
                 then (documentsToInsert, documentIdsToDelete)
                 else (documentsToInsert ++ chunksOfFile currentDocuments filePath,
                       documentIdsToDelete ++ idsOfFile docs filePath)
             | _ =>
                 (documentsToInsert ++ chunksOfFile currentDocuments filePath,
                  documentIdsToDelete)
             end) ([], []) l = (([] : list DocumentChunk), ([] : list string))) as Hfold.
  { induction l as [|p l IH]; intros Hl; [done|]. simpl.
    destruct (Hl p) as (h & Hp & Hne); [left|].
    rewrite Hp. destruct h as [|c h]; [done|].
    rewrite decide_True by done. apply IH. intros q Hq. apply Hl. by right. }
  apply Hfold. intros p Hp. rewrite elem_of_new_Set in Hp.
  apply list_elem_of_fmap in Hp as (d & -> & Hd). by apply Hhash.
Qed.

Variable embedContent : nat → string → option vector.
Variable writeFails : nat → bool.

Lemma performIncrementalUpdate_noop (st : Store)
    (currentDocuments : list DocumentChunk)
    (currentFileHashes : gmap string string) :
  fileHashesFile (disk st) = Some currentFileHashes →
  reconcile (documents st) currentFileHashes currentDocuments currentFileHashes
    = ([], []) →
  performIncrementalUpdate embedContent writeFails
    currentDocuments currentFileHashes st = Returns tt st.
Proof.
  intros Htable Hrec.
  unfold performIncrementalUpdate, loadStoredFileHashes.
  cbv [mbind M_bind Eff.gets]. rewrite Htable. cbn [from_option Datatypes.id].
  rewrite Hrec. done.
Qed.

(** C9: when the persisted fingerprint table is the table of the
    current tree, every scanned file has a non-empty fingerprint in
    it and every stored chunk belongs to a scanned file, the insert
    set and the delete set are empty and [performIncrementalUpdate]
    returns leaving the store, the snapshot and the counters as they
    were. *)
Theorem reconcile_idempotent (st : Store)
    (currentDocuments : list DocumentChunk)
    (currentFileHashes : gmap string string) :
  fileHashesFile (disk st) = Some currentFileHashes →
  (∀ d, d ∈ currentDocuments →
        ∃ h, currentFileHashes !! pathOf d = Some h ∧ h ≠ "") →
  (∀ d, d ∈ values (documents st) → pathOf d ∈ pathOf <$> currentDocuments) →
  reconcile (documents st) currentFileHashes currentDocuments currentFileHashes
    = ([], [])
  ∧ performIncrementalUpdate embedContent writeFails
      currentDocuments currentFileHashes st = Returns tt st.
Proof.
  intros Htable Hhash Hstored.
  pose proof (reconcile_unchanged (documents st) currentFileHashes
                currentDocuments Hhash Hstored) as Hrec.
  split; [done|]. by apply performIncrementalUpdate_noop.
Qed.
End Reconcile.

Section Preservation.
Context {St : Type}.
Variable P : St → Prop.


Lemma preserves_ret {A} (a : A) : preserves P (mret a).
Proof. intros s Hs. exact Hs. Qed.

Lemma preserves_throw {A} e : preserves P (Eff.throw (A:=A) e).
Proof. intros s Hs. exact Hs. Qed.

Lemma preserves_gets {A} (f : St → A) : preserves P (Eff.gets f).
Proof. intros s Hs. exact Hs. Qed.

Lemma preserves_modify (f : St → St) :
  (∀ s, P s → P (f s)) → preserves P (Eff.modify f).
Proof. intros Hf s Hs. by apply Hf. Qed.

Lemma preserves_bind {A B} (c : M St A) (k : A → M St B) :
  preserves P c → (∀ a, preserves P (k a)) → preserves P (c ≫= k).
Proof.
  intros Hc Hk s Hs. specialize (Hc s Hs).
  unfold mbind, M_bind. destruct (c s) as [a s'|e s']; [by apply Hk|done].
Qed.

Lemma preserves_try {A} (c : M St A) (h : Thrown → M St A) :
  preserves P c → (∀ e, preserves P (h e)) → preserves P (Eff.try_catch c h).
Proof.
  intros Hc Hh s Hs. specialize (Hc s Hs).
  unfold Eff.try_catch. destruct (c s) as [a s'|e s']; [done|by apply Hh].
Qed.

Lemma preserves_for_step (body : nat → M St unit) fuel i n step :
  (∀ j, preserves P (body j)) → preserves P (Eff.for_step fuel i n step body).
Proof.
  intros Hbody. revert i. induction fuel as [|fuel IH]; intros i; simpl.
  - apply preserves_ret.
  - destruct (i <? n); [|apply preserves_ret].
    apply preserves_bind; [apply Hbody|intros _; apply IH].
Qed.

Lemma preserves_for_of {A} (xs : list A) (body : A → M St unit) :
  (∀ x, preserves P (body x)) → preserves P (Eff.for_of xs body).
Proof.
  intros Hbody. induction xs as [|x xs IH]; simpl; [apply preserves_ret|].
  apply preserves_bind; [apply Hbody|intros _; apply IH].
Qed.

Lemma preserves_foldl {A B} (f : M St B → A → M St B) (xs : list A) (c : M St B) :
  (∀ c x, preserves P c → preserves P (f c x)) → preserves P c → preserves P (foldl f c xs).
Proof.
  intros Hf. revert c. induction xs as [|x xs IH]; intros c Hc; simpl; [done|].
  apply IH. by apply Hf.
Qed.

Lemma bind_returns {A B} (c : M St A) (k : A → M St B) s b s' :
  (c ≫= k) s = Returns b s' → ∃ a s1, c s = Returns a s1 ∧ k a s1 = Returns b s'.
Proof.
  unfold mbind, M_bind. destruct (c s) as [a s1|e s1]; [|done].
  intros H. by exists a, s1.
Qed.
End Preservation.

Section FullBuild.
Import CustomVectorStore.
Variable embedContent : nat → string → option vector.
Variable writeFails : nat → bool.



Lemma embedded_store_only : store_only embedded.
Proof. intros s s' Hd He H i d. rewrite <- Hd, <- He. apply H. Qed.

Lemma getTextEmbedding_preserves P text :
  store_only P →
  preserves P (GeminiService.getTextEmbedding embedContent api_calls
                 set_api_calls text).
Proof.
  intros HP. unfold GeminiService.getTextEmbedding.
  destruct (negb (Js.non_blank text)); [apply preserves_throw|].
  apply preserves_bind; [apply preserves_gets|]. intros n.
  apply preserves_bind.
  - apply preserves_modify. intros s. by apply HP.
  - intros _. destruct (embedContent n _); [apply preserves_ret|apply preserves_throw].
Qed.

Lemma getTextEmbeddings_preserves P texts :
  store_only P → preserves P (getTextEmbeddings embedContent texts).
Proof.
  intros HP. unfold getTextEmbeddings, GeminiService.getTextEmbeddings.
  destruct (filter _ texts) as [|t ts] eqn:E; [apply preserves_ret|].
  apply preserves_foldl; [|apply preserves_ret].
  intros c x Hc. apply preserves_bind; [done|]. intros embs.
  apply preserves_try; [|intros _; apply preserves_ret].
  apply preserves_bind; [by apply getTextEmbedding_preserves|].
  intros v. apply preserves_ret.
Qed.

Lemma writeFileSync_preserves P put :
  store_only P → preserves P (writeFileSync writeFails put).
Proof.
  intros HP. unfold writeFileSync.
  apply preserves_bind; [apply preserves_gets|]. intros n.
  apply preserves_bind.
  - apply preserves_modify. intros s. by apply HP.
  - intros _. destruct (writeFails n); [apply preserves_throw|].
    apply preserves_modify. intros s. by apply HP.
Qed.

Lemma saveIndex_preserves P : store_only P → preserves P (saveIndex writeFails).
Proof.
  intros HP. unfold saveIndex.
  apply preserves_bind; [apply preserves_gets|]. intros docs.
  apply preserves_bind; [by apply writeFileSync_preserves|]. intros _.
  apply preserves_bind; [apply preserves_gets|]. intros embs.
  by apply writeFileSync_preserves.
Qed.

Lemma saveStoredFileHashes_preserves P hashes :
  store_only P → preserves P (saveStoredFileHashes writeFails hashes).
Proof.
  intros HP. unfold saveStoredFileHashes.
  apply preserves_try; [by apply writeFileSync_preserves|].
  intros _. apply preserves_ret.
Qed.

Lemma embedded_insert st doc v :
  v ≠ [] → embedded st →
  embedded (set_embeddings (insert (id doc) (Some v))
              (set_documents (insert (id doc) doc) st)).
Proof.
  intros Hv H i d. cbn.
  destruct (decide (id doc = i)) as [<-|Hne].
  - rewrite !lookup_insert_eq. intros [= <-]. split; [done|]. by exists v.
  - rewrite !lookup_insert_ne by done. apply H.
Qed.

Lemma storeBatch_preserves batch embs :
  preserves embedded (storeBatch batch embs).
Proof.
  unfold storeBatch. apply preserves_for_step. intros j.
  destruct (batch !! j) as [doc|]; [|apply preserves_throw].
  destruct (embs !! j) as [[|x v]|]; try apply preserves_ret.
  intros s Hs. cbv [mbind M_bind Eff.modify Eff.state_of].
  by apply embedded_insert.
Qed.

Lemma buildIndexFromScratch_embedded currentDocuments currentFileHashes st :
  embedded (Eff.state_of
    (buildIndexFromScratch embedContent writeFails
       currentDocuments currentFileHashes st)).
Proof.
  unfold buildIndexFromScratch.
  set (rest := (Eff.for_step _ _ _ _ _ ≫= _)).
  cbv [mbind M_bind Eff.modify].
  assert (preserves embedded rest) as Hrest.
  { unfold rest. apply preserves_bind.
    - apply preserves_for_step. intros i.
      apply preserves_try; [|intros _; apply preserves_ret].
      apply preserves_bind;
        [apply getTextEmbeddings_preserves, embedded_store_only|].
      intros embs. apply storeBatch_preserves.
    - intros _. apply preserves_bind;
        [apply saveIndex_preserves, embedded_store_only|].
      intros _. apply saveStoredFileHashes_preserves, embedded_store_only. }
  apply Hrest. intros i d. cbn. by rewrite lookup_empty.
Qed.
End FullBuild.

Section Persistence.
Import CustomVectorStore.
Variable embedContent : nat → string → option vector.
Variable writeFails : nat → bool.


Lemma saveIndex_returns st st' :
  saveIndex writeFails st = Returns tt st' →
  documents st' = documents st ∧ embeddings st' = embeddings st
  ∧ disk st' = with_embeddings (embeddingsObject (embeddings st))
                 (with_documents (values (documents st)) (disk st)).
Proof.
  unfold saveIndex, writeFileSync.
  cbv [mbind M_bind Eff.gets Eff.modify Eff.throw].
  cbn [fs_writes set_fs_writes].
  destruct (writeFails (fs_writes st)); [done|].
  cbn [fs_writes set_disk set_fs_writes].
  destruct (writeFails (S (fs_writes st))); [done|].
  intros [= <-]. done.
Qed.

Lemma saveStoredFileHashes_files hashes st :
  let st' := Eff.state_of (saveStoredFileHashes writeFails hashes st) in
  documents st' = documents st ∧ embeddings st' = embeddings st
  ∧ documentsFile (disk st') = documentsFile (disk st)
  ∧ embeddingsFile (disk st') = embeddingsFile (disk st).
Proof.
  unfold saveStoredFileHashes, writeFileSync.
  cbv [mbind M_bind Eff.gets Eff.modify Eff.throw Eff.try_catch].
  cbn [fs_writes set_fs_writes].
  destruct (writeFails (fs_writes st)); done.
Qed.


Lemma embedded_snapshot st :
  embedded st →
  snapshot_embedded (with_embeddings (embeddingsObject (embeddings st))
                       (with_documents (values (documents st)) (disk st))).
Proof.
  intros H. eexists _, _. split; [done|]. split; [done|].
  intros doc Hdoc. unfold values in Hdoc.
  apply list_elem_of_fmap in Hdoc as ([i d] & -> & Hd).
  apply elem_of_map_to_list in Hd. destruct (H i d Hd) as (Hid & v & Hv & Hne).
  exists v. split; [|done]. unfold embeddingsObject.
  cbn [snd]. by rewrite Hid, lookup_omap, Hv.
Qed.

Lemma buildIndexFromScratch_persisted currentDocuments currentFileHashes st st' :
  buildIndexFromScratch embedContent writeFails
    currentDocuments currentFileHashes st = Returns tt st' →
  snapshot_embedded (disk st').
Proof.
  unfold buildIndexFromScratch. intros H.
  apply bind_returns in H as ([] & sA & HA & H).
  apply bind_returns in H as ([] & sB & HB & H).
  apply bind_returns in H as ([] & s1 & Hloop & H).
  apply bind_returns in H as ([] & s2 & Hsave & H).
  assert (embedded sB) as HsB.
  { injection HA as <-. injection HB as <-. intros i d. cbn. by rewrite lookup_empty. }
  assert (embedded s1) as Hs1.
  { change s1 with (Eff.state_of (Returns (A:=unit) tt s1)). rewrite <- Hloop.
    revert HsB. apply preserves_for_step. intros i.
    apply preserves_try; [|intros _; apply preserves_ret].
    apply preserves_bind;
      [apply getTextEmbeddings_preserves, embedded_store_only|].
    intros embs. apply storeBatch_preserves. }
  apply saveIndex_returns in Hsave as (_ & _ & Hdisk).
  pose proof (saveStoredFileHashes_files currentFileHashes s2) as Hfiles.
  rewrite H in Hfiles. cbn [Eff.state_of] in Hfiles.
  destruct Hfiles as (_ & _ & Hd & He).
  destruct (embedded_snapshot s1 Hs1) as (docs & embs & Hdocs & Hembs & Hall).
  exists docs, embs. rewrite Hd, He, Hdisk. done.
Qed.

(** After a full build every stored chunk is one of the scanned chunks. *)
Lemma buildIndexFromScratch_subset currentDocuments currentFileHashes st :
  ∀ i d,
    documents (Eff.state_of
      (buildIndexFromScratch embedContent writeFails
         currentDocuments currentFileHashes st)) !! i = Some d →
    d ∈ currentDocuments.
Proof.
  set (scanned := λ s : Store,
         ∀ i d, documents s !! i = Some d → d ∈ currentDocuments).
  assert (store_only scanned) as Hso.
  { intros s s' Hd _ H i d. rewrite <- Hd. apply H. }
  unfold buildIndexFromScratch.
  set (rest := (Eff.for_step _ _ _ _ _ ≫= _)).
  cbv [mbind M_bind Eff.modify].
  assert (preserves scanned rest) as Hrest.
  { unfold rest. apply preserves_bind.
    - apply preserves_for_step. intros i.
      apply preserves_try; [|intros _; apply preserves_ret].
      apply preserves_bind; [by apply getTextEmbeddings_preserves|].
      intros embs. unfold storeBatch. apply preserves_for_step. intros j.
      destruct (Js.slice i (i + batchSize) _ !! j) as [doc|] eqn:Hdoc;
        [|apply preserves_throw].
      destruct (embs !! j) as [[|x v]|]; try apply preserves_ret.
      intros s Hs. cbv [mbind M_bind Eff.modify Eff.state_of].
      intros k d. cbn. destruct (decide (id doc = k)) as [<-|Hne].
      + rewrite lookup_insert_eq. intros [= <-].
        apply list_elem_of_lookup_2 in Hdoc. unfold Js.slice in Hdoc.
        assert (doc ∈ filter (λ doc, Js.non_blank (text doc) = true)
                   currentDocuments) as Hin.
        { eapply elem_of_sublist; [exact Hdoc|].
          etrans; [apply sublist_take|apply sublist_drop]. }
        by apply list_elem_of_filter in Hin as [_ ?].
      + rewrite lookup_insert_ne by done. apply Hs.
    - intros _. apply preserves_bind; [by apply saveIndex_preserves|].
      intros _. by apply saveStoredFileHashes_preserves. }
  apply Hrest. intros i d. cbn. by rewrite lookup_empty.
Qed.

(** A full build whose fingerprint table reached the disk, followed by
    an incremental update over the same scan, changes nothing. *)
Lemma update_after_full_build_is_noop currentDocuments currentFileHashes st st' :
  (∀ d, d ∈ currentDocuments →
        ∃ h, currentFileHashes !! pathOf d = Some h ∧ h ≠ "") →
  buildIndexFromScratch embedContent writeFails
    currentDocuments currentFileHashes st = Returns tt st' →
  fileHashesFile (disk st') = Some currentFileHashes →
  performIncrementalUpdate embedContent writeFails
    currentDocuments currentFileHashes st' = Returns tt st'.
Proof.
  intros Hhash Hbuild Htable.
  apply performIncrementalUpdate_noop; [done|].
  apply reconcile_unchanged; [done|].
  intros d Hd. unfold values in Hd.
  apply list_elem_of_fmap in Hd as ([i d'] & -> & Hd).
  apply elem_of_map_to_list in Hd. cbn [snd].
  apply list_elem_of_fmap. exists d'. split; [done|].
  pose proof (buildIndexFromScratch_subset currentDocuments currentFileHashes
                st i d') as Hsub.
  rewrite Hbuild in Hsub. by apply Hsub.
Qed.

(** C4, as the code has it: the three artifacts are written one after the
    other, in place.  When the first write fails the previous
    snapshot is intact and the pass throws; when the second fails the
    chunk collection already holds the new state while embeddings and
    fingerprints keep the previous one, and the pass throws; when the
    write of the fingerprints fails the error is swallowed and the
    snapshot keeps the previous fingerprints beside the new chunks
    and embeddings. *)
Theorem snapshot_after_write_failure (st : Store) (hashes : gmap string string) :
  let n := fs_writes st in
  let newDocs := values (documents st) in
  let newEmbs := embeddingsObject (embeddings st) in
  let persist := saveIndex writeFails ≫= λ _, saveStoredFileHashes writeFails hashes in
  match writeFails n, writeFails (S n), writeFails (S (S n)) with
  | true, _, _ =>
      ∃ e st', persist st = Throws e st' ∧ disk st' = disk st
  | false, true, _ =>
      ∃ e st', persist st = Throws e st'
               ∧ disk st' = with_documents newDocs (disk st)
  | false, false, true =>
      ∃ st', persist st = Returns tt st'
             ∧ disk st' = with_embeddings newEmbs
                            (with_documents newDocs (disk st))
  | false, false, false =>
      ∃ st', persist st = Returns tt st'
             ∧ disk st' = with_hashes hashes
                            (with_embeddings newEmbs
                               (with_documents newDocs (disk st)))
  end.
Proof.
  intros n newDocs newEmbs persist. unfold persist.
  unfold saveIndex, saveStoredFileHashes, writeFileSync.
  cbv [mbind M_bind Eff.gets Eff.modify Eff.throw Eff.try_catch].
  cbn [fs_writes set_fs_writes set_disk]. fold n.
  destruct (writeFails n); [by eexists _, _|].
  cbn [fs_writes set_fs_writes set_disk].
  destruct (writeFails (S n)); [by eexists _, _|].
  cbn [fs_writes set_fs_writes set_disk].
  destruct (writeFails (S (S n))); by eexists.
Qed.
End Persistence.

Section StoreExamples.
Import CustomVectorStore.

(** C3, failing input: with the embedding service down, an
    incremental update that finds a new file stores its chunk with an
    [undefined] embedding and persists the chunk without any
    embedding, where [buildIndexFromScratch] skips such a chunk
    (lemmas [buildIndexFromScratch_embedded] and
    [buildIndexFromScratch_persisted]). *)
Theorem incremental_update_stores_unembedded_chunk :
  let out := initialize embed_down writes_ok [docA; docB] hashes_ab st_boot in
  let st' := Eff.state_of out in
  out = Returns tt st'
  ∧ documents st' !! "docs/b.md" = Some docB
  ∧ embeddings st' !! "docs/b.md" = Some None
  ∧ docB ∈ default [] (documentsFile (disk st'))
  ∧ default ∅ (embeddingsFile (disk st')) !! "docs/b.md" = None.
Proof.
  repeat split; try (vm_compute; reflexivity).
  assert (default [] (documentsFile (disk (Eff.state_of
            (initialize embed_down writes_ok [docA; docB] hashes_ab st_boot))))
          = [docA; docB]) as -> by (vm_compute; reflexivity).
  right. left.
Qed.

(** C4, counterexample: the write of the embeddings fails during an
    incremental update; the pass throws, and the chunk collection on
    disk has been replaced while embeddings and fingerprints are those
    of the previous snapshot. *)
Lemma failed_write_leaves_mixed_snapshot :
  let out := initialize embed_ok second_write_fails [docA; docB] hashes_ab st_boot in
  let st' := Eff.state_of out in
  out = Throws "EIO: write failed" st'
  ∧ disk st' ≠ disk st_boot
  ∧ documentsFile (disk st') = Some [docA; docB]
  ∧ embeddingsFile (disk st') = embeddingsFile (disk st_boot)
  ∧ fileHashesFile (disk st') = fileHashesFile (disk st_boot).
Proof.
  repeat split; try (vm_compute; reflexivity).
  intros H. apply (f_equal documentsFile) in H. vm_compute in H. discriminate.
Qed.

(** C9, witness: the theorem applied to the store that holds both
    sample files. *)
Lemma reconcile_idempotent_witness :
  fileHashesFile (disk st_ab) = Some hashes_ab
  ∧ reconcile (documents st_ab) hashes_ab [docA; docB] hashes_ab = ([], [])
  ∧ performIncrementalUpdate embed_ok writes_ok [docA; docB] hashes_ab st_ab
    = Returns tt st_ab.
Proof.
  split; [reflexivity|].
  apply (reconcile_idempotent embed_ok writes_ok st_ab [docA; docB] hashes_ab).
  - reflexivity.
  - intros d Hd. apply list_elem_of_In in Hd.
    destruct Hd as [<-|[<-|[]]]; eexists; (split; [vm_compute; reflexivity|discriminate]).
  - intros d Hd.
    assert (values (documents st_ab) = [docA; docB]) as E by (vm_compute; reflexivity).
    rewrite E in Hd. apply list_elem_of_In in Hd.
    destruct Hd as [<-|[<-|[]]]; apply list_elem_of_In; vm_compute; tauto.
Defined.
End StoreExamples.

Section Merge.
Import PocketFlowRAG.

Lemma findIndex_Some {A} (p : A → bool) (l : list A) i :
  findIndex p l = Some i →
  (∃ x, l !! i = Some x ∧ p x = true)
  ∧ ∀ j y, j < i → l !! j = Some y → p y = false.
Proof.
  revert i. induction l as [|x l IH]; intros i; simpl; [done|].
  destruct (p x) eqn:Hx.
  - intros [= <-]. split; [by exists x|]. intros j y Hj. lia.
  - destruct (findIndex p l) as [i'|]; [|done]. intros [= <-].
    destruct (IH i' eq_refl) as [Hex Hbefore]. split; [done|].
    intros [|j] y Hj; simpl; [by intros [= <-]|].
    apply Hbefore. lia.
Qed.


Lemma elem_of_indexed results i r :
  (i, r) ∈ indexed results ↔ results !! i = Some r.
Proof.
  unfold indexed. rewrite elem_of_lookup_imap. split.
  - intros (j & y & [= -> ->] & H). done.
  - intros H. by exists i, r.
Qed.

Lemma indexed_fst results : (indexed results).*1 = seq 0 (length results).
Proof.
  unfold indexed. rewrite <- (list_fmap_id (seq 0 _)).
  apply (fmap_imap_const fst (λ index (result : QueryResult), (index, result))
           (λ i, i) results (λ _ _, eq_refl) 0).
Qed.

Lemma indexed_NoDup results : NoDup (indexed results).
Proof.
  apply (NoDup_fmap_1 fst). rewrite indexed_fst. apply NoDup_seq.
Qed.


Lemma uniqueResults_eq results :
  uniqueResults results = (filter (firstOfId results) (indexed results)).*2.
Proof.
  unfold uniqueResults, indexed. f_equal. apply list_filter_iff. by intros [i r]. 
Qed.

Lemma uniqueResults_NoDup results : NoDup (docId <$> uniqueResults results).
Proof.
  rewrite uniqueResults_eq, <- list_fmap_compose.
  apply NoDup_fmap_2_strong; [|apply NoDup_filter, indexed_NoDup].
  intros [i r] [j r'] [Hf Hi]%list_elem_of_filter [Hf' Hj]%list_elem_of_filter Hid.
  unfold firstOfId in Hf, Hf'. cbn in Hf, Hf', Hid. rewrite Hid in Hf.
  rewrite Hf in Hf'. injection Hf' as ->.
  apply elem_of_indexed in Hi, Hj. rewrite Hi in Hj. by injection Hj as ->.
Qed.

Lemma uniqueResults_first results r :
  r ∈ uniqueResults results →
  ∃ pre post, results = pre ++ r :: post ∧ docId r ∉ docId <$> pre.
Proof.
  rewrite uniqueResults_eq. intros ([i r'] & -> & [Hf Hi]%list_elem_of_filter)%list_elem_of_fmap.
  cbn [snd]. apply elem_of_indexed in Hi. unfold firstOfId in Hf. cbn in Hf.
  apply findIndex_Some in Hf as [_ Hbefore].
  exists (take i results), (drop (S i) results). split.
  - symmetry. by apply take_drop_middle.
  - intros (y & Hy & Hin)%list_elem_of_fmap.
    apply list_elem_of_lookup in Hin as (j & Hj).
    assert (j < i) as Hlt.
    { apply lookup_lt_Some in Hj. rewrite length_take in Hj. lia. }
    rewrite lookup_take_lt in Hj by done.
    specialize (Hbefore j y Hlt Hj). rewrite Hy, String.eqb_refl in Hbefore. done.
Qed.

Lemma concat_split {A} (ls : list (list A)) (pre post : list A) (x : A) :
  concat ls = pre ++ x :: post →
  ∃ k l, ls !! k = Some l ∧ x ∈ l
         ∧ ∀ k' l', k' < k → ls !! k' = Some l' → ∀ y, y ∈ l' → y ∈ pre.
Proof.
  revert pre. induction ls as [|l ls IH]; intros pre; simpl.
  - intros H. by destruct pre.
  - intros H. destruct (decide (length pre < length l)) as [Hlt|Hge].
    + exists 0, l. split; [done|]. split.
      2:{ intros k' l' Hk'. lia. }
      apply list_elem_of_lookup. exists (length pre).
      rewrite <- (lookup_app_l l (concat ls)) by done.
      rewrite H. by apply list_lookup_middle.
    + assert (l = take (length l) pre) as Hl.
      { apply (f_equal (take (length l))) in H.
        rewrite take_app_length in H. rewrite take_app_le in H by lia. done. }
      assert (concat ls = drop (length l) pre ++ x :: post) as Hrest.
      { apply (f_equal (drop (length l))) in H.
        rewrite drop_app_length in H. rewrite drop_app_le in H by lia. done. }
      destruct (IH _ Hrest) as (k & l' & Hk & Hx & Hpre).
      exists (S k), l'. split; [done|]. split; [done|].
      intros [|k'] l'' Hlt; simpl.
      * intros [= <-] y Hy. rewrite Hl in Hy.
        eapply elem_of_sublist; [exact Hy|apply sublist_take].
      * intros Hk' y Hy.
        specialize (Hpre k' l'' ltac:(lia) Hk' y Hy).
        eapply elem_of_sublist; [exact Hpre|apply sublist_drop].
Qed.

Lemma indexed_cons r l :
  indexed (r :: l) = (0, r) :: (prod_map S Datatypes.id <$> indexed l).
Proof.
  unfold indexed. rewrite imap_cons. f_equal.
  rewrite fmap_imap. done.
Qed.

Lemma uniqueResults_cons r l :
  uniqueResults (r :: l)
  = r :: filter (λ x, docId x ≠ docId r) (uniqueResults l).
Proof.
  rewrite !uniqueResults_eq, indexed_cons.
  rewrite filter_cons_True.
  2:{ unfold firstOfId. cbn. by rewrite String.eqb_refl. }
  rewrite fmap_cons. cbn [snd]. f_equal.
  induction (indexed l) as [|[i x] rest IH]; [done|].
  rewrite fmap_cons. cbn [prod_map fst snd Datatypes.id].
  rewrite !filter_cons.
  assert (firstOfId (r :: l) (S i, x) ↔ docId x ≠ docId r ∧ firstOfId l (i, x)) as Hiff.
  { unfold firstOfId. cbn [fst snd findIndex].
    destruct (String.eqb_spec (docId r) (docId x)) as [E|E].
    - split; [done|]. intros [H _]. by destruct H.
    - split.
      + intros H. split; [done|].
        destruct (findIndex _ l) as [j|]; [|done]. cbn in H. by injection H as ->.
      + intros [_ ->]. done. }
  destruct (decide (firstOfId (r :: l) (S i, x))) as [H|H].
  - apply Hiff in H as [H1 H2]. rewrite decide_True by done.
    rewrite !fmap_cons. cbn [snd]. rewrite filter_cons_True by done.
    by rewrite IH.
  - destruct (decide (firstOfId l (i, x))) as [H2|H2].
    + rewrite fmap_cons. cbn [snd]. rewrite filter_cons_False; [done|].
      intros H1. apply H, Hiff. done.
    + done.
Qed.

Lemma uniqueResults_keepFirst l : uniqueResults l = keepFirst l.
Proof.
  induction l as [|r l IH]; [done|].
  rewrite uniqueResults_cons, IH. done.
Qed.

Lemma keepFirst_ids l r :
  r ∈ l → docId r ∈ docId <$> keepFirst l.
Proof.
  induction l as [|x l IH]; [by intros ?%elem_of_nil|].
  intros [->|Hin]%elem_of_cons; cbn [keepFirst]; rewrite fmap_cons.
  - left.
  - destruct (decide (docId r = docId x)) as [->|Hne]; [left|right].
    apply IH in Hin. apply list_elem_of_fmap in Hin as (y & Hy & Hin).
    apply list_elem_of_fmap. exists y. split; [done|].
    apply list_elem_of_filter. split; [|done]. by rewrite <- Hy.
Qed.
End Merge.

Section SearchStage.
Import PocketFlowRAG.
Variable W : Collaborators.


Lemma searchAll_searchEach_acc qs acc accL n :
  merges acc accL n →
  merges
    (foldl (λ (acc : M Run (list QueryResult)) q,
              results ← acc;
              Eff.try_catch
                (queryResults ← searchDocuments W q 5;
                 mret (results ++ queryResults))
                (λ _, mret results)) acc qs)
    (foldl (λ (acc : M Run (list (list QueryResult))) q,
              perQuery ← acc;
              Eff.try_catch
                (queryResults ← searchDocuments W q 5;
                 mret (perQuery ++ [queryResults]))
                (λ _, mret (perQuery ++ [[]]))) accL qs)
    (n + length qs).
Proof.
  revert acc accL n. induction qs as [|q qs IH]; intros acc accL n H.
  - simpl. by rewrite Nat.add_0_r.
  - cbn [foldl length]. replace (n + S (length qs)) with (S n + length qs) by lia.
    apply IH. intros s. destruct (H s) as (pq & s' & HL & Hn & HA).
    cbv [mbind M_bind Eff.try_catch mret M_ret]. rewrite HL, HA.
    destruct (searchDocuments W q 5 s') as [rs s''|e s''].
    + exists (pq ++ [rs]), s''. split; [done|]. split.
      * rewrite length_app. simpl. lia.
      * by rewrite concat_app, (concat_cons rs), concat_nil, app_nil_r.
    + exists (pq ++ [[]]), s''. split; [done|]. split.
      * rewrite length_app. simpl. lia.
      * by rewrite concat_app, (concat_cons []), concat_nil, !app_nil_r.
Qed.

Lemma searchAll_searchEach qs :
  merges (searchAll W qs) (searchEach W qs) (length qs).
Proof.
  apply (searchAll_searchEach_acc qs (mret []) (mret []) 0).
  intros s. by exists [], s.
Qed.

Lemma searchDocuments_retrieved q s :
  ∃ s', searchDocuments W q 5 s = Returns (retrieved W (calls s) q) s'
        ∧ ∀ k q', retrieved W (calls s' + k) q' = retrieved W (calls s + S k) q'.
Proof.
  unfold searchDocuments, retrieved, call.
  cbv [Eff.try_catch mbind M_bind Eff.gets Eff.modify Eff.throw mret M_ret].
  destruct (vectorSearch W) as [f|]; [|by eexists].
  destruct (f (calls s) q 5) as [e|rs]; eexists; (split; [reflexivity|]);
    intros k q'; cbn [calls]; by replace (S (calls s) + k) with (calls s + S k) by lia.
Qed.

Lemma searchEach_acc qs :
  ∀ (acc : M Run (list (list QueryResult))) s pq s1,
    acc s = Returns pq s1 →
    ∃ s2,
      foldl (λ (acc : M Run (list (list QueryResult))) q,
               perQuery ← acc;
               Eff.try_catch
                 (queryResults ← searchDocuments W q 5;
                  mret (perQuery ++ [queryResults]))
                 (λ _, mret (perQuery ++ [[]]))) acc qs s
      = Returns (pq ++ imap (λ k q, retrieved W (calls s1 + k) q) qs) s2.
Proof.
  induction qs as [|q qs IH]; intros acc s pq s1 Hacc.
  - exists s1. cbn [foldl imap]. by rewrite app_nil_r.
  - cbn [foldl].
    destruct (searchDocuments_retrieved q s1) as (s1' & Hs & Hshift).
    edestruct (IH (perQuery ← acc;
               Eff.try_catch
                 (queryResults ← searchDocuments W q 5;
                  mret (perQuery ++ [queryResults]))
                 (λ _, mret (perQuery ++ [[]]))) s (pq ++ [retrieved W (calls s1) q]) s1')
      as (s2 & H2).
    { cbv [mbind M_bind Eff.try_catch mret M_ret]. rewrite Hacc.
      cbv [mbind M_bind Eff.try_catch mret M_ret] in Hs. by rewrite Hs. }
    exists s2. rewrite H2. f_equal. rewrite <- app_assoc. f_equal.
    rewrite imap_cons. cbn [app]. rewrite Nat.add_0_r. f_equal.
    apply imap_ext. intros k q' _. cbn. apply Hshift.
Qed.

Lemma searchEach_retrieved qs s :
  ∃ s', searchEach W qs s
        = Returns (imap (λ k q, retrieved W (calls s + k) q) qs) s'.
Proof.
  destruct (searchEach_acc qs (mret []) s [] s eq_refl) as (s2 & H).
  exists s2. exact H.
Qed.

(** C10: the Vector Search stage hands on the first five of the
    results retrieved, taken in the order of the queries (the original
    first, then the expansions in order) without those whose document
    id occurred earlier; a query whose search throws contributes
    nothing.  So the output has at most 5 results, no two with the
    same document id, every document id retrieved is kept before the
    cut, and every result kept comes from the earliest query that
    retrieved its document id. *)
Theorem vector_search_merge (input : string * list string) (s : Run) :
  ∃ perQuery out s',
    searchEach W (input.1 :: input.2) s = Returns perQuery s'
    ∧ perQuery = imap (λ k q, retrieved W (calls s + k) q) (input.1 :: input.2)
    ∧ length perQuery = S (length input.2)
    ∧ VectorSearchNode_exec W input s = Returns out s'
    ∧ out = take 5 (keepFirst (concat perQuery))
    ∧ (∀ r, r ∈ concat perQuery →
         docId r ∈ docId <$> keepFirst (concat perQuery))
    ∧ length out ≤ 5
    ∧ NoDup (docId <$> out)
    ∧ ∀ r, r ∈ out →
        ∃ k rs, perQuery !! k = Some rs ∧ r ∈ rs
                ∧ ∀ k' rs', k' < k → perQuery !! k' = Some rs' →
                    docId r ∉ docId <$> rs'.
Proof.
  destruct (searchAll_searchEach (input.1 :: input.2) s)
    as (pq & s' & HL & Hn & HA).
  destruct (searchEach_retrieved (input.1 :: input.2) s) as (s2 & HR).
  exists pq, (take 5 (uniqueResults (concat pq))), s'.
  split; [done|]. split; [rewrite HL in HR; by injection HR|].
  split; [done|]. split.
  { unfold VectorSearchNode_exec. cbv [mbind M_bind]. by rewrite HA. }
  split; [by rewrite uniqueResults_keepFirst|].
  split; [intros r; apply keepFirst_ids|].
  split; [rewrite length_take; lia|]. split.
  { eapply sublist_NoDup; [apply uniqueResults_NoDup|].
    rewrite fmap_take. apply sublist_take. }
  intros r Hr.
  assert (r ∈ uniqueResults (concat pq)) as Hu
    by (eapply elem_of_sublist; [exact Hr|apply sublist_take]).
  apply uniqueResults_first in Hu as (pre & post & Hsplit & Hfresh).
  apply concat_split in Hsplit as (k & rs & Hk & Hin & Hpre).
  exists k, rs. split; [done|]. split; [done|].
  intros k' rs' Hlt Hk' (y & Hy & Hin')%list_elem_of_fmap.
  apply Hfresh. apply list_elem_of_fmap. exists y. split; [done|].
  by apply (Hpre k' rs').
Qed.
End SearchStage.

Section Routing.
Import PocketFlow PocketFlowRAG.


Lemma next_intent a :
  a = "troubleshooting" ∨ a = "example" ∨ a = "default" →
  getNextNode graph intentNode a = Some expansionNode.
Proof. intros [-> | [-> | ->]]; vm_compute; reflexivity. Qed.

Lemma next_expansion : getNextNode graph expansionNode "default" = Some searchNode.
Proof. vm_compute. reflexivity. Qed.

Lemma next_search_none : getNextNode graph searchNode "no_results" = Some fallbackNode.
Proof. vm_compute. reflexivity. Qed.

Lemma next_search_high : getNextNode graph searchNode "high_confidence" = Some contextNode.
Proof. vm_compute. reflexivity. Qed.

Lemma next_search_low : getNextNode graph searchNode "low_confidence" = Some contextNode.
Proof. vm_compute. reflexivity. Qed.

Lemma next_context : getNextNode graph contextNode "default" = Some responseNode.
Proof. vm_compute. reflexivity. Qed.

Lemma next_response : getNextNode graph responseNode "default" = Some metadataNode.
Proof. vm_compute. reflexivity. Qed.

Lemma next_fallback : getNextNode graph fallbackNode "default" = Some metadataNode.
Proof. vm_compute. reflexivity. Qed.

Lemma next_metadata : getNextNode graph metadataNode "default" = None.
Proof. vm_compute. reflexivity. Qed.
End Routing.

Section Stages.
Import PocketFlow PocketFlowRAG.
Variable W : Collaborators.


Lemma searchDocuments_fails q topK s :
  search_fails W → ∃ c, searchDocuments W q topK s = Returns [] (with_calls c s).
Proof.
  unfold search_fails, searchDocuments. intros H.
  destruct (vectorSearch W) as [f|].
  - cbv [Eff.try_catch call mbind M_bind Eff.gets Eff.modify].
    destruct (H (calls s) q topK) as [e ->]. by exists (S (calls s)).
  - exists (calls s). by destruct s.
Qed.

Lemma searchAll_fails qs s :
  search_fails W → ∃ c, searchAll W qs s = Returns [] (with_calls c s).
Proof.
  intros H. unfold searchAll.
  assert (∀ acc : M Run (list QueryResult),
            (∀ s, ∃ c, acc s = Returns [] (with_calls c s)) →
            ∀ s, ∃ c, foldl (λ (acc : M Run (list QueryResult)) q,
                         results ← acc;
                         Eff.try_catch
                           (queryResults ← searchDocuments W q 5;
                            mret (results ++ queryResults))
                           (λ _, mret results)) acc qs s
                      = Returns [] (with_calls c s)) as Hfold.
  { induction qs as [|q qs IH]; intros acc Hacc; [done|].
    cbn [foldl]. apply IH. intros s'. destruct (Hacc s') as [c Hc].
    cbv [mbind M_bind Eff.try_catch]. rewrite Hc.
    destruct (searchDocuments_fails q 5 (with_calls c s') H) as [c' ->].
    by exists c'. }
  apply Hfold. intros s'. exists (calls s'). by destruct s'.
Qed.

Lemma intent_stage s q :
  query (shared s) = Some q → q ≠ "" →
  ∃ a s', _run (visit intentNode) (QueryIntentNode W) s = Returns a s'
          ∧ getNextNode graph intentNode a = Some expansionNode
          ∧ trace s' = trace s ++ [intentNode]
          ∧ query (shared s') = Some q.
Proof.
  intros Hq Hne. unfold _run, QueryIntentNode, visit.
  cbv [mbind M_bind Eff.gets Eff.modify prep exec post maxRetries _exec
       Eff.try_catch call Eff.throw mret M_ret set_shared].
  cbn [shared calls trace]. rewrite Hq. destruct q as [|c q]; [done|].
  cbn [shared calls trace].
  destruct (classifyQueryIntent W (calls s) (String c q)) as [e|i] eqn:E;
    cbn [shared calls trace];
    (eexists _, _; split; [reflexivity|]; split;
     [apply next_intent; repeat case_match; auto|done]).
Qed.

Ltac run_stage :=
  unfold _run, visit;
  cbv [mbind M_bind Eff.gets Eff.modify prep exec post maxRetries _exec
       Eff.try_catch call Eff.throw mret M_ret set_shared set_response
       QueryExpansionNode VectorSearchNode LLMFallbackNode
       MetadataEnhancementNode ContextBuildingNode ResponseGenerationNode
       ErrorHandlingNode generateLLMFallback adapterResponseWithSources];
  cbn [shared calls trace].

Lemma expansion_stage s :
  ∃ s', _run (visit expansionNode) (QueryExpansionNode W) s
          = Returns "default" s'
        ∧ trace s' = trace s ++ [expansionNode]
        ∧ query (shared s') = query (shared s).
Proof.
  run_stage.
  destruct (expandQuery W (calls s) _) as [e|ex]; cbn [shared calls trace];
    by eexists.
Qed.

Lemma search_stage_fails s :
  search_fails W →
  ∃ s', _run (visit searchNode) (VectorSearchNode W) s
          = Returns "no_results" s'
        ∧ trace s' = trace s ++ [searchNode]
        ∧ searchResults (shared s') = Some []
        ∧ query (shared s') = query (shared s).
Proof.
  intros H. unfold _run, visit, VectorSearchNode, VectorSearchNode_exec.
  cbv [mbind M_bind Eff.gets Eff.modify prep exec post maxRetries _exec
       mret M_ret set_shared].
  cbn [shared calls trace fst snd].
  match goal with
  | |- context [searchAll W ?qs ?st] =>
      destruct (searchAll_fails qs st H) as [c ->]
  end.
  cbn. by eexists.
Qed.

Lemma fallback_stage s :
  ∃ s', _run (visit fallbackNode) (LLMFallbackNode W) s = Returns "default" s'
        ∧ trace s' = trace s ++ [fallbackNode]
        ∧ searchResults (shared s') = searchResults (shared s)
        ∧ query (shared s') = query (shared s).
Proof.
  run_stage.
  destruct (generateLLMFallbackResponse W) as [f|]; cbn [shared calls trace].
  - destruct (f (calls s) _) as [e|t]; cbn [shared calls trace]; by eexists.
  - by eexists.
Qed.

Lemma metadata_stage s :
  ∃ s' a, _run (visit metadataNode) (MetadataEnhancementNode W) s
            = Returns "default" s'
          ∧ trace s' = trace s ++ [metadataNode]
          ∧ sd_metadata (shared s') = Some (Enhanced a)
          ∧ documentsFound a = length (default [] (searchResults (shared s)))
          ∧ response (shared s') = response (shared s)
          ∧ query (shared s') = query (shared s).
Proof.
  run_stage. eexists _, _. split; [reflexivity|]. cbn.
  repeat split. by destruct (searchResults (shared s)).
Qed.
End Stages.


Section FailedSearch.
Import PocketFlow PocketFlowRAG.
Variable W : Collaborators.

Lemma orchestrate_step fuel n s :
  _orchestrate visit (nodes W) graph (S fuel) n s
  = match _run (visit n) (nodes W n) s with
    | Returns a s' =>
        match getNextNode graph n a with
        | Some nxt => _orchestrate visit (nodes W) graph fuel nxt s'
        | None => Returns (Some tt) s'
        end
    | Throws e s' => Throws e s'
    end.
Proof.
  cbn [_orchestrate]. cbv [mbind M_bind].
  destruct (_run (visit n) (nodes W n) s) as [a s'|e s']; [|done].
  by destruct (getNextNode graph n a).
Qed.

Lemma fallback_path fuel s q :
  query (shared s) = Some q → q ≠ "" → search_fails W →
  ∃ s' a,
    _orchestrate visit (nodes W) graph (5 + fuel) intentNode s
      = Returns (Some tt) s'
    ∧ trace s' = trace s ++ [intentNode; expansionNode; searchNode;
                             fallbackNode; metadataNode]
    ∧ sd_metadata (shared s') = Some (Enhanced a)
    ∧ documentsFound a = 0.
Proof.
  intros Hq Hne Hfail.
  destruct (intent_stage W s q Hq Hne) as (a1 & s1 & E1 & N1 & T1 & _).
  destruct (expansion_stage W s1) as (s2 & E2 & T2 & _).
  destruct (search_stage_fails W s2 Hfail) as (s3 & E3 & T3 & R3 & _).
  destruct (fallback_stage W s3) as (s4 & E4 & T4 & R4 & _).
  destruct (metadata_stage W s4) as (s5 & a & E5 & T5 & M5 & D5 & _).
  exists s5, a.
  change (5 + fuel) with (S (S (S (S (S fuel))))).
  rewrite orchestrate_step. cbn [nodes]. rewrite E1, N1.
  rewrite orchestrate_step. cbn [nodes]. rewrite E2, next_expansion.
  rewrite orchestrate_step. cbn [nodes]. rewrite E3, next_search_none.
  rewrite orchestrate_step. cbn [nodes]. rewrite E4, next_fallback.
  rewrite orchestrate_step. cbn [nodes]. rewrite E5, next_metadata.
  split; [done|]. split.
  - rewrite T5, T4, T3, T2, T1. by rewrite <- !app_assoc.
  - split; [done|]. by rewrite D5, R4, R3.
Qed.

Lemma run_buildRAGFlow fuel :
  run visit (nodes W) buildRAGFlow fuel
  = _orchestrate visit (nodes W) graph fuel intentNode.
Proof. reflexivity. Qed.

(** C2, as the code has it: when every vector search throws, the adapter turns
    each failure into an empty result list, so the run of a non-empty
    query goes through Intent Classification, Query Expansion, Vector
    Search, LLM Fallback and Metadata Enhancement, in this order, and
    returns the metadata of a run that found no document. *)
Theorem failed_search_takes_fallback (q : string) (calls0 fuel : nat) :
  q ≠ "" → search_fails W → 5 ≤ fuel →
  ∃ r st a,
    PocketFlowRAGService.query W PocketFlowRAGService.new fuel q calls0
      = Returns (Some r) st
    ∧ trace st = [intentNode; expansionNode; searchNode; fallbackNode;
                  metadataNode]
    ∧ qr_metadata r = Some (Enhanced a)
    ∧ documentsFound a = 0.
Proof.
  intros Hne Hfail Hfuel.
  replace fuel with (5 + (fuel - 5)) by lia.
  destruct (fallback_path (fuel - 5) (PocketFlowRAGService.start_of q calls0) q
              eq_refl Hne Hfail) as (s' & a & E & T & Hm & Hd).
  unfold PocketFlowRAGService.query, PocketFlowRAGService.run_query.
  cbn [PocketFlowRAGService.ragFlow PocketFlowRAGService.new].
  rewrite run_buildRAGFlow.
  cbv [Eff.try_catch mbind M_bind Eff.gets mret M_ret]. rewrite E.
  eexists _, s', a. split; [reflexivity|]. done.
Qed.
End FailedSearch.


Section FailedSearchExamples.
Import PocketFlow PocketFlowRAG.

(** C2, counterexample: a run whose every vector search throws does
    not reach Error Handling; it takes the no-results path. *)
Lemma failed_search_not_routed_to_error_handling :
  let out := PocketFlowRAGService.query W_search_down
               PocketFlowRAGService.new 6 "how do I deploy" 0 in
  search_fails W_search_down
  ∧ trace (Eff.state_of out)
    = [intentNode; expansionNode; searchNode; fallbackNode; metadataNode]
  ∧ (errorNode ∉ trace (Eff.state_of out))
  ∧ ∃ r a, out = Returns (Some r) (Eff.state_of out)
           ∧ qr_metadata r = Some (Enhanced a).
Proof.
  intros out. subst out.
  split; [intros n q k; by eexists|].
  split; [vm_compute; reflexivity|]. split.
  - assert (trace (Eff.state_of (PocketFlowRAGService.query W_search_down
              PocketFlowRAGService.new 6 "how do I deploy" 0))
            = [intentNode; expansionNode; searchNode; fallbackNode; metadataNode])
      as -> by (vm_compute; reflexivity).
    intros H. repeat (apply elem_of_cons in H as [H|H]; [discriminate|]).
    by apply elem_of_nil in H.
  - eexists _, _. split; vm_compute; reflexivity.
Qed.

(** C2, witness: the theorem applied to [W_search_down]. *)
Lemma failed_search_takes_fallback_witness :
  "how do I deploy" ≠ "" ∧ search_fails W_search_down ∧ 5 ≤ 6
  ∧ ∃ r st a,
      PocketFlowRAGService.query W_search_down PocketFlowRAGService.new 6
        "how do I deploy" 0 = Returns (Some r) st
      ∧ trace st = [intentNode; expansionNode; searchNode; fallbackNode;
                    metadataNode]
      ∧ qr_metadata r = Some (Enhanced a)
      ∧ documentsFound a = 0.
Proof.
  assert ("how do I deploy" ≠ "") as H1 by discriminate.
  assert (search_fails W_search_down) as H2 by (intros n q k; by eexists).
  assert (5 ≤ 6) as H3 by lia.
  split; [exact H1|]. split; [exact H2|]. split; [exact H3|].
  exact (failed_search_takes_fallback W_search_down "how do I deploy" 0 6 H1 H2 H3).
Defined.
End FailedSearchExamples.

Section QueryKept.
Import PocketFlow PocketFlowRAG.
Variable W : Collaborators.
Variable q : string.


Ltac keep :=
  repeat first
    [ apply preserves_ret | apply preserves_throw | apply preserves_gets
    | apply preserves_modify; intros ? Hkeep; exact Hkeep
    | apply preserves_try; [|intros ?]
    | apply preserves_bind; [|intros ?]
    | progress case_match ].

Lemma call_keeps {A} (method : nat → Thrown + A) :
  preserves (keeps_query q) (call method).
Proof. unfold call. keep. Qed.

Lemma visit_keeps n : preserves (keeps_query q) (visit n).
Proof. unfold visit. keep. Qed.

Ltac keep' :=
  repeat first
    [ apply call_keeps | apply visit_keeps
    | apply preserves_ret | apply preserves_throw | apply preserves_gets
    | apply preserves_modify; intros ? Hkeep; exact Hkeep
    | apply preserves_try; [|intros ?]
    | apply preserves_bind; [|intros ?]
    | progress case_match ].

Lemma searchDocuments_keeps x k : preserves (keeps_query q) (searchDocuments W x k).
Proof. unfold searchDocuments. keep'. Qed.

Lemma searchAll_keeps qs : preserves (keeps_query q) (searchAll W qs).
Proof.
  unfold searchAll. apply preserves_foldl; [|apply preserves_ret].
  intros c x Hc. apply preserves_bind; [done|]. intros results.
  keep'.
Qed.

Lemma exec_keeps {A} n (attempt : M Run A) :
  preserves (keeps_query q) attempt → preserves (keeps_query q) (_exec n attempt).
Proof.
  intros H. induction n as [|[|n] IH]; cbn [_exec].
  - apply preserves_throw.
  - done.
  - apply preserves_try; [done|]. intros _. exact IH.
Qed.

Lemma node_keeps (node : Node Run) v :
  preserves (keeps_query q) v →
  preserves (keeps_query q) (prep node) →
  (∀ p, preserves (keeps_query q) (exec node p)) →
  (∀ p e, preserves (keeps_query q) (post node p e)) →
  preserves (keeps_query q) (_run v node).
Proof.
  intros Hv Hprep Hexec Hpost. unfold _run.
  apply preserves_bind; [done|]. intros _.
  apply preserves_bind; [done|]. intros p.
  apply preserves_bind; [by apply exec_keeps|]. intros e. apply Hpost.
Qed.

Lemma stage_keeps n : preserves (keeps_query q) (_run (visit n) (nodes W n)).
Proof.
  apply node_keeps; [apply visit_keeps|..]; destruct n; cbn [nodes];
    unfold QueryIntentNode, QueryExpansionNode, VectorSearchNode,
      ContextBuildingNode, ResponseGenerationNode, LLMFallbackNode,
      MetadataEnhancementNode, ErrorHandlingNode, VectorSearchNode_exec,
      generateLLMFallback, adapterResponseWithSources, set_response;
    cbn [prep exec post]; intros;
    keep'; try apply searchAll_keeps.
Qed.

Lemma orchestrate_keeps fuel n :
  preserves (keeps_query q) (_orchestrate visit (nodes W) graph fuel n).
Proof.
  revert n. induction fuel as [|fuel IH]; intros n; cbn [_orchestrate].
  - apply preserves_ret.
  - apply preserves_bind; [apply stage_keeps|]. intros a.
    destruct (getNextNode graph n a); [apply IH|apply preserves_ret].
Qed.
End QueryKept.

Section Termination.
Import PocketFlow PocketFlowRAG.
Variable W : Collaborators.

Lemma run_returns {St} (v : M St unit) (node : Node St) s a s' :
  _run v node s = Returns a s' →
  ∃ p e s3, post node p e s3 = Returns a s'.
Proof.
  unfold _run. intros H.
  apply bind_returns in H as ([] & s1 & _ & H).
  apply bind_returns in H as (p & s2 & _ & H).
  apply bind_returns in H as (e & s3 & _ & H).
  by exists p, e, s3.
Qed.

Ltac post_of H :=
  apply run_returns in H as (p & e & s3 & H);
  cbn [nodes] in H;
  cbv [post QueryIntentNode QueryExpansionNode VectorSearchNode
       ContextBuildingNode ResponseGenerationNode LLMFallbackNode
       MetadataEnhancementNode ErrorHandlingNode set_response
       adapterResponseWithSources call
       mbind M_bind Eff.gets Eff.modify Eff.try_catch Eff.throw mret M_ret] in H.

Lemma intent_next s a s' :
  _run (visit intentNode) (nodes W intentNode) s = Returns a s' →
  getNextNode graph intentNode a = Some expansionNode.
Proof.
  intros H. post_of H. injection H as <- _.
  apply next_intent. repeat case_match; auto.
Qed.

Lemma expansion_next s a s' :
  _run (visit expansionNode) (nodes W expansionNode) s = Returns a s' →
  getNextNode graph expansionNode a = Some searchNode.
Proof. intros H. post_of H. injection H as <- _. apply next_expansion. Qed.

Lemma search_next s a s' :
  _run (visit searchNode) (nodes W searchNode) s = Returns a s' →
  getNextNode graph searchNode a = Some fallbackNode
  ∨ getNextNode graph searchNode a = Some contextNode.
Proof.
  intros H. post_of H. injection H as <- _.
  destruct (length e) as [|[|[|n]]]; cbn [Nat.eqb Nat.leb];
    [left; apply next_search_none|right; apply next_search_low
    |right; apply next_search_low|right; apply next_search_high].
Qed.

Lemma context_next s a s' :
  _run (visit contextNode) (nodes W contextNode) s = Returns a s' →
  getNextNode graph contextNode a = Some responseNode.
Proof. intros H. post_of H. injection H as <- _. apply next_context. Qed.

Lemma response_next s a s' :
  _run (visit responseNode) (nodes W responseNode) s = Returns a s' →
  getNextNode graph responseNode a = Some metadataNode.
Proof.
  intros H. post_of H.
  repeat case_match; simplify_eq; apply next_response.
Qed.

Lemma fallback_next s a s' :
  _run (visit fallbackNode) (nodes W fallbackNode) s = Returns a s' →
  getNextNode graph fallbackNode a = Some metadataNode.
Proof. intros H. post_of H. injection H as <- _. apply next_fallback. Qed.

Lemma metadata_next s a s' :
  _run (visit metadataNode) (nodes W metadataNode) s = Returns a s' →
  getNextNode graph metadataNode a = None
  ∧ ∃ an, sd_metadata (shared s') = Some (Enhanced an).
Proof.
  intros H. post_of H. injection H as <- <-.
  split; [apply next_metadata|]. by eexists.
Qed.


Lemma from_metadata fuel s :
  annotated (_orchestrate visit (nodes W) graph (1 + fuel) metadataNode s).
Proof.
  cbn [Nat.add]. rewrite orchestrate_step.
  destruct (_run _ _ s) as [a s'|e s'] eqn:E; [|done].
  apply metadata_next in E as [-> Han]. done.
Qed.

Lemma from_fallback fuel s :
  annotated (_orchestrate visit (nodes W) graph (2 + fuel) fallbackNode s).
Proof.
  cbn [Nat.add]. rewrite orchestrate_step.
  destruct (_run _ _ s) as [a s'|e s'] eqn:E; [|done].
  apply fallback_next in E as ->. apply (from_metadata fuel).
Qed.

Lemma from_response fuel s :
  annotated (_orchestrate visit (nodes W) graph (2 + fuel) responseNode s).
Proof.
  cbn [Nat.add]. rewrite orchestrate_step.
  destruct (_run _ _ s) as [a s'|e s'] eqn:E; [|done].
  apply response_next in E as ->. apply (from_metadata fuel).
Qed.

Lemma from_context fuel s :
  annotated (_orchestrate visit (nodes W) graph (3 + fuel) contextNode s).
Proof.
  cbn [Nat.add]. rewrite orchestrate_step.
  destruct (_run _ _ s) as [a s'|e s'] eqn:E; [|done].
  apply context_next in E as ->. apply (from_response fuel).
Qed.

Lemma from_search fuel s :
  annotated (_orchestrate visit (nodes W) graph (4 + fuel) searchNode s).
Proof.
  cbn [Nat.add]. rewrite orchestrate_step.
  destruct (_run _ _ s) as [a s'|e s'] eqn:E; [|done].
  apply search_next in E as [-> | ->];
    [apply (from_fallback (1 + fuel))|apply (from_context fuel)].
Qed.

Lemma from_expansion fuel s :
  annotated (_orchestrate visit (nodes W) graph (5 + fuel) expansionNode s).
Proof.
  cbn [Nat.add]. rewrite orchestrate_step.
  destruct (_run _ _ s) as [a s'|e s'] eqn:E; [|done].
  apply expansion_next in E as ->. apply (from_search fuel).
Qed.

Lemma from_intent fuel s :
  annotated (_orchestrate visit (nodes W) graph (6 + fuel) intentNode s).
Proof.
  cbn [Nat.add]. rewrite orchestrate_step.
  destruct (_run _ _ s) as [a s'|e s'] eqn:E; [|done].
  apply intent_next in E as ->. apply (from_expansion fuel).
Qed.

Lemma or_else_nonempty a b : b ≠ "" → Js.or_else a b ≠ "".
Proof. intros Hb. unfold Js.or_else. by destruct a. Qed.

Lemma systemErrorText_truthy qo eo : Js.truthy (systemErrorText qo eo) = true.
Proof. reflexivity. Qed.

(** What [query] makes of the outcome of the walk.  Six units of
    fuel, the length of the longest path of the graph, are enough for
    the walk to end. *)
Lemma query_of_walk (q : string) (calls0 fuel : nat) :
  6 ≤ fuel →
  match run visit (nodes W) buildRAGFlow fuel
          (PocketFlowRAGService.start_of q calls0) with
  | Returns _ s' =>
      PocketFlowRAGService.query W PocketFlowRAGService.new fuel q calls0
      = Returns (Some {| qr_response :=
                           Js.or_else (default "" (response (shared s')))
                                      "No response generated";
                         qr_metadata := sd_metadata (shared s') |}) s'
      ∧ ∃ an, sd_metadata (shared s') = Some (Enhanced an)
  | Throws e s' =>
      query (shared s') = Some q
      ∧ PocketFlowRAGService.query W PocketFlowRAGService.new fuel q calls0
        = match e with
          | Error message =>
              Returns (Some {| qr_response :=
                                 systemErrorText (Some q) (Some message);
                               qr_metadata := Some (ErrorFlag message) |})
                      (handled e s')
          | OtherValue =>
              Returns (Some {| qr_response := systemErrorText (Some q) None;
                               qr_metadata := Some ErrorFlagUndefined |})
                      (handled e s')
          | Undefined =>
              Throws (PocketFlowRAGService.typeErrorReading "undefined")
                     (handled e s')
          | Null =>
              Throws (PocketFlowRAGService.typeErrorReading "null")
                     (handled e s')
          end
  end.
Proof.
  intros Hfuel. replace fuel with (6 + (fuel - 6)) by lia.
  set (s0 := PocketFlowRAGService.start_of q calls0).
  unfold PocketFlowRAGService.query, PocketFlowRAGService.run_query.
  cbn [PocketFlowRAGService.ragFlow PocketFlowRAGService.new]. fold s0.
  rewrite run_buildRAGFlow.
  pose proof (from_intent (fuel - 6) s0) as Hann.
  pose proof (orchestrate_keeps W q (6 + (fuel - 6)) intentNode s0 eq_refl) as Hq.
  cbv [Eff.try_catch mbind M_bind Eff.gets mret M_ret].
  destruct (_orchestrate visit (nodes W) graph (6 + (fuel - 6)) intentNode s0)
    as [done s'|e s'].
  - destruct Hann as [-> [an Han]]. split; [done|]. by exists an.
  - cbn [Eff.state_of] in Hq. unfold keeps_query in Hq. split; [done|].
    unfold _run, visit, ErrorHandlingNode, handled.
    cbv [mbind M_bind Eff.gets Eff.modify Eff.throw prep exec post maxRetries
         _exec mret M_ret set_shared set_response].
    cbn [shared calls trace query error response option_bind]. rewrite Hq.
    cbn [from_option Datatypes.id]. unfold Js.or_else.
    rewrite systemErrorText_truthy.
    by destruct e.
Qed.
End Termination.

Section WorkflowExamples.
Import PocketFlow PocketFlowRAG.

(** C1, failing input: [query] propagates an exception.  In the
    world [W_rejects_undefined] the search finds a document and every
    [generateText] call rejects with [undefined]; the third rejection
    leaves the walk, the handler of [query] runs the Error Handling
    stage, whose text is stored as the response, and then reads
    [error.message] on [undefined]: the caller gets a [TypeError]
    instead of the flagged answer.  The Error Handling stage reads
    the same value as [error?.message]; for every other outcome of
    the walk [query] returns an answer (lemma [query_of_walk]). *)
Theorem query_propagates_type_error :
  ∃ st,
    PocketFlowRAGService.query W_rejects_undefined PocketFlowRAGService.new 6
      "how do I deploy" 0
      = Throws (Error "Cannot read properties of undefined (reading 'message')") st
    ∧ trace st = failedPath
    ∧ error (shared st) = Some Undefined
    ∧ response (shared st)
      = Some (systemErrorText (Some "how do I deploy") None).
Proof.
  eexists. split; [vm_compute; reflexivity|].
  split; [|split]; vm_compute; reflexivity.
Qed.

(** An empty query is refused by Intent Classification; the caller
    still gets an answer, flagged as an error. *)
Example empty_query_is_answered :
  ∃ r st,
    PocketFlowRAGService.query W_search_down PocketFlowRAGService.new 6 "" 0
      = Returns (Some r) st
    ∧ qr_metadata r = Some (ErrorFlag "Query is required")
    ∧ trace st = [intentNode; errorNode].
Proof. eexists _, _. repeat split; vm_compute; reflexivity. Qed.

(** Two queries retrieve the same two documents; the results of the
    first query are the ones kept. *)
Example overlapping_results_merged :
  ∃ s', VectorSearchNode_exec W_overlap ("alpha", ["alpha beta"])
          (PocketFlowRAGService.start_of "alpha" 0)
        = Returns [hit docA 0.75; hit docB 0.5] s'.
Proof. eexists. vm_compute. reflexivity. Qed.

(** C10, witness: the theorem applied to [W_overlap]. *)
Lemma vector_search_merge_witness :
  ∃ perQuery out s',
    searchEach W_overlap ["alpha"; "alpha beta"]
      (PocketFlowRAGService.start_of "alpha" 0) = Returns perQuery s'
    ∧ perQuery = imap (λ k q, retrieved W_overlap (0 + k) q)
                   ["alpha"; "alpha beta"]
    ∧ length perQuery = 2
    ∧ VectorSearchNode_exec W_overlap ("alpha", ["alpha beta"])
        (PocketFlowRAGService.start_of "alpha" 0) = Returns out s'
    ∧ out = take 5 (keepFirst (concat perQuery))
    ∧ (∀ r, r ∈ concat perQuery →
         docId r ∈ docId <$> keepFirst (concat perQuery))
    ∧ length out ≤ 5
    ∧ NoDup (docId <$> out)
    ∧ ∀ r, r ∈ out →
        ∃ k rs, perQuery !! k = Some rs ∧ r ∈ rs
                ∧ ∀ k' rs', k' < k → perQuery !! k' = Some rs' →
                    docId r ∉ docId <$> rs'.
Proof.
  exact (vector_search_merge W_overlap ("alpha", ["alpha beta"])
           (PocketFlowRAGService.start_of "alpha" 0)).
Defined.
End WorkflowExamples.

(* ===================================================================== *)
(** * Further properties of the code *)
(* ===================================================================== *)

Section Headings.
Import DocumentProcessor.

Lemma headerMatch_level line n h :
  headerMatch line = Some (n, h) → 1 ≤ n ≤ 6 ∧ h ≠ "".
Proof.
  unfold headerMatch.
  destruct (Js.span _ line) as [marks rest].
  destruct ((1 <=? String.length marks) && (String.length marks <=? 6)) eqn:E; [|done].
  apply andb_true_iff in E as [E1%Nat.leb_le E2%Nat.leb_le].
  destruct (Js.span Js.is_ws rest) as [w t].
  destruct w as [|c w]; [done|].
  destruct t as [|d t].
  - destruct (Js.last_char (String c w)) as [e|]; [|done].
    destruct (_ && _); [|done]. intros [= <- <-]. done.
  - destruct (Js.all_chars Js.is_dot (String d t)); [|done].
    intros [= <- <-]. done.
Qed.

Lemma scan_seen lines k :
  k ≤ length lines →
  seen (foldl (λ st i, scan lines i st) ([], None) (seq 0 k))
  = omap headerMatch (take k lines).
Proof.
  induction k as [|k IH]; intros Hk; [done|].
  rewrite seq_S, foldl_app. cbn [foldl Nat.add].
  specialize (IH ltac:(lia)).
  destruct (lookup_lt_is_Some_2 lines k ltac:(lia)) as [line Hline].
  rewrite (take_S_r _ _ _ Hline), omap_app, <- IH.
  destruct (foldl _ _ (seq 0 k)) as [sections cur].
  unfold scan, seen. rewrite Hline. cbn [from_option Datatypes.id fst snd].
  change (omap headerMatch [line])
    with (match headerMatch line with Some y => [y] | None => [] end).
  destruct (headerMatch line) as [[lvl h]|]; cbn [fst snd].
  - destruct cur as [[[start lvl0] h0]|]; cbn.
    + by rewrite fmap_app.
    + by rewrite app_nil_r.
  - by rewrite app_nil_r.
Qed.

Lemma extractSections_scan content :
  let lines := Js.split_on (ascii_of_nat 10) content in
  let st := foldl (λ st i, scan lines i st) ([], None) (seq 0 (length lines)) in
  extractSections content
  = st.1 ++ match st.2 with
            | Some (start, lvl0, h0) =>
                [closeSection lines start lvl0 h0 (length lines)]
            | None => []
            end.
Proof.
  intros lines st. unfold extractSections. fold lines.
  rewrite for_step_unroll by lia.
  rewrite Nat.sub_0_r, ceil_div_1.
  rewrite (foldl_ext _ (λ st i, scan lines i st)).
  - fold st. destruct st as [sections [[[start lvl0] h0]|]]; cbn [fst snd]; [done|].
    by rewrite app_nil_r.
  - intros [sections cur] i. unfold scan. by rewrite Nat.mul_1_r.
Qed.

Lemma extractSections_opened content :
  opened <$> extractSections content
  = omap headerMatch (Js.split_on (ascii_of_nat 10) content).
Proof.
  pose proof (extractSections_scan content) as H. cbv zeta in H.
  rewrite H.
  pose proof (scan_seen (Js.split_on (ascii_of_nat 10) content)
                (length (Js.split_on (ascii_of_nat 10) content)) ltac:(lia)) as Hs.
  rewrite firstn_all in Hs. rewrite <- Hs. unfold seen.
  destruct (foldl _ _ _) as [sections [[[start lvl0] h0]|]]; cbn [fst snd].
  - by rewrite fmap_app.
  - by rewrite !app_nil_r.
Qed.

(** X1: [extractSections] returns one section per heading line of the
    content, in the order of the lines: the levels and headings of
    the sections are those matched on the heading lines, every level
    is between 1 and 6 and no heading is empty. *)
Theorem extractSections_headings (content : string) :
  (λ s, (level s, heading s)) <$> extractSections content
  = omap headerMatch (Js.split_on (ascii_of_nat 10) content)
  ∧ ∀ s, s ∈ extractSections content →
      1 ≤ level s ≤ 6 ∧ heading s ≠ "".
Proof.
  pose proof (extractSections_opened content) as Heq.
  split; [exact Heq|].
  intros s Hs.
  assert (Hin : opened s
                ∈ omap headerMatch (Js.split_on (ascii_of_nat 10) content)).
  { rewrite <- Heq. apply list_elem_of_fmap. by exists s. }
  apply list_elem_of_omap in Hin as (line & _ & Hline).
  by apply headerMatch_level in Hline.
Qed.

(** X2: a document longer than [maxChunkSize] in which no line is
    a heading line yields no chunk at all: its text is not indexed. *)
Theorem document_without_headings_yields_no_chunk (content : string)
    (base : EnhancedDocumentMetadata) :
  maxChunkSize < String.length content →
  (∀ line, line ∈ Js.split_on (ascii_of_nat 10) content →
           headerMatch line = None) →
  chunkDocument content base = [].
Proof.
  intros Hlen Hnone. unfold chunkDocument, createChunks.
  apply Nat.leb_gt in Hlen. rewrite Hlen.
  cut (extractSections content = []); [by intros ->|].
  apply (fmap_nil_inv opened). rewrite extractSections_opened.
  induction (Js.split_on _ content) as [|line lines IH]; [done|].
  cbn. rewrite Hnone by left.
  apply IH. intros l Hl. apply Hnone. by right.
Qed.

Lemma document_without_headings_yields_no_chunk_witness :
  maxChunkSize < String.length (filler 200)
  ∧ chunkDocument (filler 200) base0 = [].
Proof.
  assert (H : maxChunkSize < String.length (filler 200)).
  { apply (bool_decide_unpack _). vm_compute. exact I. }
  split; [exact H|].
  apply (document_without_headings_yields_no_chunk _ _ H).
  apply Forall_forall. apply (bool_decide_unpack _). vm_compute. exact I.
Defined.

Lemma append_assoc (a b c : string) : (a +:+ b) +:+ c = a +:+ (b +:+ c).
Proof.
  induction a as [|x a IH]; [done|].
  change (String x ((a +:+ b) +:+ c) = String x (a +:+ (b +:+ c))).
  by rewrite <- IH.
Qed.

Lemma append_nil_r (a : string) : a +:+ "" = a.
Proof.
  induction a as [|x a IH]; [done|].
  change (String x (a +:+ "") = String x a). by rewrite IH.
Qed.

Lemma prefix_append (p r : string) : String.prefix p (p +:+ r) = true.
Proof.
  induction p as [|c p IH]; [by destruct r|].
  change (String c p +:+ r) with (String c (p +:+ r)).
  cbn [String.prefix]. destruct (ascii_dec c c); [exact IH|done].
Qed.

(** X3: every chunk of a document longer than [maxChunkSize] comes
    from a section: it carries the heading of a heading line of the
    content, its kind is [section] only for a heading of level 1 and
    never [full_document], it keeps the file path of the base
    metadata, and its id starts with the file path, a hash sign and
    the sanitized heading. *)
Theorem chunks_come_from_sections (content : string)
    (base : EnhancedDocumentMetadata) (c : DocumentChunk) :
  maxChunkSize < String.length content →
  c ∈ chunkDocument content base →
  ∃ lvl h,
    (lvl, h) ∈ omap headerMatch (Js.split_on (ascii_of_nat 10) content)
    ∧ md_section (metadata c) = Some h
    ∧ chunk_type (metadata c) ≠ full_document
    ∧ (chunk_type (metadata c) = section → lvl = 1)
    ∧ file_path (metadata c) = file_path base
    ∧ String.prefix (file_path base +:+ "#" +:+ sanitizeId h) (id c) = true.
Proof.
  intros Hlen Hc. unfold chunkDocument, createChunks in Hc.
  apply Nat.leb_gt in Hlen. rewrite Hlen in Hc.
  apply list_elem_of_In, in_flat_map in Hc as (s & Hs%list_elem_of_In & Hc%list_elem_of_In).
  exists (level s), (heading s). split.
  { rewrite <- extractSections_opened. apply list_elem_of_fmap. by exists s. }
  unfold sectionChunks in Hc.
  destruct (String.length (sectionContent s) <=? maxChunkSize).
  - apply list_elem_of_singleton in Hc as ->. cbn.
    repeat split; try done.
    + by destruct (level s =? 1).
    + destruct (level s =? 1) eqn:E; [by apply Nat.eqb_eq in E|done].
    + rewrite <- (append_nil_r (sanitizeId (heading s))) at 2.
      rewrite <- !append_assoc. apply prefix_append.
  - apply elem_of_lookup_imap in Hc as (i & chunk & -> & _). cbn.
    repeat split; try done.
    rewrite <- !append_assoc. rewrite (append_assoc _ "#" (pretty i)).
    apply prefix_append.
Qed.
End Headings.

Section Coverage.
Import DocumentProcessor.

Lemma strides_cover {A} (step : nat) (l : list A) :
  0 < step →
  concat ((λ k, take step (drop (k * step) l))
            <$> seq 0 (ceil_div (length l) step)) = l.
Proof.
  intros Hstep.
  remember (length l) as n eqn:Hn.
  revert l Hn. induction (lt_wf n) as [n _ IH]. intros l Hn.
  destruct (decide (n = 0)) as [->|Hpos].
  { rewrite ceil_div_0 by done. symmetry in Hn.
    by apply length_zero_iff_nil in Hn as ->. }
  rewrite ceil_div_step by lia.
  rewrite <- cons_seq, <- fmap_S_seq, fmap_cons, <- list_fmap_compose.
  cbn [concat Nat.mul]. rewrite drop_0.
  specialize (IH (n - step) ltac:(lia) (drop step l)).
  rewrite length_drop, <- Hn in IH. specialize (IH eq_refl).
  etrans; [|apply (take_drop step l)]. f_equal.
  etrans; [|exact IH]. f_equal. apply list_fmap_ext. intros _ k _. cbn.
  by rewrite drop_drop.
Qed.

Lemma windows_as_slices w step (words : list string) :
  0 < step → step ≤ w →
  let ws := (λ k, window_words w step k words)
              <$> seq 0 (ceil_div (length words) step) in
  windows w step words = Js.join " " <$> ws
  ∧ concat (take step <$> ws) = words
  ∧ ∀ x, x ∈ ws → x ≠ [] ∧ length x ≤ w
         ∧ ∃ i, x = Js.slice i (i + w) words.
Proof.
  intros Hstep Hw ws. split; [|split].
  - rewrite windows_unroll by done. unfold ws.
    by rewrite <- list_fmap_compose.
  - unfold ws. rewrite <- list_fmap_compose.
    rewrite <- (strides_cover step words Hstep) at 2. f_equal.
    apply list_fmap_ext. intros _ k _. cbn.
    rewrite window_words_take, take_take. f_equal. lia.
  - intros x (k & -> & Hk)%list_elem_of_fmap.
    apply elem_of_seq in Hk as [_ Hk]. cbn in Hk.
    rewrite window_words_take.
    assert (k * step < length words).
    { destruct (decide (length words = 0)) as [E|E].
      - rewrite E, ceil_div_0 in Hk by done. lia.
      - pose proof (ceil_div_spec (length words) step Hstep) as [_ Hub]. nia. }
    split; [|split].
    + intros Hnil%(f_equal length). rewrite length_take, length_drop in Hnil. cbn [length] in Hnil. lia.
    + rewrite length_take. lia.
    + exists (k * step). unfold Js.slice. f_equal. lia.
Qed.

(** X4: the chunks of [slidingWindowChunk] are the space-joined
    texts of contiguous slices of the words of the content; no slice
    is empty or longer than [wordsPerChunk] words, and the first
    [wordsPerChunk - overlapWords] words of the slices, put one after
    the other, are all the words of the content in order: no word is
    lost. *)
Theorem slidingWindowChunk_covers (content : string) :
  ∃ ws : list (list string),
    slidingWindowChunk content = Js.join " " <$> ws
    ∧ concat (take (wordsPerChunk - overlapWords) <$> ws) = Js.split_ws content
    ∧ ∀ x, x ∈ ws →
        x ≠ [] ∧ length x ≤ wordsPerChunk
        ∧ ∃ i, x = Js.slice i (i + wordsPerChunk) (Js.split_ws content).
Proof.
  eexists. apply windows_as_slices.
  - apply step_positive.
  - unfold wordsPerChunk, overlapWords. lia.
Qed.
End Coverage.

Section Anchors.
Import DocumentProcessor.
Local Arguments Ascii.eqb : simpl never.
Local Arguments Js.is_lower_alnum : simpl never.
Local Arguments Js.dash : simpl never.

Lemma alnum_not_dash c : Js.is_lower_alnum c = true → Ascii.eqb c Js.dash = false.
Proof.
  intros H. destruct (Ascii.eqb_spec c Js.dash) as [->|]; [|done].
  vm_compute in H. discriminate.
Qed.

Lemma id_char_cases c :
  id_char c = true → Js.is_lower_alnum c = true ∨ c = Js.dash.
Proof.
  unfold id_char. intros [H|H]%orb_true_iff; [by left|right].
  by apply Ascii.eqb_eq.
Qed.

Lemma dash_not_alnum : Js.is_lower_alnum Js.dash = false.
Proof. vm_compute. reflexivity. Qed.

Lemma lower_id_char c : id_char c = true → Js.lower c = c.
Proof.
  destruct c as [[] [] [] [] [] [] [] []]; vm_compute; first [done | discriminate].
Qed.

Lemma dash_runs_separated b s : dash_separated b (Js.dash_runs b s) = true.
Proof.
  revert b. induction s as [|c s IH]; intros b; simpl; [done|].
  destruct (Js.is_lower_alnum c) eqn:Hc; simpl.
  - rewrite (alnum_not_dash c Hc). apply IH.
  - destruct b; simpl; rewrite ?Ascii.eqb_refl; simpl; apply IH.
Qed.

Lemma separated_weaken b s : dash_separated b s = true → dash_separated false s = true.
Proof.
  destruct s as [|c s]; simpl; [done|].
  destruct (Ascii.eqb c Js.dash); [|done].
  by intros [_ ->]%andb_true_iff.
Qed.

Lemma strip_lead_separated s :
  dash_separated false s = true → dash_separated true (Js.strip_lead s) = true.
Proof.
  destruct s as [|c s]; simpl; [done|].
  destruct (Ascii.eqb c Js.dash) eqn:E; simpl; [done|].
  by rewrite E.
Qed.

Lemma strip_trail_separated b s :
  dash_separated b s = true → dash_separated b (Js.strip_trail s) = true.
Proof.
  revert b. induction s as [|c s IH]; intros b; [done|].
  destruct s as [|d s].
  - simpl. destruct (Ascii.eqb c Js.dash) eqn:E; simpl; [done|]. by rewrite E.
  - change (Js.strip_trail (String c (String d s)))
      with (String c (Js.strip_trail (String d s))).
    intros H. simpl dash_separated in H |- *.
    destruct (Ascii.eqb c Js.dash).
    + apply andb_true_iff in H as [-> H]. simpl. by apply IH.
    + by apply IH.
Qed.

Lemma strip_trail_last b s :
  dash_separated b s = true → Js.last_char (Js.strip_trail s) ≠ Some Js.dash.
Proof.
  revert b. induction s as [|c s IH]; intros b; [done|].
  destruct s as [|d s].
  - simpl. destruct (Ascii.eqb_spec c Js.dash) as [->|Hne]; simpl; [done|congruence].
  - change (Js.strip_trail (String c (String d s)))
      with (String c (Js.strip_trail (String d s))).
    intros H.
    assert (Hc : ∃ b', dash_separated b' (String d s) = true
                       ∧ (b' = true ↔ c = Js.dash)).
    { simpl dash_separated in H. destruct (Ascii.eqb_spec c Js.dash) as [->|Hne].
      - apply andb_true_iff in H as [_ H]. by exists true.
      - exists false. split; [done|]. split; [done|]. intros. done. }
    destruct Hc as (b' & Hsep & Hb').
    specialize (IH b' Hsep).
    destruct (Js.strip_trail (String d s)) as [|e r] eqn:Et.
    + simpl. intros [= ->]. 
      assert (b' = true) as -> by by apply Hb'.
      destruct s as [|e s].
      * simpl in Hsep. simpl in Et.
        destruct (Ascii.eqb d Js.dash); [done|discriminate].
      * change (Js.strip_trail (String d (String e s)))
          with (String d (Js.strip_trail (String e s))) in Et. discriminate.
    + exact IH.
Qed.

Lemma separated_startsWith s :
  dash_separated true s = true → Js.startsWith s "-" = false.
Proof.
  destruct s as [|c s]; [done|]. cbn [dash_separated].
  destruct (Ascii.eqb_spec c Js.dash) as [->|Hne]; [done|]. intros _.
  unfold Js.startsWith. cbn [String.prefix].
  destruct (ascii_dec "-" c) as [<-|]; [|done]. by destruct Hne.
Qed.

Lemma separated_includes b s :
  dash_separated b s = true → Js.includes s "--" = false.
Proof.
  revert b. induction s as [|c s IH]; intros b; [done|].
  intros H. cbn [Js.includes String.prefix].
  cbn [dash_separated] in H.
  destruct (ascii_dec "-" c) as [<-|Hne].
  - change (Ascii.eqb "-" Js.dash) with true in H. cbv iota in H.
    apply andb_true_iff in H as [_ H].
    rewrite (IH _ H), orb_false_r.
    destruct s as [|d s]; [done|].
    cbn [dash_separated] in H. cbn [String.prefix].
    destruct (ascii_dec "-" d) as [<-|]; [|done].
    change (Ascii.eqb "-" Js.dash) with true in H. done.
  - cbn [orb]. destruct (Ascii.eqb c Js.dash); [apply andb_true_iff in H as [_ H]|];
      by rewrite (IH _ H).
Qed.

Lemma toLowerCase_id_chars s :
  Js.all_chars id_char s = true → Js.toLowerCase s = s.
Proof.
  induction s as [|c s IH]; simpl; [done|].
  intros [Hc Hs]%andb_true_iff. by rewrite (lower_id_char c Hc), IH.
Qed.

Lemma dash_runs_fixed b s :
  Js.all_chars id_char s = true → dash_separated b s = true →
  Js.dash_runs b s = s.
Proof.
  revert b. induction s as [|c s IH]; intros b; simpl; [done|].
  intros [Hc Hs]%andb_true_iff H.
  destruct (id_char_cases c Hc) as [Ha| ->].
  - rewrite Ha. rewrite (alnum_not_dash c Ha) in H. by rewrite IH.
  - rewrite dash_not_alnum. rewrite Ascii.eqb_refl in H.
    apply andb_true_iff in H as [Hb H]. apply negb_true_iff in Hb as ->.
    by rewrite IH.
Qed.

Lemma strip_lead_fixed s : dash_separated true s = true → Js.strip_lead s = s.
Proof.
  destruct s as [|c s]; simpl; [done|].
  by destruct (Ascii.eqb c Js.dash).
Qed.

Lemma strip_trail_fixed s : Js.last_char s ≠ Some Js.dash → Js.strip_trail s = s.
Proof.
  induction s as [|c s IH]; [done|].
  destruct s as [|d s].
  - simpl. destruct (Ascii.eqb_spec c Js.dash) as [->|]; [done|done].
  - change (Js.strip_trail (String c (String d s)))
      with (String c (Js.strip_trail (String d s))).
    change (Js.last_char (String c (String d s)))
      with (Js.last_char (String d s)).
    intros H. by rewrite IH.
Qed.

(** X5: the result of [sanitizeId] is in canonical form: it is made
    of lower-case letters, digits and dashes, does not start or end
    with a dash, has no two dashes in a row, and [sanitizeId] maps it
    to itself. *)
Theorem sanitizeId_canonical (text : string) :
  let anchor := sanitizeId text in
  sanitizeId anchor = anchor
  ∧ Js.all_chars id_char anchor = true
  ∧ Js.startsWith anchor "-" = false
  ∧ Js.last_char anchor ≠ Some Js.dash
  ∧ Js.includes anchor "--" = false.
Proof.
  intros anchor.
  assert (Hchars : Js.all_chars id_char anchor = true).
  { apply strip_trail_id_chars, strip_lead_id_chars, dash_runs_id_chars. }
  assert (Hsep : dash_separated true anchor = true).
  { apply strip_trail_separated, strip_lead_separated, dash_runs_separated. }
  assert (Hlast : Js.last_char anchor ≠ Some Js.dash).
  { eapply strip_trail_last, strip_lead_separated, dash_runs_separated. }
  repeat split; try done.
  - unfold sanitizeId at 1.
    rewrite (toLowerCase_id_chars _ Hchars).
    rewrite (dash_runs_fixed _ _ Hchars (separated_weaken _ _ Hsep)).
    rewrite (strip_lead_fixed _ Hsep). by apply strip_trail_fixed.
  - by apply separated_startsWith.
  - by eapply separated_includes.
Qed.
End Anchors.

Section Cleaning.
Import DocumentProcessor.

Lemma prefix_cons a p c s :
  String.prefix (String a p) (String c s)
  = if ascii_dec a c then String.prefix p s else false.
Proof. reflexivity. Qed.

Lemma append_cons c (a b : string) : String c a +:+ b = String c (a +:+ b).
Proof. reflexivity. Qed.

Lemma append_nil_l (b : string) : "" +:+ b = b.
Proof. reflexivity. Qed.

Ltac chars :=
  repeat match goal with
    | H : context [ascii_dec ?a ?b] |- _ =>
        destruct (ascii_dec a b) as [?E|?E];
        [try (vm_compute in E; discriminate); try subst|try discriminate]
    end.

Lemma fence_straddle c (fm rest : string) :
  String.prefix fence (String c fm) = false →
  String.prefix fence (String c (fm +:+ fence +:+ rest)) = false.
Proof.
  intros H.
  destruct (String.prefix fence (String c (fm +:+ fence +:+ rest))) eqn:E; [|done].
  exfalso. unfold fence, nl in *.
  rewrite !append_cons, !append_nil_l in *.
  rewrite prefix_cons in H, E.
  destruct (ascii_dec _ c) as [<-|]; [|done].
  destruct fm as [|d fm]; rewrite ?append_cons, ?append_nil_l in E.
  { rewrite prefix_cons in E. chars. }
  rewrite prefix_cons in H, E.
  destruct (ascii_dec _ d) as [<-|]; [|done].
  destruct fm as [|d fm]; rewrite ?append_cons, ?append_nil_l in E.
  { rewrite prefix_cons in E. chars. }
  rewrite prefix_cons in H, E.
  destruct (ascii_dec _ d) as [<-|]; [|done].
  destruct fm as [|d fm]; rewrite ?append_cons, ?append_nil_l in E.
  { rewrite prefix_cons in E. chars. }
  rewrite prefix_cons in H, E.
  destruct (ascii_dec _ d) as [<-|]; [|done].
  by destruct fm.
Qed.

Lemma after_first_fence (fm rest : string) :
  Js.includes fm fence = false →
  Js.after_first fence (fm +:+ fence +:+ rest) = Some rest.
Proof.
  induction fm as [|c fm IH]; intros H.
  - rewrite append_nil_l. 
    change (fence +:+ rest) with (String (ascii_of_nat 10) (String "-" (String "-" (String "-" rest)))).
    destruct rest; reflexivity.
  - cbn [Js.includes] in H. apply orb_false_iff in H as [Hp Hi].
    rewrite append_cons. cbn [Js.after_first].
    rewrite (fence_straddle _ _ _ Hp). by apply IH.
Qed.

(** X6: [removeFrontmatter] removes a leading front-matter block
    exactly: when the front matter has no line starting with three
    dashes, the content made of the opening fence, the front matter,
    the closing fence, a line feed and a body is mapped to the
    body. *)
Theorem removeFrontmatter_strips_block (frontmatter body : string) :
  Js.includes frontmatter (nl +:+ "---") = false →
  removeFrontmatter ("---" +:+ nl +:+ frontmatter +:+ nl +:+ "---" +:+ nl +:+ body)
  = body.
Proof.
  intros H. unfold removeFrontmatter.
  change ("---" +:+ nl +:+ frontmatter +:+ nl +:+ "---" +:+ nl +:+ body)
    with (("---" +:+ nl) +:+ (frontmatter +:+ (nl +:+ "---" +:+ nl +:+ body))).
  unfold Js.startsWith at 1. rewrite prefix_append.
  change (Js.skip 4 (("---" +:+ nl) +:+ (frontmatter +:+ (nl +:+ "---" +:+ nl +:+ body))))
    with (frontmatter +:+ (nl +:+ "---" +:+ nl +:+ body)).
  replace (frontmatter +:+ (nl +:+ "---" +:+ nl +:+ body))
    with (frontmatter +:+ fence +:+ (nl +:+ body)).
  2:{ unfold fence. by rewrite !append_assoc. }
  rewrite (after_first_fence _ _ H).
  unfold Js.startsWith. rewrite prefix_append. reflexivity.
Qed.

Lemma skip_suffix n s : ∃ pre, s = pre +:+ Js.skip n s.
Proof.
  revert s. induction n as [|n IH]; intros s; [by exists ""|].
  destruct s as [|c s]; [by exists ""|].
  destruct (IH s) as [pre Hpre]. exists (String c pre).
  cbn [Js.skip]. rewrite append_cons. by f_equal.
Qed.

Lemma after_first_suffix m s t :
  Js.after_first m s = Some t → ∃ pre, s = pre +:+ t.
Proof.
  induction s as [|c s IH]; cbn [Js.after_first].
  - destruct (String.prefix m ""); [|done]. intros [= <-]. apply skip_suffix.
  - destruct (String.prefix m (String c s)).
    + intros [= <-]. apply skip_suffix.
    + intros (pre & ->)%IH. by exists (String c pre).
Qed.

(** X7: [removeFrontmatter] only ever removes a prefix: its result
    is a suffix of the content. *)
Theorem removeFrontmatter_keeps_suffix (content : string) :
  ∃ removed, content = removed +:+ removeFrontmatter content.
Proof.
  unfold removeFrontmatter.
  destruct (Js.startsWith content ("---" +:+ nl)); [|by exists ""].
  destruct (Js.after_first _ _) as [tail|] eqn:E; [|by exists ""].
  apply after_first_suffix in E as [pre1 E].
  destruct (skip_suffix 4 content) as [pre0 E0].
  assert (∃ pre2, tail = pre2 +:+ (if Js.startsWith tail nl then Js.skip 1 tail else tail))
    as [pre2 E2].
  { destruct (Js.startsWith tail nl); [apply skip_suffix|by exists ""]. }
  exists (pre0 +:+ pre1 +:+ pre2).
  rewrite !append_assoc, <- E2, <- E. exact E0.
Qed.
End Cleaning.

Section Trimming.
Import DocumentProcessor.
Local Arguments Ascii.eqb : simpl never.
Local Arguments Js.is_ws : simpl never.
Local Arguments Js.LF : simpl never.

Lemma trim_end_cons c s :
  Js.trim_end (String c s)
  = match Js.trim_end s with
    | EmptyString => if Js.is_ws c then "" else String c ""
    | t => String c t
    end.
Proof. reflexivity. Qed.

Lemma trim_end_idemp s : Js.trim_end (Js.trim_end s) = Js.trim_end s.
Proof.
  induction s as [|c s IH]; [done|].
  rewrite trim_end_cons.
  destruct (Js.trim_end s) as [|d t] eqn:E.
  - destruct (Js.is_ws c) eqn:Hc; [done|].
    rewrite trim_end_cons. cbn [Js.trim_end]. by rewrite Hc.
  - rewrite trim_end_cons, IH. done.
Qed.

Lemma trim_start_head s :
  match Js.trim_start s with
  | String c _ => Js.is_ws c = false
  | EmptyString => True
  end.
Proof.
  induction s as [|c s IH]; [done|]. cbn [Js.trim_start].
  by destruct (Js.is_ws c) eqn:E.
Qed.

Lemma trim_head s :
  match Js.trim s with
  | String c _ => Js.is_ws c = false
  | EmptyString => True
  end.
Proof.
  unfold Js.trim. pose proof (trim_start_head s) as H.
  destruct (Js.trim_start s) as [|c t]; [done|].
  rewrite trim_end_cons. destruct (Js.trim_end t); [by rewrite H|done].
Qed.

Lemma trim_idemp s : Js.trim (Js.trim s) = Js.trim s.
Proof.
  pose proof (trim_head s) as H. unfold Js.trim at 1.
  destruct (Js.trim s) as [|c t] eqn:E; [done|].
  cbn [Js.trim_start]. rewrite H, <- E. apply trim_end_idemp.
Qed.

Lemma short_runs_weaken r r' s :
  r' ≤ r → short_runs r s = true → short_runs r' s = true.
Proof.
  intros Hr. destruct s as [|c s]; [done|]. cbn [short_runs].
  destruct (Ascii.eqb c Js.LF); [|done].
  intros [H1%Nat.ltb_lt H2]%andb_true_iff. apply andb_true_iff. split.
  - apply Nat.ltb_lt. lia.
  - destruct s as [|d s]; [done|]. cbn [short_runs] in *.
    destruct (Ascii.eqb d Js.LF); [|done].
    apply andb_true_iff in H2 as [H2%Nat.ltb_lt H3]. apply andb_true_iff. split.
    + apply Nat.ltb_lt. lia.
    + destruct s as [|e s]; [done|]. cbn [short_runs] in *.
      destruct (Ascii.eqb e Js.LF); [|done].
      apply andb_true_iff in H3 as [H3%Nat.ltb_lt _]. lia.
Qed.

Lemma collapse_short_runs r s :
  r ≤ 2 → short_runs r (Js.collapse_newlines r s) = true.
Proof.
  revert r. induction s as [|c s IH]; intros r Hr; [done|].
  cbn [Js.collapse_newlines].
  destruct (Ascii.eqb c Js.LF) eqn:Hc.
  - destruct (r <? 2) eqn:E.
    + cbn [short_runs]. rewrite Ascii.eqb_refl, E. apply Nat.ltb_lt in E. apply IH. lia.
    + by apply IH.
  - cbn [short_runs]. rewrite Hc. apply IH. lia.
Qed.

Lemma ws_LF : Js.is_ws Js.LF = true.
Proof. vm_compute. reflexivity. Qed.

Lemma trim_start_short_runs r s :
  short_runs r s = true → short_runs 0 (Js.trim_start s) = true.
Proof.
  revert r. induction s as [|c s IH]; intros r; [done|].
  cbn [Js.trim_start]. destruct (Js.is_ws c) eqn:E.
  - cbn [short_runs]. destruct (Ascii.eqb c Js.LF).
    + intros [_ H]%andb_true_iff. by eapply IH.
    + by eapply IH.
  - apply short_runs_weaken. lia.
Qed.

Lemma trim_end_short_runs r s :
  short_runs r s = true → short_runs r (Js.trim_end s) = true.
Proof.
  revert r. induction s as [|c s IH]; intros r; [done|].
  rewrite trim_end_cons. cbn [short_runs].
  destruct (Ascii.eqb_spec c Js.LF) as [->|Hne].
  - intros [H1 H2]%andb_true_iff. specialize (IH _ H2).
    destruct (Js.trim_end s) as [|d t]; [by rewrite ws_LF|].
    cbn [short_runs]. rewrite Ascii.eqb_refl, H1. exact IH.
  - intros H. specialize (IH _ H).
    destruct (Js.trim_end s) as [|d t].
    + destruct (Js.is_ws c); [done|]. cbn [short_runs].
      by destruct (Ascii.eqb_spec c Js.LF).
    + cbn [short_runs]. by destruct (Ascii.eqb_spec c Js.LF).
Qed.

Lemma short_runs_includes r s :
  short_runs r s = true → Js.includes s (nl +:+ nl +:+ nl) = false.
Proof.
  revert r. induction s as [|c s IH]; intros r H; [done|].
  cbn [Js.includes].
  assert (Hs : Js.includes s (nl +:+ nl +:+ nl) = false).
  { cbn [short_runs] in H. destruct (Ascii.eqb c Js.LF).
    - apply andb_true_iff in H as [_ H]. by eapply IH.
    - by eapply IH. }
  rewrite Hs, orb_false_r.
  destruct (String.prefix _ _) eqn:E; [exfalso|done].
  change (nl +:+ nl +:+ nl) with (String Js.LF (String Js.LF (String Js.LF ""))) in E.
  cbn [String.prefix] in E. revert E.
  destruct (ascii_dec Js.LF c) as [<-|]; [|done].
  destruct s as [|d s]; [done|]. cbn [String.prefix].
  destruct (ascii_dec Js.LF d) as [<-|]; [|done].
  destruct s as [|e s]; [done|]. cbn [String.prefix].
  destruct (ascii_dec Js.LF e) as [<-|]; [|done]. intros _.
  cbn [short_runs] in H. rewrite !Ascii.eqb_refl in H.
  apply andb_true_iff in H as [_ H].
  apply andb_true_iff in H as [_ H].
  apply andb_true_iff in H as [H _]. apply Nat.ltb_lt in H. lia.
Qed.

(** X8: the result of [cleanMarkdown] has no white space at either
    end (trimming it changes nothing) and nowhere three line feeds in
    a row. *)
Theorem cleanMarkdown_normalised (content : string) :
  let cleaned := cleanMarkdown content in
  Js.trim cleaned = cleaned
  ∧ Js.includes cleaned (nl +:+ nl +:+ nl) = false.
Proof.
  split.
  - apply trim_idemp.
  - apply (short_runs_includes 0). unfold cleanMarkdown, Js.trim.
    apply trim_end_short_runs. eapply trim_start_short_runs.
    apply (collapse_short_runs 0). lia.
Qed.
End Trimming.

Section DocumentFacts.
Import DocumentProcessor.

(** X9: no link is listed both among the internal and among the
    external links of a document. *)
Theorem link_kinds_disjoint (links : list string) (link : string) :
  link ∈ filter (λ l, isInternalLink l = true) links →
  link ∉ filter (λ l, isExternalLink l = true) links.
Proof.
  intros [Hint _]%list_elem_of_filter [Hext _]%list_elem_of_filter.
  unfold isInternalLink, isExternalLink, Js.startsWith in *.
  destruct link as [|c link]; [done|].
  cbn [String.prefix] in *.
  destruct (ascii_dec "h" c) as [<-|]; [|done].
  done.
Qed.

(** X10: [inferCategory] never returns one of the directory names
    it filters out ([apps], [docs], [data], [tutorial-basics],
    [tutorial-extras]). *)
Theorem inferCategory_not_structural (filePath : string) :
  inferCategory filePath ∉ structuralParts.
Proof.
  unfold inferCategory.
  set (parts := filter _ _).
  destruct (1 <? length parts) eqn:E.
  - apply Nat.ltb_lt in E.
    destruct (lookup_lt_is_Some_2 parts (length parts - 2) ltac:(lia)) as [part Hpart].
    rewrite Hpart. cbn.
    apply list_elem_of_lookup_2 in Hpart.
    by apply list_elem_of_filter in Hpart as [? _].
  - apply (bool_decide_unpack _). vm_compute. exact I.
Qed.

Lemma countWords_aux cur in_ws s :
  length (filter (λ word, Js.truthy word = true) (Js.split_ws_aux cur in_ws s)) = 0
  ↔ cur = "" ∧ Js.non_blank s = false.
Proof.
  revert cur in_ws. induction s as [|c s IH]; intros cur in_ws.
  - cbn [Js.split_ws_aux Js.non_blank]. rewrite filter_cons, filter_nil.
    destruct cur as [|d cur].
    + by rewrite decide_False.
    + rewrite decide_True by done. cbn. intuition congruence.
  - cbn [Js.split_ws_aux Js.non_blank].
    destruct (Js.is_ws c); cbn [negb orb].
    + destruct in_ws; [apply IH|].
      rewrite filter_cons. destruct cur as [|d cur].
      * rewrite decide_False by done. rewrite IH. tauto.
      * rewrite decide_True by done. cbn. intuition congruence.
    + rewrite IH. split; [|intuition congruence].
      intros [H _]. by destruct cur.
Qed.

(** X11: [countWords] is zero exactly for the contents that have
    nothing but white space, the contents the index build skips. *)
Theorem countWords_zero_iff_blank (content : string) :
  countWords content = 0 ↔ Js.non_blank content = false.
Proof.
  unfold countWords, Js.split_ws. rewrite countWords_aux. tauto.
Qed.
End DocumentFacts.

Section GenerationFacts.
Import GeminiService.
Context {St : Type}.
Variable generateContent : nat → string → Thrown + option string.
Variable calls : St → nat.
Variable set_calls : nat → St → St.

(** X12: [expandQuery] makes one [generateContent] call and never
    throws.  When the call replies with a text, the alternatives are
    the first three of its lines that, once trimmed, are neither empty
    nor the query itself; when the call throws or replies without text
    there is none.  So there are at most three alternatives, each of
    them non-empty, trimmed and different from the query. *)
Theorem expandQuery_alternatives (query : string) (s : St) :
  ∃ alternatives,
    expandQuery generateContent calls set_calls query s
      = Returns alternatives (set_calls (S (calls s)) s)
    ∧ match generateContent (calls s) (expandPrompt query) with
      | inr (Some (String c text)) =>
          alternatives
          = take 3 (filter (λ line, line ≠ "" ∧ line ≠ query)
                      (Js.trim <$> Js.split_on (ascii_of_nat 10) (String c text)))
      | _ => alternatives = []
      end
    ∧ length alternatives ≤ 3
    ∧ ∀ line, line ∈ alternatives →
        line ≠ "" ∧ line ≠ query ∧ Js.trim line = line.
Proof.
  unfold expandQuery, generateText.
  cbv [mbind M_bind Eff.gets Eff.modify Eff.try_catch Eff.throw mret M_ret].
  destruct (generateContent (calls s) (expandPrompt query)) as [e|[[|c text]|]];
    try (exists []; split; [reflexivity|]; split; [reflexivity|];
         split; [cbn; lia|];
         intros line Hline; by apply elem_of_nil in Hline).
  eexists. split; [reflexivity|]. split.
  { unfold Js.slice. rewrite drop_0. f_equal.
    apply list_filter_iff. intros line. split.
    - intros [Hlen Hne]. split; [|done]. intros ->. cbn in Hlen. lia.
    - intros [Hne Hq]. split; [|done]. destruct line; [done|cbn; lia]. }
  split.
  - unfold Js.slice. rewrite length_take. lia.
  - intros line Hline. unfold Js.slice in Hline. rewrite drop_0 in Hline.
    assert (Hin := elem_of_sublist _ _ _ Hline (sublist_take _ _)).
    clear Hline. apply list_elem_of_filter in Hin as [[Hlen Hne] Hin].
    apply list_elem_of_fmap in Hin as (raw & -> & _).
    split; [|split; [done|apply trim_idemp]].
    intros E. rewrite E in Hlen. cbn in Hlen. lia.
Qed.

(** X13: [classifyQueryIntent] makes one [generateContent] call and
    never throws.  When the call throws or replies without text the
    result is [general] with confidence 0.5.  Otherwise the
    confidence is 0.8 and the type is decided by the reply, trimmed
    and in lower case: one of the six categories stands for itself,
    [howto] for [how-to], any other reply for [general], except
    [constructor] and [__proto__]: the lookup in the table of
    categories then finds the member inherited from
    [Object.prototype], which is not a string. *)
Theorem classifyQueryIntent_categories (query : string) (s : St) :
  ∃ ty conf,
    classifyQueryIntent generateContent calls set_calls query s
      = Returns (ty, conf) (set_calls (S (calls s)) s)
    ∧ match generateContent (calls s) (classifyPrompt query) with
      | inr (Some (String c text)) =>
          let intent := Js.toLowerCase (Js.trim (String c text)) in
          conf = 0x1.999999999999ap-1%float
          ∧ (intent ∈ categories → ty = Category intent)
          ∧ (intent = "howto" → ty = Category "how-to")
          ∧ (intent ∈ inheritedKeys → ty = Inherited intent)
          ∧ (intent ∉ "howto" :: categories ++ inheritedKeys →
             ty = Category "general")
      | _ => ty = Category "general" ∧ conf = 0.5%float
      end
    ∧ ((∃ name, ty = Category name ∧ name ∈ categories)
       ∨ (∃ key, ty = Inherited key ∧ key ∈ inheritedKeys)).
Proof.
  unfold classifyQueryIntent, generateText.
  cbv [mbind M_bind Eff.gets Eff.modify Eff.try_catch Eff.throw mret M_ret].
  assert (Hgen : (∃ name, Category "general" = Category name ∧ name ∈ categories)).
  { exists "general". split; [done|]. apply (bool_decide_unpack _). vm_compute. exact I. }
  destruct (generateContent (calls s) (classifyPrompt query)) as [e|[[|c text]|]];
    try (eexists _, _; split; [reflexivity|]; split; [done|]; by left).
  eexists _, _. split; [reflexivity|].
  unfold intentMap.
  generalize (Js.toLowerCase (Js.trim (String c text))). intros intent.
  cbv zeta.
  repeat match goal with
    | |- context [String.eqb ?a ?b] =>
        destruct (String.eqb_spec a b) as [->|?]; cbn [orb from_option Datatypes.id]
    end.
  all: split;
    [ split; [reflexivity|];
      (split; [|split; [|split]]); intros H;
      first [ reflexivity
            | discriminate
            | contradiction
            | exfalso; unfold categories, inheritedKeys in H;
              repeat (apply elem_of_cons in H as [H|H];
                      [first [congruence|discriminate]|]);
              by apply elem_of_nil in H
            | exfalso; apply H; apply (bool_decide_unpack _); vm_compute; exact I ]
    | first [ left; eexists; split; [reflexivity|];
              apply (bool_decide_unpack _); vm_compute; exact I
            | right; eexists; split; [reflexivity|];
              apply (bool_decide_unpack _); vm_compute; exact I ] ].
Qed.
End GenerationFacts.

Section EmbeddingFacts.
Import CustomVectorStore.
Variable embedContent : nat → string → option vector.

Lemma set_api_calls_twice n m st :
  set_api_calls n (set_api_calls m st) = set_api_calls n st.
Proof. done. Qed.

Lemma answers_length n texts : length (answers embedContent n texts) ≤ length texts.
Proof.
  revert n. induction texts as [|t texts IH]; intros n; [done|].
  cbn [answers]. rewrite length_app. specialize (IH (S n)).
  destruct (embedContent n _); cbn [length]; lia.
Qed.

Lemma embeddings_loop (valid : list string) :
  Forall (λ t, Js.non_blank t = true) valid →
  ∀ (acc : M Store (list vector)) st vs0 st0,
  acc st = Returns vs0 st0 →
  foldl (λ (acc : M Store (list vector)) text,
           embeddings ← acc;
           Eff.try_catch
             (embedding ← GeminiService.getTextEmbedding embedContent
                            api_calls set_api_calls text;
              mret (embeddings ++ [embedding]))
             (λ _, mret embeddings))
        acc valid st
  = Returns (vs0 ++ answers embedContent (api_calls st0) valid)
      (if valid is [] then st0
       else set_api_calls (api_calls st0 + length valid) st0).
Proof.
  induction 1 as [|t valid Ht _ IH]; intros acc st vs0 st0 Hacc.
  { cbn. by rewrite app_nil_r. }
  cbn [foldl].
  erewrite IH; cycle 1.
  { cbv [mbind M_bind Eff.try_catch]. rewrite Hacc.
    unfold GeminiService.getTextEmbedding. rewrite Ht. cbn [negb].
    cbv [mbind M_bind Eff.gets Eff.modify Eff.throw mret M_ret].
    fold (truncatedText t).
    instantiate (1 := set_api_calls (S (api_calls st0)) st0).
    instantiate (1 := vs0 ++ match embedContent (api_calls st0) (truncatedText t) with
                             | Some values => [values] | None => [] end).
    destruct (embedContent (api_calls st0) (truncatedText t)); [done|].
    by rewrite app_nil_r. }
  cbn [answers api_calls set_api_calls]. rewrite <- app_assoc. f_equal.
  destruct valid; cbn [length]; rewrite ?set_api_calls_twice;
    unfold set_api_calls; f_equal; lia.
Qed.

(** X14: [getTextEmbeddings] never throws and leaves the store as
    it is apart from the call counter; it makes one remote call per
    non-blank text, in order, and returns the vectors of the calls
    that succeeded: a text whose call fails is skipped, so the result
    may be shorter than the list of non-blank texts and its positions
    then no longer correspond to them. *)
Theorem getTextEmbeddings_answers (texts : list string) (st : Store) :
  let valid := filter (λ t, Js.non_blank t = true) texts in
  let result := answers embedContent (api_calls st) valid in
  getTextEmbeddings embedContent texts st
  = Returns result
      (if valid is [] then st
       else set_api_calls (api_calls st + length valid) st)
  ∧ length result ≤ length valid.
Proof.
  intros valid result. split; [|apply answers_length].
  unfold getTextEmbeddings, GeminiService.getTextEmbeddings. fold valid.
  assert (Hvalid : Forall (λ t, Js.non_blank t = true) valid).
  { apply Forall_forall. intros t Ht. by apply list_elem_of_filter in Ht as [? _]. }
  pose proof (embeddings_loop valid Hvalid (mret []) st [] st eq_refl) as Hloop.
  cbn [app] in Hloop. fold result in Hloop. rewrite <- Hloop.
  by destruct valid.
Qed.
End EmbeddingFacts.

Section Plan.
Import CustomVectorStore.

Lemma elem_of_chunksOfFile cur p d :
  d ∈ chunksOfFile cur p ↔ d ∈ cur ∧ pathOf d = p.
Proof. unfold chunksOfFile. rewrite list_elem_of_filter. unfold pathOf. tauto. Qed.

Lemma elem_of_idsOfFile docs p i :
  i ∈ idsOfFile docs p ↔ ∃ d, d ∈ values docs ∧ id d = i ∧ pathOf d = p.
Proof.
  unfold idsOfFile. rewrite list_elem_of_fmap. split.
  - intros (d & -> & [Hp Hd]%list_elem_of_filter). by exists d.
  - intros (d & Hd & <- & Hp). exists d. split; [done|].
    by apply list_elem_of_filter.
Qed.

Lemma elem_of_deletedFiles docs paths i :
  i ∈ deletedFiles docs paths
  ↔ ∃ d, d ∈ values docs ∧ id d = i ∧ pathOf d ∉ paths.
Proof.
  unfold deletedFiles. rewrite list_elem_of_In, in_flat_map. split.
  - intros (p & Hp%list_elem_of_In & Hi%list_elem_of_In).
    destruct (decide (p ∈ paths)); [by apply elem_of_nil in Hi|].
    apply elem_of_idsOfFile in Hi as (d & Hd & <- & <-). by exists d.
  - intros (d & Hd & <- & Hp). exists (pathOf d). split.
    + apply list_elem_of_In, elem_of_new_Set, list_elem_of_fmap. by exists d.
    + apply list_elem_of_In. rewrite decide_False by done.
      apply elem_of_idsOfFile. by exists d.
Qed.

Lemma reconcile_fold docs stored cur current ps ins0 del0 :
  let plan :=
    foldl (λ '(documentsToInsert, documentIdsToDelete) filePath,
             match stored !! filePath with
             | Some ((String _ _) as storedHash) =>
                 if decide (current !! filePath = Some storedHash)
                 then (documentsToInsert, documentIdsToDelete)
                 else (documentsToInsert ++ chunksOfFile cur filePath,
                       documentIdsToDelete ++ idsOfFile docs filePath)
             | _ =>
                 (documentsToInsert ++ chunksOfFile cur filePath,
                  documentIdsToDelete)
             end) (ins0, del0) ps in
  (∀ d, d ∈ plan.1 ↔
        d ∈ ins0 ∨ (d ∈ cur ∧ pathOf d ∈ ps
                    ∧ ¬ unchanged stored current (pathOf d)))
  ∧ (∀ i, i ∈ plan.2 ↔
        i ∈ del0 ∨ ∃ d, d ∈ values docs ∧ id d = i ∧ pathOf d ∈ ps
                        ∧ tracked stored (pathOf d)
                        ∧ ¬ unchanged stored current (pathOf d)).
Proof.
  revert ins0 del0. induction ps as [|p ps IH]; intros ins0 del0.
  { cbn. split.
    - intros d. split; [by left|]. intros [?|(_ & []%elem_of_nil & _)]. done.
    - intros i. split; [by left|].
      intros [?|(d & _ & _ & []%elem_of_nil & _)]. done. }
  cbn [foldl].
  destruct (stored !! p) as [[|c h]|] eqn:Hs.
  - (* empty fingerprint *)
    destruct (IH (ins0 ++ chunksOfFile cur p) del0) as [Hi Hd].
    assert (Hnt : ¬ tracked stored p).
    { intros (h & Hne & Hh). congruence. }
    assert (Hnu : ¬ unchanged stored current p).
    { intros (h & Hne & Hh & _). congruence. }
    split.
    + intros d. rewrite Hi, elem_of_app, elem_of_chunksOfFile, elem_of_cons.
      split; [|intros [?|(? & [E|?] & ?)]; [tauto|rewrite E in *; tauto|tauto]].
      intros [[?|[? E]]|(? & ? & ?)]; [tauto| |tauto].
      right. rewrite E. tauto.
    + intros i. rewrite Hd. split; (intros [?|(d & ? & ? & Hp & Ht & ?)]; [by left|]).
      * right. exists d. rewrite elem_of_cons. tauto.
      * apply elem_of_cons in Hp as [E|?]; [rewrite E in Ht; tauto|].
        right. by exists d.
  - destruct (decide (current !! p = Some (String c h))) as [Hc|Hc].
    + (* unchanged *)
      destruct (IH ins0 del0) as [Hi Hd].
      assert (Hu : unchanged stored current p).
      { exists (String c h). done. }
      split.
      * intros d. rewrite Hi, elem_of_cons.
        split; [tauto|]. intros [?|(? & [E|?] & Hn)]; [tauto| |tauto].
        rewrite E in Hn. tauto.
      * intros i. rewrite Hd. split; (intros [?|(d & ? & ? & Hp & Ht & Hn)]; [by left|]).
        -- right. exists d. rewrite elem_of_cons. tauto.
        -- apply elem_of_cons in Hp as [E|?]; [rewrite E in Hn; tauto|].
           right. by exists d.
    + (* changed *)
      destruct (IH (ins0 ++ chunksOfFile cur p) (del0 ++ idsOfFile docs p))
        as [Hi Hd].
      assert (Ht : tracked stored p).
      { exists (String c h). done. }
      assert (Hnu : ¬ unchanged stored current p).
      { intros (h' & Hne & Hh & Hh'). congruence. }
      split.
      * intros d. rewrite Hi, elem_of_app, elem_of_chunksOfFile, elem_of_cons.
        split; [|intros [?|(? & [E|?] & ?)]; [tauto|rewrite E in *; tauto|tauto]].
        intros [[?|[? E]]|(? & ? & ?)]; [tauto| |tauto].
        right. rewrite E. tauto.
      * intros i. rewrite Hd, elem_of_app, elem_of_idsOfFile. split.
        -- intros [[?|(d & ? & ? & E)]|(d & ? & ? & Hp & ? & ?)]; [by left| |].
           ++ right. exists d. rewrite elem_of_cons, E. tauto.
           ++ right. exists d. rewrite elem_of_cons. tauto.
        -- intros [?|(d & ? & ? & Hp & ? & ?)]; [tauto|].
           apply elem_of_cons in Hp as [E|?].
           ++ left. right. by exists d.
           ++ right. by exists d.
  - (* no fingerprint *)
    destruct (IH (ins0 ++ chunksOfFile cur p) del0) as [Hi Hd].
    assert (Hnt : ¬ tracked stored p).
    { intros (h & Hne & Hh). congruence. }
    assert (Hnu : ¬ unchanged stored current p).
    { intros (h & Hne & Hh & _). congruence. }
    split.
    + intros d. rewrite Hi, elem_of_app, elem_of_chunksOfFile, elem_of_cons.
      split; [|intros [?|(? & [E|?] & ?)]; [tauto|rewrite E in *; tauto|tauto]].
      intros [[?|[? E]]|(? & ? & ?)]; [tauto| |tauto].
      right. rewrite E. tauto.
    + intros i. rewrite Hd. split; (intros [?|(d & ? & ? & Hp & Ht & ?)]; [by left|]).
      * right. exists d. rewrite elem_of_cons. tauto.
      * apply elem_of_cons in Hp as [E|?]; [rewrite E in Ht; tauto|].
        right. by exists d.
Qed.

Lemma reconcile_plan_sound docs stored cur current :
  let plan := reconcile docs stored cur current in
  (∀ d, d ∈ plan.1 → d ∈ cur)
  ∧ (∀ d, d ∈ values docs → pathOf d ∉ pathOf <$> cur → id d ∈ plan.2)
  ∧ (∀ d, d ∈ cur → ¬ unchanged stored current (pathOf d) → d ∈ plan.1).
Proof.
  unfold reconcile.
  pose proof (reconcile_fold docs stored cur current
                (new_Set ((λ d, file_path (metadata d)) <$> cur)) []
                (deletedFiles docs (new_Set ((λ d, file_path (metadata d)) <$> cur))))
    as [Hi Hd].
  cbv zeta. split; [|split].
  - intros d. rewrite Hi, elem_of_nil. tauto.
  - intros d Hin Hout. rewrite Hd, elem_of_deletedFiles. left.
    exists d. rewrite elem_of_new_Set. tauto.
  - intros d Hin Hch. rewrite Hi, elem_of_new_Set. right.
    split; [done|]. split; [|done]. apply list_elem_of_fmap. by exists d.
Qed.

(** X15: the plan of [performIncrementalUpdate].  The chunks to insert are the
    current chunks of the files that are not unchanged (no stored
    fingerprint, an empty one, or one that differs from the current
    fingerprint).  The ids to delete are the ids of the stored chunks
    of the files that are no longer in the tree, and of the files
    with a stored non-empty fingerprint that differs from the current
    one; the stored chunks of a file without stored fingerprint are
    not deleted. *)
Theorem reconcile_insert_and_delete_sets (docs : gmap string StoredDocument)
    (storedFileHashes : gmap string string)
    (currentDocuments : list DocumentChunk)
    (currentFileHashes : gmap string string) :
  let plan :=
    reconcile docs storedFileHashes currentDocuments currentFileHashes in
  (∀ d, d ∈ plan.1 ↔
        d ∈ currentDocuments
        ∧ ¬ unchanged storedFileHashes currentFileHashes (pathOf d))
  ∧ (∀ i, i ∈ plan.2 ↔
        ∃ d, d ∈ values docs ∧ id d = i
             ∧ (pathOf d ∉ pathOf <$> currentDocuments
                ∨ (tracked storedFileHashes (pathOf d)
                   ∧ ¬ unchanged storedFileHashes currentFileHashes (pathOf d)))).
Proof.
  unfold reconcile.
  pose proof (reconcile_fold docs storedFileHashes currentDocuments currentFileHashes
                (new_Set ((λ d, file_path (metadata d)) <$> currentDocuments)) []
                (deletedFiles docs (new_Set ((λ d, file_path (metadata d)) <$> currentDocuments))))
    as [Hi Hd].
  cbv zeta. split.
  - intros d. rewrite Hi, elem_of_nil, elem_of_new_Set.
    split; [tauto|]. intros [Hc Hn]. right. split; [done|]. split; [|done].
    apply list_elem_of_fmap. by exists d.
  - intros i. rewrite Hd, elem_of_deletedFiles. split.
    + intros [(d & ? & ? & Hp)|(d & ? & ? & Hp & ? & ?)]; exists d.
      * rewrite elem_of_new_Set in Hp. tauto.
      * tauto.
    + intros (d & ? & ? & [Hp|[? ?]]).
      * left. exists d. rewrite elem_of_new_Set. tauto.
      * destruct (decide (pathOf d ∈ pathOf <$> currentDocuments)) as [Hin|Hout].
        -- right. exists d. rewrite elem_of_new_Set. tauto.
        -- left. exists d. rewrite elem_of_new_Set. tauto.
Qed.

End Plan.

Section RoundTrip.
Import CustomVectorStore.
Variable embedContent : nat → string → option vector.
Variable writeFails : nat → bool.

Lemma elem_of_values (docs : gmap string StoredDocument) d :
  d ∈ values docs ↔ ∃ i, docs !! i = Some d.
Proof.
  unfold values. rewrite list_elem_of_fmap. split.
  - intros ([i d'] & -> & H%elem_of_map_to_list). by exists i.
  - intros (i & H). exists (i, d). split; [done|]. by apply elem_of_map_to_list.
Qed.

Lemma foldl_insert_snoc (ds : list StoredDocument) d (m : gmap string StoredDocument) :
  (foldl (λ (m : gmap string StoredDocument) doc, <[id doc := doc]> m)) m (ds ++ [d])
  = <[id d := d]> ((foldl (λ (m : gmap string StoredDocument) doc, <[id doc := doc]> m)) m ds).
Proof. by rewrite foldl_app. Qed.

Lemma foldl_insert_lookup (ds : list StoredDocument) i d :
  (foldl (λ (m : gmap string StoredDocument) doc, <[id doc := doc]> m)) ∅ ds !! i = Some d →
  d ∈ ds ∧ id d = i.
Proof.
  induction ds as [|x ds IH] using rev_ind; [cbn; by rewrite lookup_empty|].
  rewrite foldl_insert_snoc, elem_of_app, list_elem_of_singleton.
  destruct (decide (id x = i)) as [<-|Hne].
  - rewrite lookup_insert_eq. intros [= <-]. tauto.
  - rewrite lookup_insert_ne by done. intros H%IH. tauto.
Qed.

Lemma foldl_insert_elem (ds : list StoredDocument) d :
  (∀ x y, x ∈ ds → y ∈ ds → id x = id y → x = y) →
  d ∈ ds →
  (foldl (λ (m : gmap string StoredDocument) doc, <[id doc := doc]> m)) ∅ ds !! id d = Some d.
Proof.
  induction ds as [|x ds IH] using rev_ind; [by intros _ ?%elem_of_nil|].
  intros Hinj Hd. rewrite foldl_insert_snoc.
  destruct (decide (id x = id d)) as [E|Hne].
  - rewrite E, lookup_insert_eq. f_equal.
    apply Hinj; [apply elem_of_app; right; by left|done|done].
  - rewrite lookup_insert_ne by done.
    apply elem_of_app in Hd as [Hd|Hd%list_elem_of_singleton]; [|by subst].
    apply IH; [|done]. intros a b Ha Hb. apply Hinj; apply elem_of_app; by left.
Qed.

Lemma load_documents (docs : gmap string StoredDocument) :
  keyed docs →
  (foldl (λ (m : gmap string StoredDocument) doc, <[id doc := doc]> m)) ∅ (values docs) = docs.
Proof.
  intros Hk. apply map_eq. intros i.
  destruct (docs !! i) as [d|] eqn:Hd.
  - rewrite <- (Hk i d Hd). apply foldl_insert_elem.
    + intros x y [j Hx]%elem_of_values [k Hy]%elem_of_values E.
      rewrite (Hk j x Hx), (Hk k y Hy) in E. congruence.
    + apply elem_of_values. by exists i.
  - destruct (foldl _ _ _ !! i) as [d|] eqn:E; [|done].
    apply foldl_insert_lookup in E as [[j Hj]%elem_of_values Hid].
    rewrite (Hk j d Hj) in Hid. congruence.
Qed.

Lemma parsedEmbedding_exact (embedding : vector) :
  forallb exactNumber embedding = true → parsedEmbedding embedding = embedding.
Proof.
  unfold parsedEmbedding. induction embedding as [|x v IH]; [done|].
  cbn [forallb]. intros [Hx Hv]%andb_prop. rewrite fmap_cons, IH by done.
  f_equal. unfold exactNumber in Hx. unfold JSON_number.
  apply andb_prop in Hx as [-> Hx]. cbn [from_option Datatypes.id].
  by destruct (is_zero x && get_sign x).
Qed.

Lemma load_embeddings (embs : gmap string (option vector)) :
  defined embs → jsonExact embs →
  (λ embedding, Some (parsedEmbedding embedding)) <$> embeddingsObject embs
  = embs.
Proof.
  intros Hdef Hex. apply map_eq. intros i. unfold embeddingsObject.
  rewrite lookup_fmap, lookup_omap.
  destruct (embs !! i) as [[v|]|] eqn:E; [|by destruct (Hdef i None E)|done].
  cbn. by rewrite (parsedEmbedding_exact v (Hex i (Some v) E)).
Qed.

(** X16: [saveIndex] followed by [tryLoadExistingIndex] restores
    the two maps of the store, provided every chunk is filed under its
    own id, no embedding is undefined (an undefined embedding is
    dropped from the embeddings file) and every coordinate is finite
    and not [-0] (JSON gives back [-0] as [0], and [NaN] and the
    infinities as [null]). *)
Theorem snapshot_round_trip (st st1 : Store) :
  keyed (documents st) → defined (embeddings st) →
  jsonExact (embeddings st) →
  saveIndex writeFails st = Returns tt st1 →
  ∃ st2, tryLoadExistingIndex st1 = Returns true st2
         ∧ documents st2 = documents st
         ∧ embeddings st2 = embeddings st.
Proof.
  intros Hk Hdef Hex (Hd & He & Hdisk)%saveIndex_returns.
  unfold tryLoadExistingIndex.
  cbv [mbind M_bind Eff.gets Eff.modify mret M_ret]. rewrite Hdisk.
  cbn [documentsFile embeddingsFile with_embeddings with_documents].
  eexists. split; [reflexivity|].
  cbn [documents embeddings set_documents set_embeddings].
  by rewrite load_documents, load_embeddings.
Qed.

End RoundTrip.

Section RoundTripExamples.
Import CustomVectorStore.

Lemma snapshot_round_trip_witness :
  ∃ st1 st2,
    saveIndex writes_ok st_ab = Returns tt st1
    ∧ tryLoadExistingIndex st1 = Returns true st2
    ∧ documents st2 = documents st_ab
    ∧ embeddings st2 = embeddings st_ab.
Proof.
  eexists _. 
  assert (Hk : keyed (documents st_ab)).
  { apply (bool_decide_unpack _). vm_compute. exact I. }
  assert (Hdef : defined (embeddings st_ab)).
  { apply (bool_decide_unpack _). vm_compute. exact I. }
  assert (Hex : jsonExact (embeddings st_ab)).
  { apply (bool_decide_unpack _). vm_compute. exact I. }
  destruct (snapshot_round_trip writes_ok st_ab _ Hk Hdef Hex eq_refl)
    as (st2 & H).
  exists st2. split; [reflexivity|]. exact H.
Defined.

(** The numbers that are not read back as they were written, and one
    that is. *)
Example JSON_number_samples :
  JSON_number (-0)%float = Some 0%float
  ∧ JSON_number nan = None
  ∧ JSON_number infinity = None
  ∧ JSON_number neg_infinity = None
  ∧ JSON_number 0.25%float = Some 0.25%float
  ∧ (-0)%float ≠ 0%float.
Proof.
  repeat split; try (vm_compute; reflexivity).
  intros H. apply (f_equal (λ x, (1 / x <? 0)%float)) in H.
  vm_compute in H. discriminate.
Qed.

(** A store whose only coordinate is [-0] is not restored exactly. *)
Example negative_zero_is_not_restored :
  let st := {| documents := {[ "docs/a.md" := docA ]};
               embeddings := {[ "docs/a.md" := Some [(-0)%float] ]};
               disk := disk_a; api_calls := 0; fs_writes := 0 |} in
  ∃ st1 st2,
    saveIndex writes_ok st = Returns tt st1
    ∧ tryLoadExistingIndex st1 = Returns true st2
    ∧ embeddings st2 = {[ "docs/a.md" := Some [0%float] ]}
    ∧ embeddings st2 ≠ embeddings st.
Proof.
  eexists _, _. split; [reflexivity|]. split; [reflexivity|].
  split; [vm_compute; reflexivity|].
  intros H.
  apply (f_equal (λ m : gmap string (option vector),
                    match m !! "docs/a.md" with
                    | Some (Some [x]) => (1 / x <? 0)%float
                    | _ => false
                    end)) in H.
  vm_compute in H. discriminate.
Qed.
End RoundTripExamples.

Section Purge.
Import CustomVectorStore.
Variable embedContent : nat → string → option vector.
Variable writeFails : nat → bool.

Lemma within_store_only scan : store_only (within scan).
Proof. intros s s' Hd _ H i d. rewrite <- Hd. apply H. Qed.

Lemma delete_loop (ids : list string) (st : Store) :
  ∃ st', Eff.for_of ids (λ docId,
           Eff.modify (set_documents (delete docId));;
           Eff.modify (set_embeddings (delete docId))) st = Returns tt st'
         ∧ ∀ i d, documents st' !! i = Some d →
                  documents st !! i = Some d ∧ i ∉ ids.
Proof.
  revert st. induction ids as [|x ids IH]; intros st.
  { exists st. split; [done|]. intros i d H. split; [done|]. apply not_elem_of_nil. }
  cbn [Eff.for_of]. cbv [mbind M_bind Eff.modify].
  destruct (IH (set_embeddings (delete x) (set_documents (delete x) st)))
    as (st' & Hrun & Hst').
  exists st'. split; [exact Hrun|].
  intros i d H. apply Hst' in H as [H Hi]. cbn in H.
  apply lookup_delete_Some in H as [Hne H].
  split; [done|]. rewrite not_elem_of_cons. done.
Qed.

Lemma insert_loop_within scan (ins : list DocumentChunk) (embs : list vector) fuel i n :
  (∀ d, d ∈ ins → d ∈ scan) →
  preserves (within scan)
    (Eff.for_step fuel i n 1
       (λ i, match ins !! i with
             | None => Eff.throw "TypeError: doc is undefined"
             | Some doc =>
                 Eff.modify (set_documents (insert (id doc) doc));;
                 Eff.modify (set_embeddings (insert (id doc) (embs !! i)))
             end)).
Proof.
  intros Hins. apply preserves_for_step. intros j.
  destruct (ins !! j) as [doc|] eqn:Hdoc; [|apply preserves_throw].
  intros s Hs. cbv [mbind M_bind Eff.modify Eff.state_of].
  intros k d. cbn. destruct (decide (id doc = k)) as [<-|Hne].
  - rewrite lookup_insert_eq. intros [= <-].
    apply list_elem_of_fmap. exists doc. split; [done|].
    apply Hins. by eapply list_elem_of_lookup_2.
  - rewrite lookup_insert_ne by done. apply Hs.
Qed.

(** X17: after [performIncrementalUpdate], whether it returns or
    throws, every stored chunk belongs to a file of the current tree,
    provided every chunk was filed under its own id. *)
Theorem update_keeps_no_chunk_of_a_removed_file (st : Store)
    (currentDocuments : list DocumentChunk)
    (currentFileHashes : gmap string string) :
  keyed (documents st) →
  let st' := Eff.state_of (performIncrementalUpdate embedContent writeFails
                             currentDocuments currentFileHashes st) in
  ∀ d, d ∈ values (documents st') → pathOf d ∈ pathOf <$> currentDocuments.
Proof.
  intros Hk st'.
  cut (within currentDocuments st').
  { intros H d [i Hd]%elem_of_values. by eapply H. }
  unfold st', performIncrementalUpdate, loadStoredFileHashes.
  cbv [mbind M_bind Eff.gets].
  pose proof (reconcile_plan_sound (documents st)
                (default ∅ (fileHashesFile (disk st)))
                currentDocuments currentFileHashes) as (Hins & Hdel & _).
  cbv zeta in Hins, Hdel.
  destruct (reconcile _ _ _ _) as [ins del]. cbn [fst snd] in Hins, Hdel.
  assert (Hstale : ∀ i d, documents st !! i = Some d → i ∉ del →
                          pathOf d ∈ pathOf <$> currentDocuments).
  { intros i d Hd Hi.
    destruct (decide (pathOf d ∈ pathOf <$> currentDocuments)) as [|Hout]; [done|].
    destruct Hi. rewrite <- (Hk i d Hd). apply Hdel; [|done].
    apply elem_of_values. by exists i. }
  destruct (bool_decide (ins = []) && bool_decide (del = [])) eqn:E.
  { apply andb_true_iff in E as [_ E]. apply bool_decide_eq_true in E as ->.
    cbn [Eff.state_of mret M_ret]. intros i d Hd. eapply Hstale; [done|].
    apply not_elem_of_nil. }
  destruct (delete_loop del st) as (st1 & Hrun & Hst1).
  cbv [mbind M_bind Eff.gets] in Hrun. rewrite Hrun.
  assert (H1 : within currentDocuments st1).
  { intros i d Hd. apply Hst1 in Hd as [Hd Hi]. by eapply Hstale. }
  assert (Hrest : preserves (within currentDocuments)
    ((match ins with
      | [] => mret tt
      | _ =>
          embs ← getTextEmbeddings embedContent (text <$> ins);
          Eff.for_step (length ins) 0 (length ins) 1
            (λ i, match ins !! i with
                  | None => Eff.throw "TypeError: doc is undefined"
                  | Some doc =>
                      Eff.modify (set_documents (insert (id doc) doc));;
                      Eff.modify (set_embeddings (insert (id doc) (embs !! i)))
                  end)
      end);;
     saveIndex writeFails;;
     saveStoredFileHashes writeFails currentFileHashes)).
  { apply preserves_bind.
    - assert (HX : preserves (within currentDocuments)
        (embs ← getTextEmbeddings embedContent (text <$> ins);
         Eff.for_step (length ins) 0 (length ins) 1
           (λ i, match ins !! i with
                 | None => Eff.throw "TypeError: doc is undefined"
                 | Some doc =>
                     Eff.modify (set_documents (insert (id doc) doc));;
                     Eff.modify (set_embeddings (insert (id doc) (embs !! i)))
                 end))).
      { apply preserves_bind.
        + apply getTextEmbeddings_preserves, within_store_only.
        + intros embs. apply insert_loop_within. intros d Hd.
          by apply Hins. }
      clear -HX. destruct ins; [apply preserves_ret|exact HX].
    - intros _. apply preserves_bind.
      + apply saveIndex_preserves, within_store_only.
      + intros _. apply saveStoredFileHashes_preserves, within_store_only. }
  exact (Hrest st1 H1).
Qed.
End Purge.

Section PurgeExamples.
Import CustomVectorStore.

Lemma update_keeps_no_chunk_of_a_removed_file_witness :
  keyed (documents st_ab)
  ∧ ∀ d, d ∈ values (documents (Eff.state_of
            (performIncrementalUpdate embed_ok writes_ok [docA] hashes_a st_ab))) →
         pathOf d ∈ pathOf <$> [docA].
Proof.
  assert (Hk : keyed (documents st_ab)).
  { apply (bool_decide_unpack _). vm_compute. exact I. }
  split; [exact Hk|].
  exact (update_keeps_no_chunk_of_a_removed_file embed_ok writes_ok st_ab
           [docA] hashes_a Hk).
Defined.
End PurgeExamples.

Section FullBuildSummary.
Import CustomVectorStore.
Variable embedContent : nat → string → option vector.
Variable writeFails : nat → bool.

Lemma buildIndexFromScratch_valid currentDocuments currentFileHashes st :
  ∀ i d,
    documents (Eff.state_of
      (buildIndexFromScratch embedContent writeFails
         currentDocuments currentFileHashes st)) !! i = Some d →
    Js.non_blank (text d) = true.
Proof.
  set (valid := λ s : Store,
         ∀ i d, documents s !! i = Some d → Js.non_blank (text d) = true).
  assert (store_only valid) as Hso.
  { intros s s' Hd _ H i d. rewrite <- Hd. apply H. }
  unfold buildIndexFromScratch.
  set (rest := (Eff.for_step _ _ _ _ _ ≫= _)).
  cbv [mbind M_bind Eff.modify].
  assert (preserves valid rest) as Hrest.
  { unfold rest. apply preserves_bind.
    - apply preserves_for_step. intros i.
      apply preserves_try; [|intros _; apply preserves_ret].
      apply preserves_bind; [by apply getTextEmbeddings_preserves|].
      intros embs. unfold storeBatch. apply preserves_for_step. intros j.
      destruct (Js.slice i (i + batchSize) _ !! j) as [doc|] eqn:Hdoc;
        [|apply preserves_throw].
      destruct (embs !! j) as [[|x v]|]; try apply preserves_ret.
      intros s Hs. cbv [mbind M_bind Eff.modify Eff.state_of].
      intros k d. cbn. destruct (decide (id doc = k)) as [<-|Hne].
      + rewrite lookup_insert_eq. intros [= <-].
        apply list_elem_of_lookup_2 in Hdoc. unfold Js.slice in Hdoc.
        assert (doc ∈ filter (λ doc, Js.non_blank (text doc) = true)
                   currentDocuments) as Hin.
        { eapply elem_of_sublist; [exact Hdoc|].
          etrans; [apply sublist_take|apply sublist_drop]. }
        by apply list_elem_of_filter in Hin as [? _].
      + rewrite lookup_insert_ne by done. apply Hs.
    - intros _. apply preserves_bind; [by apply saveIndex_preserves|].
      intros _. by apply saveStoredFileHashes_preserves. }
  apply Hrest. intros i d. cbn. by rewrite lookup_empty.
Qed.

(** X18: after [buildIndexFromScratch], whether it returns or
    throws, every stored chunk is filed under its own id, is one of
    the scanned chunks, has a non-blank text and has a non-empty
    embedding under its id. *)
Theorem full_build_stores_embedded_scanned_chunks
    (currentDocuments : list DocumentChunk)
    (currentFileHashes : gmap string string) (st : Store) :
  let st' := Eff.state_of (buildIndexFromScratch embedContent writeFails
                             currentDocuments currentFileHashes st) in
  ∀ i d, documents st' !! i = Some d →
    id d = i ∧ d ∈ currentDocuments ∧ Js.non_blank (text d) = true
    ∧ ∃ v, embeddings st' !! i = Some (Some v) ∧ v ≠ [].
Proof.
  intros st' i d Hd.
  destruct (buildIndexFromScratch_embedded embedContent writeFails
              currentDocuments currentFileHashes st i d Hd) as [Hid Hv].
  split; [done|]. split; [|split; [|done]].
  - by eapply buildIndexFromScratch_subset.
  - by eapply buildIndexFromScratch_valid.
Qed.
End FullBuildSummary.

Section CosineSummary.
Import CustomVectorStore.

(** X19: [cosineSimilarity] throws exactly when the two vectors
    have different dimensions, and otherwise returns the quotient of the
    dot product by the product of the norms, computed in binary64
    arithmetic. *)
Theorem cosineSimilarity_cases (a b : vector) :
  cosineSimilarity a b
  = if decide (length a = length b)
    then inr (dot a b / (sqrt (dot a a) * sqrt (dot b b)))%float
    else inl "Vector dimensions must match".
Proof.
  destruct (decide (length a = length b)) as [E|E].
  - by apply cosineSimilarity_formula.
  - unfold cosineSimilarity. apply Nat.eqb_neq in E. by rewrite E.
Qed.
End CosineSummary.

Section FullBuildExamples.
Import CustomVectorStore.

Lemma full_build_stores_embedded_scanned_chunks_witness :
  let st' := Eff.state_of (buildIndexFromScratch embed_ok writes_ok
                             [docA] hashes_a st_boot) in
  documents st' !! "docs/a.md" = Some docA
  ∧ id docA = "docs/a.md" ∧ docA ∈ [docA]
  ∧ Js.non_blank (text docA) = true
  ∧ ∃ v, embeddings st' !! "docs/a.md" = Some (Some v) ∧ v ≠ [].
Proof.
  intros st'.
  assert (H : documents st' !! "docs/a.md" = Some docA).
  { vm_compute. reflexivity. }
  split; [exact H|].
  exact (full_build_stores_embedded_scanned_chunks embed_ok writes_ok
           [docA] hashes_a st_boot "docs/a.md" docA H).
Defined.
End FullBuildExamples.

Section UpdateInvariant.
Import CustomVectorStore.
Variable embedContent : nat → string → option vector.
Variable writeFails : nat → bool.

Lemma answers_answering n texts :
  answering embedContent →
  length (answers embedContent n texts) = length texts
  ∧ ∀ v, v ∈ answers embedContent n texts → v ≠ [].
Proof.
  intros Hans. revert n. induction texts as [|t texts IH]; intros n.
  { split; [done|]. by intros v ?%elem_of_nil. }
  cbn [answers]. destruct (Hans n (truncatedText t)) as (v & -> & Hv).
  destruct (IH (S n)) as [Hlen Hall]. cbn [app length]. split; [by rewrite Hlen|].
  intros w [->|Hw]%elem_of_cons; [done|by apply Hall].
Qed.

Lemma getTextEmbeddings_answering (texts : list string) (st : Store) :
  answering embedContent →
  Forall (λ t, Js.non_blank t = true) texts →
  ∃ embs st', getTextEmbeddings embedContent texts st = Returns embs st'
              ∧ documents st' = documents st
              ∧ embeddings st' = embeddings st
              ∧ length embs = length texts
              ∧ ∀ v, v ∈ embs → v ≠ [].
Proof.
  intros Hans Hvalid.
  unfold getTextEmbeddings, GeminiService.getTextEmbeddings.
  assert (Hf : filter (λ t, Js.non_blank t = true) texts = texts).
  { clear -Hvalid. induction Hvalid as [|t texts Ht _ IH]; [done|].
    rewrite filter_cons, decide_True by done. by rewrite IH. }
  rewrite Hf.
  pose proof (embeddings_loop embedContent texts Hvalid (mret []) st [] st eq_refl)
    as Hloop.
  cbn [app] in Hloop.
  destruct (answers_answering (api_calls st) texts Hans) as [Hlen Hall].
  destruct texts as [|t texts].
  - exists [], st. done.
  - eexists _, _. split; [exact Hloop|]. done.
Qed.

Lemma delete_loop_embedded (ids : list string) (st : Store) :
  embedded st →
  ∃ st', Eff.for_of ids (λ docId,
           Eff.modify (set_documents (delete docId));;
           Eff.modify (set_embeddings (delete docId))) st = Returns tt st'
         ∧ embedded st'
         ∧ ∀ i d, documents st' !! i = Some d → documents st !! i = Some d.
Proof.
  revert st. induction ids as [|x ids IH]; intros st Hst.
  { by exists st. }
  cbn [Eff.for_of]. cbv [mbind M_bind Eff.modify].
  destruct (IH (set_embeddings (delete x) (set_documents (delete x) st)))
    as (st' & Hrun & Hemb & Hsub).
  { intros i d. cbn. intros [Hne Hd]%lookup_delete_Some.
    destruct (Hst i d Hd) as (Hid & v & Hv & Hnil).
    split; [done|]. exists v. by rewrite lookup_delete_ne. }
  exists st'. split; [exact Hrun|]. split; [done|].
  intros i d Hd. apply Hsub in Hd. cbn in Hd.
  by apply lookup_delete_Some in Hd as [_ ?].
Qed.

(** X26: when the embedding service answers every call with a
    non-empty vector and no scanned chunk is blank,
    [performIncrementalUpdate] keeps the invariant that every stored
    chunk is filed under its own id and has a non-empty embedding
    under that id, whether it returns or throws. *)
Theorem update_keeps_chunks_embedded_when_service_answers (st : Store)
    (currentDocuments : list DocumentChunk)
    (currentFileHashes : gmap string string) :
  answering embedContent →
  (∀ d, d ∈ currentDocuments → Js.non_blank (text d) = true) →
  embedded st →
  embedded (Eff.state_of (performIncrementalUpdate embedContent writeFails
                            currentDocuments currentFileHashes st)).
Proof.
  intros Hans Htext Hst.
  unfold performIncrementalUpdate, loadStoredFileHashes.
  cbv [mbind M_bind Eff.gets].
  pose proof (reconcile_plan_sound (documents st)
                (default ∅ (fileHashesFile (disk st)))
                currentDocuments currentFileHashes) as (Hins & _).
  cbv zeta in Hins.
  destruct (reconcile _ _ _ _) as [ins del]. cbn [fst snd] in Hins.
  destruct (bool_decide (ins = []) && bool_decide (del = [])); [done|].
  destruct (delete_loop_embedded del st Hst) as (st1 & Hrun & H1 & _).
  cbv [mbind M_bind Eff.gets] in Hrun. rewrite Hrun.
  assert (Hrest : preserves embedded
    ((match ins with
      | [] => mret tt
      | _ =>
          embs ← getTextEmbeddings embedContent (text <$> ins);
          Eff.for_step (length ins) 0 (length ins) 1
            (λ i, match ins !! i with
                  | None => Eff.throw "TypeError: doc is undefined"
                  | Some doc =>
                      Eff.modify (set_documents (insert (id doc) doc));;
                      Eff.modify (set_embeddings (insert (id doc) (embs !! i)))
                  end)
      end);;
     saveIndex writeFails;;
     saveStoredFileHashes writeFails currentFileHashes)).
  { apply preserves_bind.
    - assert (HX : preserves embedded
        (embs ← getTextEmbeddings embedContent (text <$> ins);
         Eff.for_step (length ins) 0 (length ins) 1
           (λ i, match ins !! i with
                 | None => Eff.throw "TypeError: doc is undefined"
                 | Some doc =>
                     Eff.modify (set_documents (insert (id doc) doc));;
                     Eff.modify (set_embeddings (insert (id doc) (embs !! i)))
                 end))).
      { intros s Hs. cbv [mbind M_bind].
        destruct (getTextEmbeddings_answering (text <$> ins) s Hans)
          as (embs & s' & -> & Hd & He & Hlen & Hall).
        { apply Forall_forall. intros t (d & -> & Hd)%list_elem_of_fmap.
          by apply Htext, Hins. }
        rewrite length_fmap in Hlen.
        apply preserves_for_step.
        - intros j. destruct (ins !! j) as [doc|] eqn:Hdoc; [|apply preserves_throw].
          destruct (lookup_lt_is_Some_2 embs j) as [v Hv].
          { rewrite Hlen. by eapply lookup_lt_Some. }
          rewrite Hv. intros s2 Hs2. cbv [mbind M_bind Eff.modify Eff.state_of].
          apply embedded_insert; [|done]. apply Hall. by eapply list_elem_of_lookup_2.
        - eapply embedded_store_only; [| |exact Hs]; done. }
      clear -HX. destruct ins; [apply preserves_ret|exact HX].
    - intros _. apply preserves_bind.
      + apply saveIndex_preserves, embedded_store_only.
      + intros _. apply saveStoredFileHashes_preserves, embedded_store_only. }
  exact (Hrest st1 H1).
Qed.
End UpdateInvariant.

Section UpdateInvariantExamples.
Import CustomVectorStore.

Lemma update_keeps_chunks_embedded_when_service_answers_witness :
  answering embed_ok
  ∧ (∀ d, d ∈ [docA; docB] → Js.non_blank (text d) = true)
  ∧ embedded st_a
  ∧ embedded (Eff.state_of (performIncrementalUpdate embed_ok writes_ok
                              [docA; docB] hashes_ab st_a)).
Proof.
  assert (H1 : answering embed_ok).
  { intros n t. by exists [0.5; 0.5]%float. }
  assert (H2 : ∀ d, d ∈ [docA; docB] → Js.non_blank (text d) = true).
  { apply Forall_forall. apply (bool_decide_unpack _). vm_compute. exact I. }
  assert (H3 : embedded st_a).
  { intros i d Hd. unfold st_a in Hd. cbn [documents] in Hd.
    apply lookup_singleton_Some in Hd as [<- <-].
    split; [reflexivity|]. exists [0.5; 0.25]%float. split; [reflexivity|done]. }
  split; [exact H1|]. split; [exact H2|]. split; [exact H3|].
  exact (update_keeps_chunks_embedded_when_service_answers embed_ok writes_ok
           st_a [docA; docB] hashes_ab H1 H2 H3).
Defined.
End UpdateInvariantExamples.

Section UpdateStores.
Import CustomVectorStore.
Variable embedContent : nat → string → option vector.
Variable writeFails : nat → bool.

Lemma for_step_invariant {St} (I : nat → St → Prop)
    (body : nat → M St unit) (n : nat) :
  (∀ k s, k < n → I k s → ∃ s', body k s = Returns tt s' ∧ I (S k) s') →
  ∀ fuel k s, n - k ≤ fuel → k ≤ n → I k s →
  ∃ s', Eff.for_step fuel k n 1 body s = Returns tt s' ∧ I n s'.
Proof.
  intros Hbody. induction fuel as [|fuel IH]; intros k s Hfuel Hk Hs.
  - assert (k = n) as -> by lia. by exists s.
  - cbn [Eff.for_step]. destruct (k <? n) eqn:E.
    + apply Nat.ltb_lt in E.
      destruct (Hbody k s E Hs) as (s1 & Hrun & Hs1).
      cbv [mbind M_bind]. rewrite Hrun. rewrite Nat.add_1_r.
      apply IH; [lia|lia|done].
    + apply Nat.ltb_ge in E. assert (k = n) as -> by lia. by exists s.
Qed.

Lemma getTextEmbeddings_returns (texts : list string) (st : Store) :
  ∃ embs st', getTextEmbeddings embedContent texts st = Returns embs st'
              ∧ documents st' = documents st.
Proof.
  unfold getTextEmbeddings, GeminiService.getTextEmbeddings.
  set (valid := filter _ texts).
  assert (Hvalid : Forall (λ t, Js.non_blank t = true) valid).
  { apply Forall_forall. intros t Ht. by apply list_elem_of_filter in Ht as [? _]. }
  pose proof (embeddings_loop embedContent valid Hvalid (mret []) st [] st eq_refl)
    as Hloop.
  destruct valid as [|t ts].
  - by exists [], st.
  - eexists _, _. split; [exact Hloop|]. done.
Qed.

(** X27: after [performIncrementalUpdate], whether it returns or
    throws, every current chunk of a file that is not unchanged is
    stored under its id, provided the ids of the current chunks are
    distinct. *)
Theorem update_stores_chunks_of_new_and_changed_files (st : Store)
    (currentDocuments : list DocumentChunk)
    (currentFileHashes : gmap string string) (d : DocumentChunk) :
  (∀ x y, x ∈ currentDocuments → y ∈ currentDocuments → id x = id y → x = y) →
  d ∈ currentDocuments →
  ¬ unchanged (default ∅ (fileHashesFile (disk st))) currentFileHashes
      (pathOf d) →
  documents (Eff.state_of (performIncrementalUpdate embedContent writeFails
                             currentDocuments currentFileHashes st))
    !! id d = Some d.
Proof.
  intros Hinj Hd Hch.
  set (stored := λ s : Store, documents s !! id d = Some d).
  assert (Hso : store_only stored).
  { intros s s' Hdocs _ H. unfold stored. by rewrite <- Hdocs. }
  change (stored (Eff.state_of (performIncrementalUpdate embedContent writeFails
                                  currentDocuments currentFileHashes st))).
  unfold performIncrementalUpdate, loadStoredFileHashes.
  cbv [mbind M_bind Eff.gets].
  pose proof (reconcile_plan_sound (documents st)
                (default ∅ (fileHashesFile (disk st)))
                currentDocuments currentFileHashes) as (Hins & _ & Hnew).
  cbv zeta in Hins, Hnew.
  specialize (Hnew d Hd Hch).
  destruct (reconcile _ _ _ _) as [ins del]. cbn [fst snd] in Hins, Hnew.
  destruct ins as [|d0 ins0] eqn:Eins; [by apply elem_of_nil in Hnew|].
  rewrite <- Eins in *. clear Eins d0 ins0.
  replace (bool_decide (ins = [])) with false; cycle 1.
  { symmetry. apply bool_decide_eq_false. intros ->. by apply elem_of_nil in Hnew. }
  cbn [andb].
  destruct (delete_loop del st) as (st1 & Hrun & _).
  cbv [mbind M_bind Eff.gets] in Hrun. rewrite Hrun.
  assert (Hmid : ∃ st3,
    (embs ← getTextEmbeddings embedContent (text <$> ins);
     Eff.for_step (length ins) 0 (length ins) 1
       (λ i, match ins !! i with
             | None => Eff.throw "TypeError: doc is undefined"
             | Some doc =>
                 Eff.modify (set_documents (insert (id doc) doc));;
                 Eff.modify (set_embeddings (insert (id doc) (embs !! i)))
             end)) st1 = Returns tt st3 ∧ stored st3).
  { cbv [mbind M_bind].
    destruct (getTextEmbeddings_returns (text <$> ins) st1)
      as (embs & st2 & -> & _).
    destruct (for_step_invariant
                (λ k s, ∀ j doc, j < k → ins !! j = Some doc →
                                 documents s !! id doc = Some doc)
                (λ i, match ins !! i with
                      | None => Eff.throw "TypeError: doc is undefined"
                      | Some doc =>
                          Eff.modify (set_documents (insert (id doc) doc));;
                          Eff.modify (set_embeddings (insert (id doc) (embs !! i)))
                      end)
                (length ins)) with (fuel := length ins) (k := 0) (s := st2)
      as (st3 & Hloop & Hall).
    - intros k s Hk Hs.
      destruct (lookup_lt_is_Some_2 ins k Hk) as [doc Hdoc]. rewrite Hdoc.
      cbv [mbind M_bind Eff.modify]. eexists. split; [reflexivity|].
      intros j doc' Hj Hdoc'. cbn [documents set_documents set_embeddings].
      destruct (decide (id doc = id doc')) as [E|E].
      + rewrite E, lookup_insert_eq. f_equal.
        apply Hinj; [| |done]; apply Hins; by eapply list_elem_of_lookup_2.
      + rewrite lookup_insert_ne by done.
        apply (Hs j doc'); [|done].
        destruct (decide (j = k)) as [->|]; [congruence|lia].
    - lia.
    - lia.
    - intros j doc Hj. lia.
    - exists st3. split; [exact Hloop|].
      apply list_elem_of_lookup in Hnew as [j Hj].
      apply (Hall j d); [by eapply lookup_lt_Some|done]. }
  destruct Hmid as (st3 & Hmid & Hst3).
  assert (Hrest : preserves stored
            (saveIndex writeFails;; saveStoredFileHashes writeFails currentFileHashes)).
  { apply preserves_bind; [by apply saveIndex_preserves|].
    intros _. by apply saveStoredFileHashes_preserves. }
  match type of Hmid with
  | ?mid st1 = _ =>
      change (stored (Eff.state_of
                ((mid ≫= λ _, saveIndex writeFails;;
                               saveStoredFileHashes writeFails currentFileHashes)
                   st1)))
  end.
  unfold mbind at 1. unfold M_bind at 1. rewrite Hmid.
  exact (Hrest st3 Hst3).
Qed.
End UpdateStores.

Section UpdateStoresExamples.
Import CustomVectorStore.

Lemma update_stores_chunks_of_new_and_changed_files_witness :
  (∀ x y, x ∈ [docA; docB] → y ∈ [docA; docB] → id x = id y → x = y)
  ∧ docB ∈ [docA; docB]
  ∧ ¬ unchanged (default ∅ (fileHashesFile (disk st_a))) hashes_ab (pathOf docB)
  ∧ documents (Eff.state_of (performIncrementalUpdate embed_ok writes_ok
                               [docA; docB] hashes_ab st_a))
      !! id docB = Some docB.
Proof.
  assert (H1 : ∀ x y, x ∈ [docA; docB] → y ∈ [docA; docB] → id x = id y → x = y).
  { intros x y Hx Hy.
    apply elem_of_cons in Hx as [->|Hx%list_elem_of_singleton];
      apply elem_of_cons in Hy as [->|Hy%list_elem_of_singleton];
      subst; first [done | discriminate]. }
  assert (H2 : docB ∈ [docA; docB]) by (right; left).
  assert (H3 : ¬ unchanged (default ∅ (fileHashesFile (disk st_a))) hashes_ab
                   (pathOf docB)).
  { intros (h & _ & Hh & _). vm_compute in Hh. discriminate. }
  split; [exact H1|]. split; [exact H2|]. split; [exact H3|].
  exact (update_stores_chunks_of_new_and_changed_files embed_ok writes_ok st_a
           [docA; docB] hashes_ab docB H1 H2 H3).
Defined.
End UpdateStoresExamples.

Section SearchFacts.
Import CustomVectorStore CustomVectorStoreSearch.
Variable embedContent : nat → string → option vector.
Variable sort : (QueryResult → QueryResult → float) →
                list QueryResult → list QueryResult.

(** What the loop yields from [acc0]: the scored documents, or the
    error of the first similarity that cannot be computed. *)
Lemma scoreAll_from (qv : vector) (embs : gmap string (option vector))
    (docs : list StoredDocument) :
  ∀ (acc : M Store (list QueryResult)) st rs0,
  acc st = Returns rs0 st →
  let out := foldl (score qv embs) acc docs st in
  (∃ rs, out = Returns (rs0 ++ rs) st
         ∧ (∀ d e, d ∈ docs → embs !! id d = Some (Some e) →
                   length e = length qv)
         ∧ ∀ r, r ∈ rs →
             document r ∈ docs
             ∧ ∃ e, embs !! id (document r) = Some (Some e)
                    ∧ cosineSimilarity qv e = inr (similarity r))
  ∨ (out = Throws "Vector dimensions must match" st
     ∧ ∃ d e, d ∈ docs ∧ embs !! id d = Some (Some e)
              ∧ length e ≠ length qv).
Proof.
  induction docs as [|doc docs IH]; intros acc st rs0 Hacc out.
  { left. exists []. unfold out. cbn. rewrite app_nil_r.
    split; [done|]. split; [by intros ?? ?%elem_of_nil|by intros ? ?%elem_of_nil]. }
  unfold out. cbn [foldl].
  destruct (embs !! id doc) as [[e|]|] eqn:He.
  - destruct (decide (length qv = length e)) as [Hlen|Hlen].
    + destruct (cosineSimilarity qv e) as [msg|sim] eqn:Hcos.
      { unfold cosineSimilarity in Hcos.
        apply Nat.eqb_eq in Hlen. rewrite Hlen in Hcos. cbn [negb] in Hcos.
        by destruct (Js.for_step _ _ _ _ _ _) as [[? ?] ?]. }
      match goal with
      | |- context [foldl ?f ?a docs st] =>
          destruct (IH a st (rs0 ++ [ {| document := doc; similarity := sim |} ]))
            as [(rs & Hout & Hdim & Hrs)|(Hout & d & e' & Hd & He' & Hne)]
      end.
      { unfold score. cbv [mbind M_bind mret M_ret]. by rewrite Hacc, He, Hcos. }
      * left. exists ({| document := doc; similarity := sim |} :: rs).
        rewrite Hout, <- app_assoc. split; [done|]. split.
        -- intros d e' [->|Hd]%elem_of_cons Hde; [|by eapply Hdim].
           rewrite He in Hde. by injection Hde as <-.
        -- intros r [->|Hr]%elem_of_cons.
           ++ cbn. split; [by left|]. by exists e.
           ++ destruct (Hrs r Hr) as [? ?]. split; [by right|done].
      * right. rewrite Hout. split; [done|]. exists d, e'. split; [by right|done].
    + right. split.
      * assert (Hthrow : ∀ (acc : M Store (list QueryResult)),
                  acc st = Throws "Vector dimensions must match" st →
                  foldl (score qv embs) acc docs st
                  = Throws "Vector dimensions must match" st).
        { clear. induction docs as [|doc docs IH]; intros acc Hacc; [done|].
          cbn [foldl]. apply IH. unfold score. cbv [mbind M_bind]. by rewrite Hacc. }
        apply Hthrow. unfold score. cbv [mbind M_bind Eff.throw]. rewrite Hacc, He.
        unfold cosineSimilarity. apply Nat.eqb_neq in Hlen. by rewrite Hlen.
      * exists doc, e. split; [by left|]. split; [done|]. congruence.
  - match goal with
    | |- context [foldl ?f ?a docs st] =>
        destruct (IH a st rs0)
          as [(rs & Hout & Hdim & Hrs)|(Hout & d & e' & Hd & He' & Hne)]
    end.
    { unfold score. cbv [mbind M_bind mret M_ret]. by rewrite Hacc, He. }
    + left. exists rs. split; [done|]. split.
      * intros d e' [->|Hd]%elem_of_cons Hde; [congruence|by eapply Hdim].
      * intros r Hr. destruct (Hrs r Hr) as [? ?]. split; [by right|done].
    + right. split; [done|]. exists d, e'. split; [by right|done].
  - match goal with
    | |- context [foldl ?f ?a docs st] =>
        destruct (IH a st rs0)
          as [(rs & Hout & Hdim & Hrs)|(Hout & d & e' & Hd & He' & Hne)]
    end.
    { unfold score. cbv [mbind M_bind mret M_ret]. by rewrite Hacc, He. }
    + left. exists rs. split; [done|]. split.
      * intros d e' [->|Hd]%elem_of_cons Hde; [congruence|by eapply Hdim].
      * intros r Hr. destruct (Hrs r Hr) as [? ?]. split; [by right|done].
    + right. split; [done|]. exists d, e'. split; [by right|done].
Qed.

Lemma query_embedding q st qv :
  Js.non_blank q = true →
  embedContent (api_calls st) (truncatedText q) = Some qv →
  GeminiService.getTextEmbedding embedContent api_calls set_api_calls q st
  = Returns qv (set_api_calls (S (api_calls st)) st).
Proof.
  intros Hq He. unfold GeminiService.getTextEmbedding. rewrite Hq. cbn [negb].
  cbv [mbind M_bind Eff.gets Eff.modify]. fold (truncatedText q).
  cbn [api_calls set_api_calls]. by rewrite He.
Qed.

(** X20: a single stored embedding whose dimension differs from
    the dimension of the query embedding makes [vectorSearch] throw,
    whatever the other stored chunks are. *)
Theorem one_mismatched_embedding_fails_every_search
    (queryText : string) (topK : nat) (st : Store) (queryEmbedding : vector) :
  Js.non_blank queryText = true →
  embedContent (api_calls st) (truncatedText queryText) = Some queryEmbedding →
  mismatched st queryEmbedding →
  ∃ st', vectorSearch embedContent sort queryText topK st
         = Throws "Vector dimensions must match" st'.
Proof.
  intros Hq He (k & d & e & Hd & Hde & Hlen).
  unfold vectorSearch. cbv [mbind M_bind].
  rewrite (query_embedding _ _ _ Hq He).
  cbv [Eff.gets]. cbn [documents embeddings set_api_calls].
  set (st1 := set_api_calls _ st).
  destruct (scoreAll_from queryEmbedding (embeddings st) (values (documents st))
              (mret []) st1 [] eq_refl)
    as [(rs & _ & Hdim & _)|(Hout & _)].
  - destruct Hlen. eapply Hdim; [|done]. apply elem_of_values. by exists k.
  - exists st1. unfold scoreAll. cbv zeta in Hout.
    match goal with
    | |- match ?X with _ => _ end = _ =>
        replace X with (Throws "Vector dimensions must match" st1
                          : Outcome Store (list QueryResult))
          by (symmetry; exact Hout)
    end. done.
Qed.

(** X21: when [vectorSearch] returns, it returns at most [topK]
    results, each of them a stored chunk that has an embedding under
    its id, with the cosine similarity of that embedding and the
    query embedding. *)
Theorem vectorSearch_results (queryText : string) (topK : nat)
    (st st' : Store) (results : list QueryResult) :
  permutes sort →
  vectorSearch embedContent sort queryText topK st = Returns results st' →
  length results ≤ topK
  ∧ ∀ r, r ∈ results →
      document r ∈ values (documents st)
      ∧ ∃ e, embeddings st !! id (document r) = Some (Some e)
             ∧ cosineSimilarity
                 (default [] (embedContent (api_calls st) (truncatedText queryText)))
                 e = inr (similarity r).
Proof.
  intros Hsort. unfold vectorSearch, GeminiService.getTextEmbedding.
  destruct (Js.non_blank queryText); cbn [negb]; [|done].
  cbv [mbind M_bind Eff.gets Eff.modify Eff.throw mret M_ret].
  fold (truncatedText queryText). cbn [api_calls set_api_calls].
  destruct (embedContent (api_calls st) (truncatedText queryText)) as [qv|]; [|done].
  cbn [documents embeddings from_option Datatypes.id].
  set (st1 := set_api_calls (S (api_calls st)) st).
  destruct (scoreAll_from qv (embeddings st) (values (documents st))
              (mret []) st1 [] eq_refl)
    as [(rs & Hout & _ & Hrs)|(Hout & _)];
    cbv zeta in Hout; unfold scoreAll;
    match goal with
    | |- match ?X with _ => _ end = _ → _ =>
        first [ replace X with (Returns ([] ++ rs) st1
                                  : Outcome Store (list QueryResult))
                  by (symmetry; exact Hout)
              | replace X with (Throws "Vector dimensions must match" st1
                                  : Outcome Store (list QueryResult))
                  by (symmetry; exact Hout) ]
    end; [|done].
  intros [= <- <-]. cbn [app]. split.
  - unfold Js.slice. rewrite length_take. lia.
  - intros r Hr. apply Hrs.
    unfold Js.slice in Hr. rewrite drop_0 in Hr.
    assert (Hin := elem_of_sublist _ _ _ Hr (sublist_take _ _)).
    unfold permutes in Hsort. by rewrite Hsort in Hin.
Qed.
End SearchFacts.

Section SearchExamples.
Import CustomVectorStore CustomVectorStoreSearch.

Lemma one_mismatched_embedding_fails_every_search_witness :
  Js.non_blank "alpha" = true
  ∧ embed3 (api_calls st_a) (truncatedText "alpha") = Some [0.5; 0.5; 0.5]%float
  ∧ mismatched st_a [0.5; 0.5; 0.5]%float
  ∧ ∃ st', vectorSearch embed3 (λ _ l, l) "alpha" 5 st_a
           = Throws "Vector dimensions must match" st'.
Proof.
  assert (H1 : Js.non_blank "alpha" = true) by reflexivity.
  assert (H2 : embed3 (api_calls st_a) (truncatedText "alpha")
               = Some [0.5; 0.5; 0.5]%float) by reflexivity.
  assert (H3 : mismatched st_a [0.5; 0.5; 0.5]%float).
  { exists "docs/a.md", docA, [0.5; 0.25]%float.
    split; [reflexivity|]. split; [reflexivity|]. cbn. lia. }
  split; [exact H1|]. split; [exact H2|]. split; [exact H3|].
  exact (one_mismatched_embedding_fails_every_search embed3 (λ _ l, l)
           "alpha" 5 st_a _ H1 H2 H3).
Defined.

Lemma vectorSearch_results_witness :
  permutes (λ _ l, l)
  ∧ ∃ results st',
      vectorSearch embed_ok (λ _ l, l) "alpha" 5 st_a = Returns results st'
      ∧ length results ≤ 5
      ∧ ∀ r, r ∈ results →
          document r ∈ values (documents st_a)
          ∧ ∃ e, embeddings st_a !! id (document r) = Some (Some e)
                 ∧ cosineSimilarity
                     (default [] (embed_ok (api_calls st_a) (truncatedText "alpha")))
                     e = inr (similarity r).
Proof.
  assert (H1 : permutes (λ _ l, l)) by (intros cmp l; reflexivity).
  split; [exact H1|].
  eexists _, _. split; [vm_compute; reflexivity|].
  eapply (vectorSearch_results embed_ok (λ _ l, l) "alpha" 5 st_a _ _ H1).
  vm_compute. reflexivity.
Defined.
End SearchExamples.

Section Paths.
Import PocketFlow PocketFlowRAG.
Variable W : Collaborators.

Ltac run_stage :=
  unfold _run, visit;
  cbv [mbind M_bind Eff.gets Eff.modify prep exec post maxRetries _exec
       Eff.try_catch call Eff.throw mret M_ret set_shared set_response
       QueryExpansionNode VectorSearchNode LLMFallbackNode
       MetadataEnhancementNode ContextBuildingNode ResponseGenerationNode
       ErrorHandlingNode generateLLMFallback adapterResponseWithSources];
  cbn [shared calls trace].

Lemma call_framed {A} sh t (method : nat → Thrown + A) :
  preserves (framed sh t) (call method).
Proof.
  intros s [Hs Ht]. unfold call.
  cbv [mbind M_bind Eff.gets Eff.modify Eff.throw mret M_ret].
  by destruct (method (calls s)).
Qed.

Lemma searchDocuments_framed sh t q k :
  preserves (framed sh t) (searchDocuments W q k).
Proof.
  unfold searchDocuments.
  apply preserves_try; [|intros _; apply preserves_ret].
  destruct (vectorSearch W); [apply call_framed|apply preserves_throw].
Qed.

Lemma searchAll_framed sh t qs : preserves (framed sh t) (searchAll W qs).
Proof.
  unfold searchAll. apply preserves_foldl; [|apply preserves_ret].
  intros c q Hc. apply preserves_bind; [done|]. intros results.
  apply preserves_try; [|intros _; apply preserves_ret].
  apply preserves_bind; [apply searchDocuments_framed|].
  intros r. apply preserves_ret.
Qed.

Lemma searchAll_returns qs s :
  ∃ results s', searchAll W qs s = Returns results s'
                ∧ shared s' = shared s ∧ trace s' = trace s.
Proof.
  destruct (searchAll_searchEach W qs s) as (pq & s' & _ & _ & E).
  pose proof (searchAll_framed (shared s) (trace s) qs s (conj eq_refl eq_refl))
    as [Hs Ht].
  rewrite E in Hs, Ht. by exists (concat pq), s'.
Qed.

Lemma search_stage s :
  ∃ a s' results,
    _run (visit searchNode) (VectorSearchNode W) s = Returns a s'
    ∧ trace s' = trace s ++ [searchNode]
    ∧ searchResults (shared s') = Some results
    ∧ queryResults (shared s') = Some results
    ∧ length results ≤ 5
    ∧ getNextNode graph searchNode a
      = Some (if results is [] then fallbackNode else contextNode)
    ∧ query (shared s') = query (shared s).
Proof.
  unfold _run, visit, VectorSearchNode, VectorSearchNode_exec.
  cbv [mbind M_bind Eff.gets Eff.modify prep exec post maxRetries _exec
       mret M_ret set_shared].
  cbn [shared calls trace fst snd].
  match goal with
  | |- context [searchAll W ?qs ?st] =>
      destruct (searchAll_returns qs st) as (rs & s1 & -> & Hs & Ht)
  end.
  cbn [shared trace] in Hs, Ht.
  eexists _, _, (take 5 (uniqueResults rs)). split; [reflexivity|].
  cbn [shared trace searchResults queryResults query].
  rewrite Hs, Ht. repeat split.
  - rewrite length_take. lia.
  - pose proof (length_take_le (uniqueResults rs) 5).
    destruct (take 5 (uniqueResults rs)) as [|r1 [|r2 [|r3 rest]]];
      cbn [length Nat.eqb Nat.leb];
      [apply next_search_none|apply next_search_low|apply next_search_low
      |apply next_search_high].
Qed.

Lemma truthy_append_l (a b : string) :
  Js.truthy a = true → Js.truthy (a +:+ b) = true.
Proof. by destruct a. Qed.

Lemma describe_truthy i r : Js.truthy (describe i r) = true.
Proof. unfold describe. by apply truthy_append_l. Qed.

Lemma join_truthy sep (l : list string) :
  l ≠ [] → (∀ x, x ∈ l → Js.truthy x = true) → Js.truthy (Js.join sep l) = true.
Proof.
  destruct l as [|x [|y l]]; [done| |]; intros _ H; cbn [Js.join].
  - apply H. by left.
  - apply truthy_append_l, H. by left.
Qed.

Lemma context_stage s results :
  searchResults (shared s) = Some results → results ≠ [] →
  ∃ s' ctx,
    _run (visit contextNode) ContextBuildingNode s = Returns "default" s'
    ∧ trace s' = trace s ++ [contextNode]
    ∧ context (shared s') = Some ctx ∧ Js.truthy ctx = true
    ∧ searchResults (shared s') = searchResults (shared s)
    ∧ queryResults (shared s') = queryResults (shared s)
    ∧ query (shared s') = query (shared s).
Proof.
  intros Hr Hne. run_stage. rewrite Hr. cbn [from_option Datatypes.id].
  eexists _, _. split; [reflexivity|]. cbn [shared trace context searchResults
    queryResults query]. repeat split.
  destruct results as [|r rs]; [done|].
  apply join_truthy.
  - by intros ?%(f_equal length).
  - intros x (i & r' & -> & _)%elem_of_lookup_imap. apply describe_truthy.
Qed.

Lemma response_stage s ctx :
  context (shared s) = Some ctx → Js.truthy ctx = true →
  let prompt := buildPrompt W (default "" (query (shared s))) ctx
                  (default general (intent (shared s))) in
  (∃ s', _run (visit responseNode) (ResponseGenerationNode W) s
           = Returns "default" s'
         ∧ trace s' = trace s ++ [responseNode]
         ∧ searchResults (shared s') = searchResults (shared s)
         ∧ query (shared s') = query (shared s))
  ∨ (∃ e1 e2 e s',
       _run (visit responseNode) (ResponseGenerationNode W) s = Throws e s'
       ∧ trace s' = trace s ++ [responseNode]
       ∧ query (shared s') = query (shared s)
       ∧ generateText W (calls s) prompt = inl e1
       ∧ generateText W (S (calls s)) prompt = inl e2
       ∧ generateText W (S (S (calls s))) prompt = inl e).
Proof.
  intros Hctx Ht prompt. run_stage. rewrite Hctx.
  cbn [from_option Datatypes.id]. rewrite Ht. cbn [negb]. fold prompt.
  cbn [shared calls trace].
  destruct (generateText W (calls s) prompt) as [e1|t1] eqn:E1;
    cbn [shared calls trace];
    [destruct (generateText W (S (calls s)) prompt) as [e2|t2] eqn:E2;
     cbn [shared calls trace];
     [destruct (generateText W (S (S (calls s))) prompt) as [e3|t3] eqn:E3;
      cbn [shared calls trace]|]|].
  1:{ right. eexists e1, e2, e3, _. split; [reflexivity|]. done. }
  all: left;
    destruct (queryResults (shared s)) as [[|r rs]|]; cbn [shared calls trace];
    try (by eexists);
    destruct (generateResponseWithSources W) as [f|]; cbn [shared calls trace];
    try (by eexists);
    match goal with
    | |- context [f ?n ?q ?rs ?i] => destruct (f n q rs i)
    end; by eexists.
Qed.

Lemma error_stage s :
  ∃ s', _run (visit errorNode) ErrorHandlingNode s = Returns "default" s'
        ∧ trace s' = trace s ++ [errorNode]
        ∧ response (shared s')
          = Some (systemErrorText (query (shared s))
                    (error (shared s) ≫= optional_message))
        ∧ calls s' = calls s.
Proof. run_stage. by eexists. Qed.

Lemma paths_from_intent fuel s q :
  query (shared s) = Some q → q ≠ "" →
  let out := _orchestrate visit (nodes W) graph (6 + fuel) intentNode s in
  (∃ s' a, out = Returns (Some tt) s'
           ∧ trace s' = trace s ++ fallbackPath
           ∧ sd_metadata (shared s') = Some (Enhanced a)
           ∧ documentsFound a = 0)
  ∨ (∃ s' a, out = Returns (Some tt) s'
             ∧ trace s' = trace s ++ groundedPath
             ∧ sd_metadata (shared s') = Some (Enhanced a)
             ∧ 1 ≤ documentsFound a ≤ 5)
  ∨ (∃ s' e e1 e2 n prompt,
       out = Throws e s'
       ∧ trace s' = trace s ++ [intentNode; expansionNode; searchNode;
                                contextNode; responseNode]
       ∧ query (shared s') = Some q
       ∧ generateText W n prompt = inl e1
       ∧ generateText W (S n) prompt = inl e2
       ∧ generateText W (S (S n)) prompt = inl e).
Proof.
  intros Hq Hne out. unfold out. clear out.
  destruct (intent_stage W s q Hq Hne) as (a1 & s1 & E1 & N1 & T1 & Q1).
  destruct (expansion_stage W s1) as (s2 & E2 & T2 & Q2).
  destruct (search_stage s2) as (a3 & s3 & results & E3 & T3 & R3 & QR3 & L3 & N3 & Q3).
  change (6 + fuel) with (S (S (S (S (S (S fuel)))))).
  rewrite orchestrate_step. cbn [nodes]. rewrite E1, N1.
  rewrite orchestrate_step. cbn [nodes]. rewrite E2, next_expansion.
  rewrite orchestrate_step. cbn [nodes]. rewrite E3, N3.
  destruct results as [|r rs].
  - (* nothing retrieved *)
    left.
    destruct (fallback_stage W s3) as (s4 & E4 & T4 & R4 & _).
    destruct (metadata_stage W s4) as (s5 & a & E5 & T5 & M5 & D5 & _).
    rewrite orchestrate_step. cbn [nodes]. rewrite E4, next_fallback.
    rewrite orchestrate_step. cbn [nodes]. rewrite E5, next_metadata.
    exists s5, a. split; [done|]. split.
    + rewrite T5, T4, T3, T2, T1. by rewrite <- !app_assoc.
    + split; [done|]. by rewrite D5, R4, R3.
  - right.
    destruct (context_stage s3 (r :: rs) R3 ltac:(done))
      as (s4 & ctx & E4 & T4 & C4 & Hc & R4 & _ & Q4).
    rewrite orchestrate_step. cbn [nodes]. rewrite E4, next_context.
    rewrite orchestrate_step. cbn [nodes].
    destruct (response_stage s4 ctx C4 Hc)
      as [(s5 & E5 & T5 & R5 & _)|(e1 & e2 & e & s5 & E5 & T5 & Q5 & G1 & G2 & G3)];
      rewrite E5.
    + left. rewrite next_response.
      destruct (metadata_stage W s5) as (s6 & a & E6 & T6 & M6 & D6 & _).
      rewrite orchestrate_step. cbn [nodes]. rewrite E6, next_metadata.
      exists s6, a. split; [done|]. split.
      * rewrite T6, T5, T4, T3, T2, T1. by rewrite <- !app_assoc.
      * split; [done|]. rewrite D6, R5, R4, R3. cbn [from_option Datatypes.id length] in *. lia.
    + right. eexists s5, e, e1, e2, _, _. split; [done|]. split.
      * rewrite T5, T4, T3, T2, T1. by rewrite <- !app_assoc.
      * split; [by rewrite Q5, Q4, Q3, Q2|]. done.
Qed.

(** X22: the run of a non-empty query takes one of three paths.
    When the search retrieves nothing it goes through the LLM Fallback and
    the analytics report no document; when it retrieves something it goes
    through Context Building and Response Generation and the analytics
    report between one and five documents; in both cases the answer
    is not empty.  The Error Handling stage
    is reached only from Response Generation, after three calls to
    [generateText] in a row have failed.  The value [e] of the third
    rejection is then recorded and the text of the Error Handling
    stage is stored; what the caller gets depends on [e]: for an
    object with a message, that text and the marker carrying the
    message; for another value that is not [undefined] or [null], the
    text and a marker without message; for [undefined] and [null], the
    [TypeError] of reading [e.message]. *)
Theorem query_takes_one_of_three_paths (q : string) (calls0 fuel : nat) :
  q ≠ "" → 6 ≤ fuel →
  let out :=
    PocketFlowRAGService.query W PocketFlowRAGService.new fuel q calls0 in
  (∃ r st a, out = Returns (Some r) st
             ∧ trace st = fallbackPath
             ∧ qr_response r ≠ ""
             ∧ qr_metadata r = Some (Enhanced a) ∧ documentsFound a = 0)
  ∨ (∃ r st a, out = Returns (Some r) st
               ∧ trace st = groundedPath
               ∧ qr_response r ≠ ""
               ∧ qr_metadata r = Some (Enhanced a)
               ∧ 1 ≤ documentsFound a ≤ 5)
  ∨ (∃ st e e1 e2 n prompt,
       generateText W n prompt = inl e1
       ∧ generateText W (S n) prompt = inl e2
       ∧ generateText W (S (S n)) prompt = inl e
       ∧ trace st = failedPath
       ∧ error (shared st) = Some e
       ∧ response (shared st)
         = Some (systemErrorText (Some q) (optional_message e))
       ∧ out = match e with
               | Error message =>
                   Returns (Some {| qr_response :=
                                      systemErrorText (Some q) (Some message);
                                    qr_metadata := Some (ErrorFlag message) |})
                           st
               | OtherValue =>
                   Returns (Some {| qr_response :=
                                      systemErrorText (Some q) None;
                                    qr_metadata := Some ErrorFlagUndefined |})
                           st
               | Undefined =>
                   Throws (PocketFlowRAGService.typeErrorReading "undefined") st
               | Null =>
                   Throws (PocketFlowRAGService.typeErrorReading "null") st
               end).
Proof.
  intros Hne Hfuel out. unfold out. clear out.
  replace fuel with (6 + (fuel - 6)) by lia.
  pose proof (query_of_walk W q calls0 (6 + (fuel - 6)) ltac:(lia)) as Hw.
  rewrite run_buildRAGFlow in Hw.
  destruct (paths_from_intent (fuel - 6) (PocketFlowRAGService.start_of q calls0)
              q eq_refl Hne)
    as [(s' & a & E & T & M & D)|[(s' & a & E & T & M & D)
       |(s' & e & e1 & e2 & n & p & E & T & Q & G1 & G2 & G3)]];
    cbv zeta in E; rewrite E in Hw.
  - left. destruct Hw as [Hw _]. eexists _, s', a. split; [exact Hw|].
    cbn [qr_metadata qr_response].
    split; [done|]. split; [by apply or_else_nonempty|done].
  - right. left. destruct Hw as [Hw _]. eexists _, s', a. split; [exact Hw|].
    cbn [qr_metadata qr_response].
    split; [done|]. split; [by apply or_else_nonempty|done].
  - right. right. destruct Hw as [_ Hw].
    exists (handled e s'), e, e1, e2, n, p.
    do 3 (split; [done|]).
    split; [cbn [handled trace]; by rewrite T|].
    split; [done|].
    split; [cbn [handled shared response]; by rewrite Q|].
    exact Hw.
Qed.

(** X23: the empty query is rejected by the first stage: the run
    visits Intent Classification and Error Handling only, calls no
    collaborator, and answers with the system error text for the
    message [Query is required]. *)
Theorem empty_query_is_rejected_by_the_first_stage (calls0 fuel : nat) :
  ∃ st,
    PocketFlowRAGService.query W PocketFlowRAGService.new (S fuel) "" calls0
    = Returns
        (Some {| qr_response :=
                   systemErrorText (Some "") (Some "Query is required");
                 qr_metadata := Some (ErrorFlag "Query is required") |})
        st
    ∧ trace st = [intentNode; errorNode]
    ∧ calls st = calls0.
Proof. eexists. split; [reflexivity|]. done. Qed.

End Paths.

Section Discarded.
Import PocketFlow PocketFlowRAG.
Variable W : Collaborators.

(** X24: when the search has retrieved something, the outcome of
    the Response Generation stage does not depend on the text
    [generateText] returns: the stage stores the answer of
    [generateResponseWithSources] instead. *)
Theorem grounded_answer_ignores_generated_text
    (g : nat → string → Thrown + string) (s : Run)
    (r : QueryResult) (rs : list QueryResult) (ctx text1 text2 : string) :
  queryResults (shared s) = Some (r :: rs) →
  context (shared s) = Some ctx → Js.truthy ctx = true →
  let prompt := buildPrompt W (default "" (query (shared s))) ctx
                  (default general (intent (shared s))) in
  generateText W (calls s) prompt = inr text1 →
  g (calls s) prompt = inr text2 →
  _run (visit responseNode) (ResponseGenerationNode (with_generateText g W)) s
  = _run (visit responseNode) (ResponseGenerationNode W) s.
Proof.
  intros Hr Hc Ht prompt H1 H2.
  unfold _run, visit.
  cbv [mbind M_bind Eff.gets Eff.modify prep exec post maxRetries _exec
       Eff.try_catch call Eff.throw mret M_ret set_shared set_response
       ResponseGenerationNode adapterResponseWithSources with_generateText
       generateText buildPrompt generateResponseWithSources].
  cbn [shared calls trace]. rewrite Hc. cbn [from_option Datatypes.id].
  rewrite Ht. cbn [negb shared calls trace].
  fold (buildPrompt W) (generateText W) (generateResponseWithSources W).
  fold prompt. rewrite H1, H2. cbn [shared calls trace queryResults].
  by rewrite Hr.
Qed.
End Discarded.

Section DiscardedExamples.
Import PocketFlow PocketFlowRAG.

Lemma grounded_answer_ignores_generated_text_witness :
  queryResults (shared grounded_run) = Some [hit docA 0.75]
  ∧ context (shared grounded_run) = Some "Document 1"
  ∧ Js.truthy "Document 1" = true
  ∧ generateText W_overlap 3 "alphaDocument 1" = inr "answer"
  ∧ _run (visit responseNode)
      (ResponseGenerationNode
         (with_generateText (λ _ _, inr "another answer") W_overlap))
      grounded_run
    = _run (visit responseNode) (ResponseGenerationNode W_overlap) grounded_run.
Proof.
  assert (H1 : queryResults (shared grounded_run) = Some [hit docA 0.75])
    by reflexivity.
  assert (H2 : context (shared grounded_run) = Some "Document 1") by reflexivity.
  assert (H3 : Js.truthy "Document 1" = true) by reflexivity.
  assert (H4 : generateText W_overlap 3 "alphaDocument 1" = inr "answer")
    by reflexivity.
  split; [exact H1|]. split; [exact H2|]. split; [exact H3|]. split; [exact H4|].
  exact (grounded_answer_ignores_generated_text W_overlap
           (λ _ _, inr "another answer") grounded_run _ _ _ "answer"
           "another answer" H1 H2 H3 H4 eq_refl).
Defined.
End DiscardedExamples.

Section MergeIds.
Import PocketFlowRAG.

Lemma findIndex_is_Some {A} (p : A → bool) (l : list A) x :
  x ∈ l → p x = true → ∃ i, findIndex p l = Some i.
Proof.
  induction l as [|y l IH]; [by intros ?%elem_of_nil|].
  intros [->|Hx]%elem_of_cons Hp; cbn [findIndex].
  - rewrite Hp. by exists 0.
  - destruct (p y); [by exists 0|].
    destruct (IH Hx Hp) as [i ->]. by exists (S i).
Qed.

(** X25: the filter of [VectorSearchNode.exec] that removes
    duplicates keeps every document id that was retrieved. *)
Theorem uniqueResults_keeps_every_id (results : list QueryResult) (i : string) :
  i ∈ docId <$> uniqueResults results ↔ i ∈ docId <$> results.
Proof.
  rewrite !list_elem_of_fmap. split.
  - intros (r & -> & Hr). exists r. split; [done|].
    apply uniqueResults_first in Hr as (pre & post & -> & _).
    apply elem_of_app. right. by left.
  - intros (r & -> & Hr).
    destruct (findIndex_is_Some (λ x, String.eqb (docId x) (docId r)) results r Hr
                (String.eqb_refl _)) as [k Hk].
    pose proof (findIndex_Some _ _ _ Hk) as [(x & Hx & Hid) _].
    apply String.eqb_eq in Hid. exists x. split; [done|].
    rewrite uniqueResults_eq. apply list_elem_of_fmap. exists (k, x).
    split; [done|]. apply list_elem_of_filter. split.
    + unfold firstOfId. cbn [fst snd]. by rewrite Hid.
    + by apply elem_of_indexed.
Qed.
End MergeIds.

Section MoreExamples.
Import DocumentProcessor PocketFlow PocketFlowRAG.

Lemma chunks_come_from_sections_witness :
  maxChunkSize < String.length plain_doc
  ∧ install_chunk ∈ chunkDocument plain_doc base0
  ∧ ∃ lvl h,
      (lvl, h) ∈ omap headerMatch (Js.split_on (ascii_of_nat 10) plain_doc)
      ∧ md_section (metadata install_chunk) = Some h
      ∧ chunk_type (metadata install_chunk) ≠ full_document
      ∧ (chunk_type (metadata install_chunk) = section → lvl = 1)
      ∧ file_path (metadata install_chunk) = file_path base0
      ∧ String.prefix (file_path base0 +:+ "#" +:+ sanitizeId h)
          (id install_chunk) = true.
Proof.
  assert (H1 : maxChunkSize < String.length plain_doc).
  { apply (bool_decide_unpack _). vm_compute. exact I. }
  assert (H2 : install_chunk ∈ chunkDocument plain_doc base0).
  { apply (bool_decide_unpack _). vm_compute. exact I. }
  split; [exact H1|]. split; [exact H2|].
  exact (chunks_come_from_sections plain_doc base0 install_chunk H1 H2).
Defined.

Lemma removeFrontmatter_strips_block_witness :
  Js.includes "title: Guide" (nl +:+ "---") = false
  ∧ removeFrontmatter
      ("---" +:+ nl +:+ "title: Guide" +:+ nl +:+ "---" +:+ nl +:+ "# Guide")
    = "# Guide".
Proof.
  assert (H : Js.includes "title: Guide" (nl +:+ "---") = false) by reflexivity.
  split; [exact H|].
  exact (removeFrontmatter_strips_block "title: Guide" "# Guide" H).
Defined.

Lemma link_kinds_disjoint_witness :
  "./setup" ∈ filter (λ l, isInternalLink l = true)
                ["./setup"; "https://example.org"]
  ∧ "./setup" ∉ filter (λ l, isExternalLink l = true)
                  ["./setup"; "https://example.org"].
Proof.
  assert (H : "./setup" ∈ filter (λ l, isInternalLink l = true)
                ["./setup"; "https://example.org"]).
  { apply (bool_decide_unpack _). vm_compute. exact I. }
  split; [exact H|].
  exact (link_kinds_disjoint _ _ H).
Defined.

Lemma query_takes_one_of_three_paths_witness :
  "how do I deploy" ≠ "" ∧ 6 ≤ 6
  ∧ let out :=
      PocketFlowRAGService.query W_rejects_undefined PocketFlowRAGService.new
        6 "how do I deploy" 0 in
    (∃ r st a, out = Returns (Some r) st
               ∧ trace st = fallbackPath
               ∧ qr_response r ≠ ""
               ∧ qr_metadata r = Some (Enhanced a) ∧ documentsFound a = 0)
    ∨ (∃ r st a, out = Returns (Some r) st
                 ∧ trace st = groundedPath
                 ∧ qr_response r ≠ ""
                 ∧ qr_metadata r = Some (Enhanced a)
                 ∧ 1 ≤ documentsFound a ≤ 5)
    ∨ (∃ st e e1 e2 n prompt,
         generateText W_rejects_undefined n prompt = inl e1
         ∧ generateText W_rejects_undefined (S n) prompt = inl e2
         ∧ generateText W_rejects_undefined (S (S n)) prompt = inl e
         ∧ trace st = failedPath
         ∧ error (shared st) = Some e
         ∧ response (shared st)
           = Some (systemErrorText (Some "how do I deploy")
                     (optional_message e))
         ∧ out = match e with
                 | Error message =>
                     Returns (Some {| qr_response :=
                                        systemErrorText
                                          (Some "how do I deploy")
                                          (Some message);
                                      qr_metadata :=
                                        Some (ErrorFlag message) |})
                             st
                 | OtherValue =>
                     Returns (Some {| qr_response :=
                                        systemErrorText
                                          (Some "how do I deploy") None;
                                      qr_metadata :=
                                        Some ErrorFlagUndefined |})
                             st
                 | Undefined =>
                     Throws (PocketFlowRAGService.typeErrorReading "undefined")
                            st
                 | Null =>
                     Throws (PocketFlowRAGService.typeErrorReading "null") st
                 end).
Proof.
  assert (H1 : "how do I deploy" ≠ "") by discriminate.
  assert (H2 : 6 ≤ 6) by lia.
  split; [exact H1|]. split; [exact H2|].
  exact (query_takes_one_of_three_paths W_rejects_undefined "how do I deploy"
           0 6 H1 H2).
Defined.

End MoreExamples.
